(** * gftools.fix: a shallow embedding of the font fix rules

    Source: Lib/gftools/fix.py.  A [TTFont] is modelled by the tables and
    fields that the fix rules read or write.  Python integers are [Z],
    floats that are only compared or truncated are exact rationals [Q],
    dicts are [gmap], sets and frozensets are [gset], lists are [list].
    A rule that mutates its font in place becomes a function that returns
    the font after the call together with the value returned or the
    exception raised. *)

From Stdlib Require Import ZArith QArith Qround String Ascii List Bool Sorted Lia.
From stdpp Require Import base gmap sets list strings pretty.

Local Open Scope Z_scope.

(** ** Exceptions and outcomes *)

Inductive exn : Type :=
| KeyError
| IndexError
| ValueError
| NameError
| AttributeError
| AssertionError
| NotImplementedError
| CalledProcessError.

(** ** Data model *)

(** fontTools NameRecord. *)
Record NameRecord : Type := mkNameRecord {
  nr_nameID : Z;
  nr_platformID : Z;
  nr_platEncID : Z;
  nr_langID : Z;
  nr_string : string
}.

(** fontTools CmapSubtable; [cs_cmap] is the dict codepoint -> glyph name. *)
Record CmapSubtable : Type := mkCmapSubtable {
  cs_format : Z;
  cs_platformID : Z;
  cs_platEncID : Z;
  cs_language : Z;
  cs_cmap : gmap Z string
}.

(** One axis of the fvar table. *)
Record Axis : Type := mkAxis {
  axisTag : string;
  defaultValue : Q
}.

Record Panose : Type := mkPanose {
  bFamilyType : Z;
  bProportion : Z
}.

Record OS2 : Type := mkOS2 {
  os2_version : Z;
  fsType : Z;
  usWeightClass : Z;
  fsSelection : Z;
  usWinAscent : Z;
  usWinDescent : Z;
  sTypoAscender : Z;
  sTypoDescender : Z;
  sTypoLineGap : Z;
  xAvgCharWidth : Z;
  panose : Panose
}.

Record Head : Type := mkHead {
  head_flags : Z;
  macStyle : Z;
  yMin : Z;
  yMax : Z
}.

Record Hhea : Type := mkHhea {
  ascent : Z;
  descent : Z;
  lineGap : Z;
  advanceWidthMax : Z
}.

Record Post : Type := mkPost {
  italicAngle : Q;
  isFixedPitch : Z
}.

(** The three optional index maps of HVAR. *)
Record HVAR : Type := mkHVAR {
  AdvWidthMap : option (gmap string Z);
  LsbMap : option (gmap string Z);
  RsbMap : option (gmap string Z)
}.

(** A TTFont.  [keys] is the set of table tags, [ttFont.keys()]; the other
    fields hold the contents of the tables the rules index.  The contents of
    an optional table ([fvar_axes], [COLR_version], [hvar]) are meaningful
    when its tag is in [keys].  [stylename] is what the font's name table
    gives as its style name. *)
Record TTFont : Type := mkTTFont {
  keys : gset string;
  os2 : OS2;
  head : Head;
  hhea : Hhea;
  post : Post;
  names : list NameRecord;
  metrics : gmap string (Z * Z);
  cmap_tables : list CmapSubtable;
  fvar_axes : list Axis;
  COLR_version : Z;
  numGlyphs : Z;
  glyphs : gmap string Z;
  glyphOrder : list string;
  hvar : HVAR;
  stylename : string
}.

(** The result of calling a function that mutates an object in place: the
    object as the call left it, and the value returned or the exception
    raised. *)
Inductive outcome (S A : Type) : Type :=
| Returns (state : S) (value : A)
| Raises (state : S) (e : exn).
Arguments Returns {S A} state value.
Arguments Raises {S A} state e.

(** The object a call leaves behind, and the value it returned. *)
Definition state_after {S A} (r : outcome S A) : S :=
  match r with Returns s _ => s | Raises s _ => s end.

Definition returned {S A} (r : outcome S A) : option A :=
  match r with Returns _ v => Some v | Raises _ _ => None end.

(** The result of a function that builds a new object and leaves its
    argument as it was. *)
Inductive result (A : Type) : Type :=
| Ok (value : A)
| Error (e : exn).
Arguments Ok {A} value.
Arguments Error {A} e.

(** ** Attribute assignment *)

Definition set_bFamilyType (v : Z) (p : Panose) : Panose := mkPanose v (bProportion p).
Definition set_bProportion (v : Z) (p : Panose) : Panose := mkPanose (bFamilyType p) v.

Definition set_fsType (v : Z) (o : OS2) : OS2 :=
  mkOS2 (os2_version o) v (usWeightClass o) (fsSelection o) (usWinAscent o)
        (usWinDescent o) (sTypoAscender o) (sTypoDescender o) (sTypoLineGap o)
        (xAvgCharWidth o) (panose o).
Definition set_usWeightClass (v : Z) (o : OS2) : OS2 :=
  mkOS2 (os2_version o) (fsType o) v (fsSelection o) (usWinAscent o)
        (usWinDescent o) (sTypoAscender o) (sTypoDescender o) (sTypoLineGap o)
        (xAvgCharWidth o) (panose o).
Definition set_fsSelection (v : Z) (o : OS2) : OS2 :=
  mkOS2 (os2_version o) (fsType o) (usWeightClass o) v (usWinAscent o)
        (usWinDescent o) (sTypoAscender o) (sTypoDescender o) (sTypoLineGap o)
        (xAvgCharWidth o) (panose o).
Definition set_usWinAscent (v : Z) (o : OS2) : OS2 :=
  mkOS2 (os2_version o) (fsType o) (usWeightClass o) (fsSelection o) v
        (usWinDescent o) (sTypoAscender o) (sTypoDescender o) (sTypoLineGap o)
        (xAvgCharWidth o) (panose o).
Definition set_usWinDescent (v : Z) (o : OS2) : OS2 :=
  mkOS2 (os2_version o) (fsType o) (usWeightClass o) (fsSelection o) (usWinAscent o)
        v (sTypoAscender o) (sTypoDescender o) (sTypoLineGap o)
        (xAvgCharWidth o) (panose o).
Definition set_sTypoAscender (v : Z) (o : OS2) : OS2 :=
  mkOS2 (os2_version o) (fsType o) (usWeightClass o) (fsSelection o) (usWinAscent o)
        (usWinDescent o) v (sTypoDescender o) (sTypoLineGap o)
        (xAvgCharWidth o) (panose o).
Definition set_sTypoDescender (v : Z) (o : OS2) : OS2 :=
  mkOS2 (os2_version o) (fsType o) (usWeightClass o) (fsSelection o) (usWinAscent o)
        (usWinDescent o) (sTypoAscender o) v (sTypoLineGap o)
        (xAvgCharWidth o) (panose o).
Definition set_sTypoLineGap (v : Z) (o : OS2) : OS2 :=
  mkOS2 (os2_version o) (fsType o) (usWeightClass o) (fsSelection o) (usWinAscent o)
        (usWinDescent o) (sTypoAscender o) (sTypoDescender o) v
        (xAvgCharWidth o) (panose o).
Definition set_xAvgCharWidth (v : Z) (o : OS2) : OS2 :=
  mkOS2 (os2_version o) (fsType o) (usWeightClass o) (fsSelection o) (usWinAscent o)
        (usWinDescent o) (sTypoAscender o) (sTypoDescender o) (sTypoLineGap o)
        v (panose o).
Definition set_panose (v : Panose) (o : OS2) : OS2 :=
  mkOS2 (os2_version o) (fsType o) (usWeightClass o) (fsSelection o) (usWinAscent o)
        (usWinDescent o) (sTypoAscender o) (sTypoDescender o) (sTypoLineGap o)
        (xAvgCharWidth o) v.

Definition set_macStyle (v : Z) (h : Head) : Head :=
  mkHead (head_flags h) v (yMin h) (yMax h).

Definition set_ascent (v : Z) (h : Hhea) : Hhea :=
  mkHhea v (descent h) (lineGap h) (advanceWidthMax h).
Definition set_descent (v : Z) (h : Hhea) : Hhea :=
  mkHhea (ascent h) v (lineGap h) (advanceWidthMax h).
Definition set_lineGap (v : Z) (h : Hhea) : Hhea :=
  mkHhea (ascent h) (descent h) v (advanceWidthMax h).
Definition set_advanceWidthMax (v : Z) (h : Hhea) : Hhea :=
  mkHhea (ascent h) (descent h) (lineGap h) v.

Definition set_italicAngle (v : Q) (p : Post) : Post := mkPost v (isFixedPitch p).
Definition set_isFixedPitch (v : Z) (p : Post) : Post := mkPost (italicAngle p) v.

(** [ttFont[tag] = table] for the tables of the model, and [del ttFont[tag]]. *)
Definition with_keys (k : gset string) (f : TTFont) : TTFont :=
  mkTTFont k (os2 f) (head f) (hhea f) (post f) (names f) (metrics f)
           (cmap_tables f) (fvar_axes f) (COLR_version f) (numGlyphs f)
           (glyphs f) (glyphOrder f) (hvar f) (stylename f).
Definition with_os2 (o : OS2) (f : TTFont) : TTFont :=
  mkTTFont (keys f) o (head f) (hhea f) (post f) (names f) (metrics f)
           (cmap_tables f) (fvar_axes f) (COLR_version f) (numGlyphs f)
           (glyphs f) (glyphOrder f) (hvar f) (stylename f).
Definition with_head (h : Head) (f : TTFont) : TTFont :=
  mkTTFont (keys f) (os2 f) h (hhea f) (post f) (names f) (metrics f)
           (cmap_tables f) (fvar_axes f) (COLR_version f) (numGlyphs f)
           (glyphs f) (glyphOrder f) (hvar f) (stylename f).
Definition with_hhea (h : Hhea) (f : TTFont) : TTFont :=
  mkTTFont (keys f) (os2 f) (head f) h (post f) (names f) (metrics f)
           (cmap_tables f) (fvar_axes f) (COLR_version f) (numGlyphs f)
           (glyphs f) (glyphOrder f) (hvar f) (stylename f).
Definition with_post (p : Post) (f : TTFont) : TTFont :=
  mkTTFont (keys f) (os2 f) (head f) (hhea f) p (names f) (metrics f)
           (cmap_tables f) (fvar_axes f) (COLR_version f) (numGlyphs f)
           (glyphs f) (glyphOrder f) (hvar f) (stylename f).
Definition with_names (n : list NameRecord) (f : TTFont) : TTFont :=
  mkTTFont (keys f) (os2 f) (head f) (hhea f) (post f) n (metrics f)
           (cmap_tables f) (fvar_axes f) (COLR_version f) (numGlyphs f)
           (glyphs f) (glyphOrder f) (hvar f) (stylename f).
Definition with_metrics (m : gmap string (Z * Z)) (f : TTFont) : TTFont :=
  mkTTFont (keys f) (os2 f) (head f) (hhea f) (post f) (names f) m
           (cmap_tables f) (fvar_axes f) (COLR_version f) (numGlyphs f)
           (glyphs f) (glyphOrder f) (hvar f) (stylename f).
Definition with_cmap_tables (c : list CmapSubtable) (f : TTFont) : TTFont :=
  mkTTFont (keys f) (os2 f) (head f) (hhea f) (post f) (names f) (metrics f)
           c (fvar_axes f) (COLR_version f) (numGlyphs f)
           (glyphs f) (glyphOrder f) (hvar f) (stylename f).
Definition with_glyphs (g : gmap string Z) (f : TTFont) : TTFont :=
  mkTTFont (keys f) (os2 f) (head f) (hhea f) (post f) (names f) (metrics f)
           (cmap_tables f) (fvar_axes f) (COLR_version f) (numGlyphs f)
           g (glyphOrder f) (hvar f) (stylename f).
Definition with_glyphOrder (g : list string) (f : TTFont) : TTFont :=
  mkTTFont (keys f) (os2 f) (head f) (hhea f) (post f) (names f) (metrics f)
           (cmap_tables f) (fvar_axes f) (COLR_version f) (numGlyphs f)
           (glyphs f) g (hvar f) (stylename f).
Definition with_hvar (h : HVAR) (f : TTFont) : TTFont :=
  mkTTFont (keys f) (os2 f) (head f) (hhea f) (post f) (names f) (metrics f)
           (cmap_tables f) (fvar_axes f) (COLR_version f) (numGlyphs f)
           (glyphs f) (glyphOrder f) h (stylename f).
Definition with_stylename (s : string) (f : TTFont) : TTFont :=
  mkTTFont (keys f) (os2 f) (head f) (hhea f) (post f) (names f) (metrics f)
           (cmap_tables f) (fvar_axes f) (COLR_version f) (numGlyphs f)
           (glyphs f) (glyphOrder f) (hvar f) s.

(** [tag in ttFont]. *)
Definition has_table (tag : string) (f : TTFont) : bool :=
  bool_decide (tag ∈ keys f).

(** ** Python built-ins used by the rules *)

(** [str.isspace] of one character (code points below 256). *)
Definition isspace (c : ascii) : bool :=
  let n := Z.of_nat (nat_of_ascii c) in
  (((9 <=? n) && (n <=? 13)) || ((28 <=? n) && (n <=? 32))
   || (n =? 133) || (n =? 160))%Z.

Definition push_word (w : string) (ws : list string) : list string :=
  if decide (w = "") then ws else w :: ws.

(** Scans [s] from its end: the word that is still open at the front of [s],
    and the words already closed behind it. *)
Fixpoint split_scan (s : string) : string * list string :=
  match s with
  | "" => ("", [])
  | String c s' =>
      let '(w, ws) := split_scan s' in
      if isspace c then ("", push_word w ws) else (String c w, ws)
  end.

(** [s.split()]: the maximal runs of characters that are not whitespace. *)
Definition split (s : string) : list string :=
  let '(w, ws) := split_scan s in push_word w ws.

(** [needle in hay] on strings. *)
Fixpoint str_contains (needle hay : string) : bool :=
  String.prefix needle hay ||
  match hay with
  | "" => false
  | String _ hay' => str_contains needle hay'
  end.

(** [l.remove(x)] when [x] is in [l]: the first element equal to [x] goes. *)
Fixpoint list_remove_first `{EqDecision A} (x : A) (l : list A) : list A :=
  match l with
  | [] => []
  | y :: l' => if decide (y = x) then l' else y :: list_remove_first x l'
  end.

(** [l.insert(i, x)]: an index past the end appends. *)
Definition list_insert_at {A} (i : nat) (x : A) (l : list A) : list A :=
  take i l ++ x :: drop i l.

(** A dict in insertion order, as an association list with distinct keys. *)
Definition dict (V : Type) : Type := list (string * V).

Definition dict_keys {V} (d : dict V) : list string := d.*1.

Fixpoint dict_get {V} (k : string) (d : dict V) : option V :=
  match d with
  | [] => None
  | (k', v) :: d' => if decide (k' = k) then Some v else dict_get k d'
  end.

(** [d[k] = v]: an existing key keeps its place, a new one goes last. *)
Fixpoint dict_set {V} (k : string) (v : V) (d : dict V) : dict V :=
  match d with
  | [] => [(k, v)]
  | (k', v') :: d' =>
      if decide (k' = k) then (k, v) :: d' else (k', v') :: dict_set k v d'
  end.

(** [del d[k]]. *)
Definition dict_del {V} (k : string) (d : dict V) : dict V :=
  filter (λ kv, kv.1 ≠ k) d.

(** ** Helpers of gftools.utils *)

(** Modelled from the spec: [font_stylename] of gftools.utils, which is not
    under src/.  The spec's Font has "a style name string"; the helper reads
    it from the name table, which none of the rules below rewrites. *)
Definition font_stylename (ttFont : TTFont) : string := stylename ttFont.

(** Modelled from the spec: [typo_metrics_enabled] of gftools.utils, which is
    not under src/: the font "already use[s] typographic metrics" when
    "selection bit 7" is set. *)
Definition typo_metrics_enabled (ttFont : TTFont) : bool :=
  Z.testbit (fsSelection (os2 ttFont)) 7.

(** ** Table pruning *)

Definition UNWANTED_TABLES : gset string :=
  list_to_set ["FFTM"; "TTFA"; "TSI0"; "TSI1"; "TSI2"; "TSI3"; "TSI5"; "prop"; "Debg"].

(** What [remove_tables] writes to the log. *)
Inductive LogRecord : Type :=
| WarnNotInFont (tables : gset string)
| WarnRequired (tables : gset string)
| InfoRemoving (tables : gset string).

(** [del ttFont[tbl]]. *)
Definition del_table (tbl : string) (ttFont : TTFont) : TTFont :=
  with_keys (keys ttFont ∖ {[tbl]}) ttFont.

(** [UNWANTED_TABLES if not tables else frozenset(tables)]: [None] and the
    empty list are both false. *)
Definition requested_tables (tables : option (list string)) : gset string :=
  match tables with
  | None | Some [] => UNWANTED_TABLES
  | Some l => list_to_set l
  end.

(** [remove_tables(ttFont, tables=None)].  [tables] is [None] or a list of
    tags; the function returns [None] on every path, so the model returns the
    font as the call left it and the records it logged. *)
Definition remove_tables (ttFont : TTFont) (tables : option (list string))
  : TTFont * list LogRecord :=
  let tables_to_remove := requested_tables tables in
  let font_tables := keys ttFont in
  let tables_not_in_font := tables_to_remove ∖ font_tables in
  let log1 :=
    if decide (tables_not_in_font = ∅) then [] else [WarnNotInFont tables_not_in_font] in
  let required_tables := tables_to_remove ∖ UNWANTED_TABLES in
  let log2 :=
    if decide (required_tables = ∅) then [] else [WarnRequired required_tables] in
  let tables_to_remove := UNWANTED_TABLES ∩ font_tables ∩ tables_to_remove in
  if decide (tables_to_remove = ∅) then (ttFont, log1 ++ log2)
  else (foldr del_table ttFont (elements tables_to_remove),
        log1 ++ log2 ++ [InfoRemoving tables_to_remove]).

(** ** OS/2 and head flags *)

(** [fix_fs_type]. *)
Definition fix_fs_type (ttFont : TTFont) : outcome TTFont bool :=
  let old := fsType (os2 ttFont) in
  let ttFont := with_os2 (set_fsType 0 (os2 ttFont)) ttFont in
  Returns ttFont (negb (old =? 0)).

(** [int(v)] of a finite float: truncation towards zero. *)
Definition py_int (v : Q) : Z := Z.quot (Qnum v) (Z.pos (Qden v)).

(** [{a.axisTag: a.defaultValue for a in fvar.axes}]: a later axis with the
    same tag replaces an earlier one. *)
Definition default_axis_values (axes : list Axis) : gmap string Q :=
  foldl (λ d a, <[axisTag a := defaultValue a]> d) ∅ axes.

(** One step of a stable sort by descending length. *)
Fixpoint insert_longest_first (s : string) (l : list string) : list string :=
  match l with
  | [] => [s]
  | t :: l' =>
      if (String.length t <=? String.length s)%nat then s :: l
      else t :: insert_longest_first s l'
  end.

(** [sorted(names, key=lambda k: len(k), reverse=True)]: longest first, names
    of one length in the order they had. *)
Definition sorted_longest_first (names : list string) : list string :=
  foldr insert_longest_first [] names.

Section WeightNames.

(** [_KNOWN_WEIGHTS] of gftools.util.google_fonts, a table that is not under
    src/: the rules are stated for any table. *)
Variable KNOWN_WEIGHTS : dict Z.

(** Module level: the entry of the empty name goes, two names are added. *)
Definition WEIGHT_NAMES : dict Z :=
  dict_set "ExtraBlack" 1000 (dict_set "Hairline" 1 (dict_del "" KNOWN_WEIGHTS)).

(** [ttFont["OS/2"].usWeightClass = w] followed by
    [return ttFont["OS/2"].usWeightClass != old_weight_class]. *)
Definition assign_weight_class (ttFont : TTFont) (w : Z) : outcome TTFont bool :=
  let old_weight_class := usWeightClass (os2 ttFont) in
  Returns (with_os2 (set_usWeightClass w (os2 ttFont)) ttFont)
          (negb (w =? old_weight_class)).

(** The part of [fix_weight_class] after the fvar test: the weight class of
    the style name. *)
Definition weight_class_from_stylename (ttFont : TTFont) : outcome TTFont bool :=
  let stylename := font_stylename ttFont in
  let tokens := split stylename in
  match List.find (λ style, bool_decide (style ∈ tokens))
                  (sorted_longest_first (dict_keys WEIGHT_NAMES)) with
  | Some style =>
      match dict_get style WEIGHT_NAMES with
      | Some w => assign_weight_class ttFont w
      | None => Raises ttFont KeyError
      end
  | None =>
      if bool_decide ("Italic" ∈ tokens) then assign_weight_class ttFont 400
      else Raises ttFont ValueError
  end.

(** [fix_weight_class]. *)
Definition fix_weight_class (ttFont : TTFont) : outcome TTFont bool :=
  if has_table "fvar" ttFont then
    match default_axis_values (fvar_axes ttFont) !! "wght" with
    | Some v => assign_weight_class ttFont (py_int v)
    | None => weight_class_from_stylename ttFont
    end
  else weight_class_from_stylename ttFont.

End WeightNames.

(** [fix_fs_selection]. *)
Definition fix_fs_selection (ttFont : TTFont) : outcome TTFont bool :=
  let stylename := font_stylename ttFont in
  let tokens : gset string := list_to_set (split stylename) in
  let old_selection := fsSelection (os2 ttFont) in
  let fs_selection := Z.land old_selection (Z.shiftl 1 7) in
  let fs_selection :=
    if decide ("Italic" ∈ tokens) then Z.lor fs_selection (Z.shiftl 1 0)
    else fs_selection in
  let fs_selection :=
    if decide ("Bold" ∈ tokens) then Z.lor fs_selection (Z.shiftl 1 5)
    else fs_selection in
  let fs_selection :=
    if decide (tokens ∩ list_to_set ["Bold"; "Italic"] = ∅)
    then Z.lor fs_selection (Z.shiftl 1 6)
    else fs_selection in
  Returns (with_os2 (set_fsSelection fs_selection (os2 ttFont)) ttFont)
          (negb (old_selection =? fs_selection)).

(** [fix_mac_style]. *)
Definition fix_mac_style (ttFont : TTFont) : outcome TTFont bool :=
  let old_mac_style := macStyle (head ttFont) in
  let stylename := font_stylename ttFont in
  let tokens : gset string := list_to_set (split stylename) in
  let mac_style := 0 in
  let mac_style :=
    if decide ("Italic" ∈ tokens) then Z.lor mac_style (Z.shiftl 1 1) else mac_style in
  let mac_style :=
    if decide ("Bold" ∈ tokens) then Z.lor mac_style (Z.shiftl 1 0) else mac_style in
  Returns (with_head (set_macStyle mac_style (head ttFont)) ttFont)
          (negb (old_mac_style =? mac_style)).

(** [fix_italic_angle].  The test is on the style name as a string, not on its
    tokens. *)
Definition fix_italic_angle (ttFont : TTFont) : outcome TTFont bool :=
  let style_name := font_stylename ttFont in
  if negb (str_contains "Italic" style_name)
     && negb (Qeq_bool (italicAngle (post ttFont)) 0)
  then Returns (with_post (set_italicAngle 0%Q (post ttFont)) ttFont) true
  else Returns ttFont false.

(** ** cmap: private-use remapping *)

Definition set_cs_cmap (m : gmap Z string) (t : CmapSubtable) : CmapSubtable :=
  mkCmapSubtable (cs_format t) (cs_platformID t) (cs_platEncID t) (cs_language t) m.

Definition is_cmap (platformID platEncID : Z) (t : CmapSubtable) : bool :=
  (cs_platformID t =? platformID) && (cs_platEncID t =? platEncID).

(** fontTools [cmap.getcmap(platformID, platEncID)]: the first subtable with
    these ids, or [None]. *)
Definition getcmap (tables : list CmapSubtable) (platformID platEncID : Z)
  : option CmapSubtable :=
  List.find (is_cmap platformID platEncID) tables.

(** The loop over [((3, 1), (0, 3), (3, 0))] that stops at the first subtable
    found. *)
Definition find_ucs2cmap (tables : list CmapSubtable) : option CmapSubtable :=
  foldr (λ id found,
           match getcmap tables id.1 id.2 with
           | Some t => Some t
           | None => found
           end) None [(3, 1); (0, 3); (3, 0)].

(** Writes to the dict of the subtable that [getcmap] returns: the object is
    the one in [cmap.tables], so the first subtable with these ids changes. *)
Fixpoint update_cmap (platformID platEncID : Z)
    (upd : gmap Z string → gmap Z string) (tables : list CmapSubtable)
  : list CmapSubtable :=
  match tables with
  | [] => []
  | t :: ts =>
      if is_cmap platformID platEncID t then set_cs_cmap (upd (cs_cmap t)) t :: ts
      else t :: update_cmap platformID platEncID upd ts
  end.

(** [set(subtable.cmap.values())]. *)
Definition cmap_values (t : CmapSubtable) : gset string := map_img (cs_cmap t).

(** The Unicode subtable of a font: the UCS-4 subtable when there is one and
    the first UCS-2 subtable otherwise. *)
Definition unicode_cmap (tables : list CmapSubtable) : option CmapSubtable :=
  match getcmap tables 3 10 with
  | Some t => Some t
  | None => find_ucs2cmap tables
  end.

(** Modelled from the spec: [get_unencoded_glyphs] of gftools.utils, which is
    not under src/.  The rule "finds currently-unencoded glyphs": the glyphs of
    the glyph order that no codepoint of the font's Unicode subtable maps to,
    the UCS-4 subtable when there is one and the first UCS-2 subtable
    otherwise; [.notdef] is never reported, and a font without such a subtable
    has no glyph reported. *)
Definition get_unencoded_glyphs (font : TTFont) : list string :=
  match unicode_cmap (cmap_tables font) with
  | None => []
  | Some t =>
      filter (λ g, (g ∉ cmap_values t) ∧ (g ≠ ".notdef")) (glyphOrder font)
  end.

(** The loop over [enumerate(font.getGlyphOrder())], from index [glyphID]. *)
Fixpoint map_to_pua (unencoded_glyphs : list string) (glyphID : Z)
    (order : list string) (m : gmap Z string) : gmap Z string :=
  match order with
  | [] => m
  | glyph :: order' =>
      map_to_pua unencoded_glyphs (glyphID + 1) order'
        (if decide (glyph ∈ unencoded_glyphs) then <[983040 + glyphID := glyph]> m
         else m)
  end.

(** [fix_pua]: returns [None] or [True].  A new UCS-4 subtable gets its dict
    only when a UCS-2 subtable was found; without one the first write to
    [ucs4cmap.cmap] fails with an AttributeError in fontTools. *)
Definition fix_pua (font : TTFont) : outcome TTFont (option bool) :=
  let unencoded_glyphs := get_unencoded_glyphs font in
  match unencoded_glyphs with
  | [] => Returns font None
  | _ :: _ =>
      let tables := cmap_tables font in
      let ucs2cmap := find_ucs2cmap tables in
      let remap tables :=
        update_cmap 3 10 (map_to_pua unencoded_glyphs 0 (glyphOrder font)) tables in
      match getcmap tables 3 10 with
      | Some _ => Returns (with_cmap_tables (remap tables) font) (Some true)
      | None =>
          match ucs2cmap with
          | Some u =>
              let ucs4cmap := mkCmapSubtable 12 3 10 0 (cs_cmap u) in
              Returns (with_cmap_tables (remap (tables ++ [ucs4cmap])) font) (Some true)
          | None =>
              let ucs4cmap := mkCmapSubtable 12 3 10 0 ∅ in
              Raises (with_cmap_tables (tables ++ [ucs4cmap]) font) AttributeError
          end
      end
  end.

(** ** Fixed pitch *)

(** [[chr(c) for c in range(65, 91)]]. *)
Definition uppercase : list string :=
  (λ c, String (ascii_of_nat c) "") <$> seq 65 26.

(** fontTools [otRound]: [int(math.floor(v + 0.5))]. *)
Definition otRound (v : Q) : Z := Qfloor (v + (1 # 2))%Q.

(** [[m[0] for m in metrics.values() if m[0] > 0]]. *)
Definition positive_widths (m : gmap string (Z * Z)) : list Z :=
  filter (λ w, 0 < w) ((map_to_list m).*2.*1).

Definition sum_list (l : list Z) : Z := foldr Z.add 0 l.

(** [max(l)] of a list; [ValueError] on the empty list. *)
Definition max_list_Z (l : list Z) : option Z :=
  match l with
  | [] => None
  | w :: ws => Some (foldr Z.max w ws)
  end.

(** [sum(widths) / len(widths)], a true division; exact here, where Python
    rounds to a float.  For advance widths, which a font stores in 16 bits,
    the rounding never changes [otRound] of the quotient. *)
Definition mean (l : list Z) : Q :=
  (inject_Z (sum_list l) / inject_Z (Z.of_nat (length l)))%Q.

Definition set_OS2_panose (p : Panose) (f : TTFont) : TTFont :=
  with_os2 (set_panose p (os2 f)) f.

(** [fix_isFixedPitch]: returns the pair [(changed, messages)].  The branch
    that should update [hhea.advanceWidthMax] names a list [messsages] that
    is bound nowhere, so it raises a NameError before the assignment. *)
Definition fix_isFixedPitch (ttfont : TTFont) : outcome TTFont (bool * list string) :=
  let glyph_metrics := metrics ttfont in
  match mapM (λ character, fst <$> glyph_metrics !! character) uppercase with
  | None => Raises ttfont KeyError
  | Some sampled =>
    let same_width : gset Z := list_to_set sampled in
    if decide (size same_width = 1%nat) then
      let '(ttfont, changed, messages) :=
        if isFixedPitch (post ttfont) =? 1
        then (ttfont, false, ["Skipping isFixedPitch is set correctly"])
        else (with_post (set_isFixedPitch 1 (post ttfont)) ttfont, true,
              ["Font is monospace. Updating isFixedPitch to 0"]) in
      let familyType := bFamilyType (panose (os2 ttfont)) in
      let '(ttfont, changed, messages, expected) :=
        if familyType =? 2 then (ttfont, changed, messages, Some 9)
        else if (familyType =? 3) || (familyType =? 5) then (ttfont, changed, messages, Some 3)
        else if familyType =? 0 then
          (set_OS2_panose (mkPanose 2 9) ttfont, true,
           messages ++ ["Font is monospace but panose fields seems to be not set. Setting values to defaults (FamilyType = 2, Proportion = 9)."],
           None)
        else (ttfont, changed, messages, None) in
      let '(ttfont, changed, messages) :=
        match expected with
        | Some expected =>
            if bProportion (panose (os2 ttfont)) =? expected
            then (ttfont, changed,
                  messages ++ ["Skipping OS/2.panose.bProportion is set correctly"])
            else (set_OS2_panose (set_bProportion expected (panose (os2 ttfont))) ttfont,
                  true,
                  messages ++ ["Font is monospace. Since OS/2.panose.bFamilyType is "
                               +:+ pretty familyType
                               +:+ " we're updating OS/2.panose.bProportion to "
                               +:+ pretty expected])
        | None => (ttfont, changed, messages)
        end in
      let widths := positive_widths (metrics ttfont) in
      match max_list_Z widths with
      | None => Raises ttfont ValueError
      | Some width_max =>
          if advanceWidthMax (hhea ttfont) =? width_max then
            let messages :=
              messages ++ ["Skipping hhea.advanceWidthMax is set correctly"] in
            let avg_width := otRound (mean widths) in
            if avg_width =? xAvgCharWidth (os2 ttfont)
            then Returns ttfont
                   (changed, messages ++ ["Skipping OS/2.xAvgCharWidth is set correctly"])
            else Returns (with_os2 (set_xAvgCharWidth avg_width (os2 ttfont)) ttfont)
                   (true, messages ++ ["Font is monospace. Updating OS/2.xAvgCharWidth to "
                                       +:+ pretty avg_width])
          else Raises ttfont NameError
      end
    else
      let changed :=
        negb (isFixedPitch (post ttfont) =? 0)
        || negb (bProportion (panose (os2 ttfont)) =? 0) in
      let ttfont := with_post (set_isFixedPitch 0 (post ttfont)) ttfont in
      let ttfont := set_OS2_panose (set_bProportion 0 (panose (os2 ttfont))) ttfont in
      Returns ttfont (changed, [])
  end.

(** ** Name-record pruning *)

#[global] Instance NameRecord_eq_dec : EqDecision NameRecord.
Proof. solve_decision. Defined.

Definition name_matches (nameID platformID platEncID : Z) (langID : option Z)
    (r : NameRecord) : bool :=
  (nr_nameID r =? nameID) && (nr_platformID r =? platformID)
  && (nr_platEncID r =? platEncID)
  && match langID with
     | None => true
     | Some l => nr_langID r =? l
     end.

(** fontTools [name.getName(nameID, platformID, platEncID, langID=None)]: the
    first record with these ids, or [None]. *)
Definition getName (names : list NameRecord) (nameID platformID platEncID : Z)
    (langID : option Z) : option NameRecord :=
  List.find (name_matches nameID platformID platEncID langID) names.

(** The body of the loops over [range(255)]: look the Macintosh record of
    [n] up and remove it from the list. *)
Definition drop_name (n : Z) (st : list NameRecord * bool) : list NameRecord * bool :=
  match getName st.1 n 1 0 (Some 0) with
  | Some name => (list_remove_first name st.1, true)
  | None => st
  end.

Definition keep_ids : list Z := [1; 2; 3; 4; 5; 6; 16; 17; 18; 20; 21; 22; 25].

(** [drop_superfluous_mac_names]. *)
Definition drop_superfluous_mac_names (ttfont : TTFont) : outcome TTFont bool :=
  let st :=
    foldl (λ st n, if decide (n ∈ keep_ids) then st else drop_name n st)
          (names ttfont, false) (seqZ 0 255) in
  Returns (with_names st.1 ttfont) st.2.

(** [drop_mac_names]. *)
Definition drop_mac_names (ttfont : TTFont) : outcome TTFont bool :=
  let st := foldl (λ st n, drop_name n st) (names ttfont, false) (seqZ 0 255) in
  Returns (with_names st.1 ttfont) st.2.

(** ** COLR repair *)

(** [any(glyf_table[g].numberOfContours == 0 for g in glyph_names)]; [None]
    is the KeyError of a name that the glyf table lacks. *)
Fixpoint any_empty_glyph (glyf_table : gmap string Z) (glyph_names : list string)
  : option bool :=
  match glyph_names with
  | [] => Some false
  | g :: rest =>
      match glyf_table !! g with
      | None => None
      | Some n => if n =? 0 then Some true else any_empty_glyph glyf_table rest
      end
  end.

(** [next((g for g in glyph_order if glyf_table[g].numberOfContours == 0), None)]. *)
Fixpoint first_empty_glyph (glyf_table : gmap string Z) (glyph_order : list string)
  : result (option string) :=
  match glyph_order with
  | [] => Ok None
  | g :: rest =>
      match glyf_table !! g with
      | None => Error KeyError
      | Some n => if n =? 0 then Ok (Some g) else first_empty_glyph glyf_table rest
      end
  end.

Definition NO_VARIATION_INDEX : Z := 4294967295.

Section COLR.

(** The tools of nanoemoji and the rasterizer, which are not part of the
    repository: [load_fully] returns a fully loaded copy of a font,
    [reorder_glyphs] renumbers the glyphs of a font, and [maximum_color]
    stands for the subprocess and the reading of the file it wrote. *)
Variable load_fully : TTFont → TTFont.
Variable reorder_glyphs : TTFont → list string → TTFont.
Variable maximum_color : TTFont → result TTFont.

Definition _swap_empty_glyph_to_gid1 (ttfont : TTFont) : result TTFont :=
  let glyf_table := glyphs ttfont in
  let ttfont := load_fully ttfont in
  let glyph_order := glyphOrder ttfont in
  match first_empty_glyph glyf_table glyph_order with
  | Error e => Error e
  | Ok None => Error ValueError
  | Ok (Some empty_glyph) =>
      let new_order := list_remove_first empty_glyph glyph_order in
      let new_order := list_insert_at 1 empty_glyph new_order in
      Ok (reorder_glyphs ttfont new_order)
  end.

Definition set_mapping (name : string) (m : option (gmap string Z))
  : option (gmap string Z) :=
  (λ mapping, <[name := NO_VARIATION_INDEX]> mapping) <$> m.

Definition _add_empty_glyph_to_gid1 (ttfont : TTFont) : result TTFont :=
  let ttfont := load_fully ttfont in
  let glyph_order := glyphOrder ttfont in
  let empty_name :=
    if decide (".null" ∉ glyph_order) then ".null" else "emptyglyph" in
  if decide (empty_name ∈ glyph_order) then Error AssertionError
  else
    let ttfont := with_glyphs (<[empty_name := 0]> (glyphs ttfont)) ttfont in
    let ttfont := with_metrics (<[empty_name := (0, 0)]> (metrics ttfont)) ttfont in
    let ttfont :=
      if has_table "HVAR" ttfont then
        with_hvar (mkHVAR (set_mapping empty_name (AdvWidthMap (hvar ttfont)))
                          (set_mapping empty_name (LsbMap (hvar ttfont)))
                          (set_mapping empty_name (RsbMap (hvar ttfont)))) ttfont
      else ttfont in
    let new_order := list_insert_at 1 empty_name glyph_order in
    Ok (with_glyphOrder new_order ttfont).

Definition fix_colr_v0_gid1 (ttfont : TTFont) : result TTFont :=
  if negb (has_table "COLR" ttfont && (COLR_version ttfont =? 0))
  then Error AssertionError
  else if numGlyphs ttfont <? 2 then Ok ttfont
  else
    let glyph_names := glyphOrder ttfont in
    let glyf_table := glyphs ttfont in
    match glyph_names !! 1%nat with
    | None => Error IndexError
    | Some second_glyph =>
        match glyf_table !! second_glyph with
        | None => Error KeyError
        | Some n =>
            if n =? 0 then Ok ttfont
            else
              match any_empty_glyph glyf_table glyph_names with
              | None => Error KeyError
              | Some true => _swap_empty_glyph_to_gid1 ttfont
              | Some false => _add_empty_glyph_to_gid1 ttfont
              end
        end
    end.

Definition fix_colr_v1_add_svg (ttfont : TTFont) : result TTFont :=
  if has_table "SVG " ttfont then Ok ttfont
  else
    match maximum_color ttfont with
    | Error e => Error e
    | Ok fixed_ttfont =>
        if has_table "SVG " fixed_ttfont then Ok fixed_ttfont
        else Error AssertionError
    end.

(** [fix_colr_font]. *)
Definition fix_colr_font (ttfont : TTFont) : result TTFont :=
  if negb (has_table "COLR" ttfont) then Error AssertionError
  else
    let colr_version := COLR_version ttfont in
    if colr_version =? 0 then fix_colr_v0_gid1 ttfont
    else if colr_version =? 1 then fix_colr_v1_add_svg ttfont
    else Error NotImplementedError.

End COLR.

(** ** Vertical metrics of a family *)

(** The fonts of a family are objects that the rule mutates in place, and the
    source font is one of them: fonts live in a store, and a family is the
    list of their addresses. *)
Definition loc : Type := nat.
Definition store : Type := loc → TTFont.

Definition store_set (l : loc) (f : TTFont) (σ : store) : store :=
  λ l', if decide (l' = l) then f else σ l'.

(** An assignment to an attribute of the font at [l]. *)
Definition modify (l : loc) (g : TTFont → TTFont) (σ : store) : store :=
  store_set l (g (σ l)) σ.

(** The eight [(table, key)] pairs of [copy_vertical_metrics]. *)
Inductive VKey : Type :=
| OS2_usWinAscent
| OS2_usWinDescent
| OS2_sTypoAscender
| OS2_sTypoDescender
| OS2_sTypoLineGap
| hhea_ascent
| hhea_descent
| hhea_lineGap.

Definition vertical_metric_keys : list VKey :=
  [OS2_usWinAscent; OS2_usWinDescent; OS2_sTypoAscender; OS2_sTypoDescender;
   OS2_sTypoLineGap; hhea_ascent; hhea_descent; hhea_lineGap].

(** [getattr(font[table], key)]. *)
Definition getattr (k : VKey) (f : TTFont) : Z :=
  match k with
  | OS2_usWinAscent => usWinAscent (os2 f)
  | OS2_usWinDescent => usWinDescent (os2 f)
  | OS2_sTypoAscender => sTypoAscender (os2 f)
  | OS2_sTypoDescender => sTypoDescender (os2 f)
  | OS2_sTypoLineGap => sTypoLineGap (os2 f)
  | hhea_ascent => ascent (hhea f)
  | hhea_descent => descent (hhea f)
  | hhea_lineGap => lineGap (hhea f)
  end.

(** [setattr(font[table], key, val)]. *)
Definition setattr (k : VKey) (val : Z) (f : TTFont) : TTFont :=
  match k with
  | OS2_usWinAscent => with_os2 (set_usWinAscent val (os2 f)) f
  | OS2_usWinDescent => with_os2 (set_usWinDescent val (os2 f)) f
  | OS2_sTypoAscender => with_os2 (set_sTypoAscender val (os2 f)) f
  | OS2_sTypoDescender => with_os2 (set_sTypoDescender val (os2 f)) f
  | OS2_sTypoLineGap => with_os2 (set_sTypoLineGap val (os2 f)) f
  | hhea_ascent => with_hhea (set_ascent val (hhea f)) f
  | hhea_descent => with_hhea (set_descent val (hhea f)) f
  | hhea_lineGap => with_hhea (set_lineGap val (hhea f)) f
  end.

(** [copy_vertical_metrics(src_font, dst_font)]. *)
Definition copy_vertical_metrics (src_font dst_font : loc) (σ : store) : store :=
  foldl (λ σ key,
           let val := getattr key (σ src_font) in
           modify dst_font (setattr key val) σ)
        σ vertical_metric_keys.

(** Modelled from the spec: [family_bounding_box] of gftools.utils, which is
    not under src/: "the family bounding box (min/max glyph extents across
    every font in the family)", lowest extent first.  The glyph extents of a
    font are the [yMin] and [yMax] of its head table.  [None] is the error of
    a minimum over no font. *)
Definition family_bounding_box (fonts : list TTFont) : option (Z * Z) :=
  match fonts with
  | [] => None
  | f :: fs =>
      Some (foldr (λ g m, Z.min (yMin (head g)) m) (yMin (head f)) fs,
            foldr (λ g m, Z.max (yMax (head g)) m) (yMax (head f)) fs)
  end.

(** [font["OS/2"].fsSelection |= 1 << 7]. *)
Definition enable_typo_metrics (f : TTFont) : TTFont :=
  with_os2 (set_fsSelection (Z.lor (fsSelection (os2 f)) (Z.shiftl 1 7)) (os2 f)) f.

(** [next((f for f in ttFonts if font_stylename(f) == "Regular"), ttFonts[0])]
    once [ttFonts[0]] is known. *)
Definition source_font (ttFonts : list loc) (first : loc) (σ : store) : loc :=
  default first
    (List.find (λ f, bool_decide (font_stylename (σ f) = "Regular")) ttFonts).

(** [fix_vertical_metrics]. *)
Definition fix_vertical_metrics (ttFonts : list loc) (σ : store) : outcome store unit :=
  match ttFonts with
  | [] => Raises σ IndexError
  | first :: _ =>
      let src_font := source_font ttFonts first σ in
      let σ :=
        if negb (typo_metrics_enabled (σ src_font)) then
          let σ := modify src_font enable_typo_metrics σ in
          let σ := modify src_font
                     (λ f, setattr OS2_sTypoAscender (usWinAscent (os2 f)) f) σ in
          let σ := modify src_font
                     (λ f, setattr OS2_sTypoDescender (- usWinDescent (os2 f)) f) σ in
          modify src_font (setattr OS2_sTypoLineGap 0) σ
        else σ in
      let σ := modify src_font (λ f, setattr hhea_ascent (sTypoAscender (os2 f)) f) σ in
      let σ := modify src_font (λ f, setattr hhea_descent (sTypoDescender (os2 f)) f) σ in
      let σ := modify src_font (λ f, setattr hhea_lineGap (sTypoLineGap (os2 f)) f) σ in
      match family_bounding_box (σ <$> ttFonts) with
      | None => Raises σ ValueError
      | Some (win_desc, win_asc) =>
          let σ := modify src_font (setattr OS2_usWinAscent win_asc) σ in
          let σ := modify src_font (setattr OS2_usWinDescent (Z.abs win_desc)) σ in
          let σ :=
            foldl (λ σ ttFont,
                     let σ := modify ttFont enable_typo_metrics σ in
                     copy_vertical_metrics src_font ttFont σ)
                  σ ttFonts in
          Returns σ tt
      end
  end.

(** ** FontFixer *)

(** What a rule hands back to [FontFixer.fix]: [None], a bool, a pair
    [(changed, messages)], or another object with its truth value. *)
Inductive rule_value : Type :=
| RNone
| RBool (b : bool)
| RPair (changed : bool) (messages : list string)
| ROther (truth : bool).

(** [bool(rv)]; a pair is a tuple of two elements, which is true. *)
Definition truthy (rv : rule_value) : bool :=
  match rv with
  | RNone => false
  | RBool b => b
  | RPair _ _ => true
  | ROther t => t
  end.

Definition rule : Type := TTFont → outcome TTFont rule_value.

(** What a fixer does to the outside: a line on standard output, or a font
    saved to a path. *)
Inductive Event : Type :=
| Printed (text : string)
| Saved (font : TTFont) (path : string).

Module FontFixer.

Record t : Type := mk {
  font : TTFont;
  path : string;
  font_filename : string;
  saveit : bool;
  report : bool;
  verbose : bool;
  messages : list string;
  fixes : list rule
}.

(** [os.path.basename]: what follows the last slash. *)
Fixpoint basename_from (acc p : string) : string :=
  match p with
  | "" => acc
  | String c p' =>
      if decide (c = "/"%char) then basename_from "" p'
      else basename_from (acc +:+ String c "") p'
  end.
Definition basename (p : string) : string := basename_from "" p.

(** [__init__]; [loaded] is the font that [TTFont(path)] reads, and [kwfixes]
    the keyword argument [fixes] when it is given. *)
Definition __init__ (loaded : TTFont) (path : string) (report verbose : bool)
    (kwfixes : option (list rule)) : t :=
  mk loaded path (basename path) false report verbose [] (default [] kwfixes).

Definition set_font (f : TTFont) (self : t) : t :=
  mk f (path self) (font_filename self) (saveit self) (report self)
     (verbose self) (messages self) (fixes self).
Definition set_saveit (b : bool) (self : t) : t :=
  mk (font self) (path self) (font_filename self) b (report self)
     (verbose self) (messages self) (fixes self).
Definition set_messages (m : list string) (self : t) : t :=
  mk (font self) (path self) (font_filename self) (saveit self) (report self)
     (verbose self) m (fixes self).

(** The loop of [fix] over the rules still to apply. *)
Fixpoint fix_loop (todo : list rule) (self : t) : outcome t unit :=
  match todo with
  | [] => Returns self tt
  | f :: todo' =>
      match f (font self) with
      | Raises font' e => Raises (set_font font' self) e
      | Returns font' rv =>
          let self := set_font font' self in
          let '(changed, self) :=
            match rv with
            | RPair changed messages' =>
                (changed, set_messages (messages self ++ messages') self)
            | _ => (truthy rv, self)
            end in
          let self := if changed then set_saveit true self else self in
          fix_loop todo' self
      end
  end.

(** [fix]; the name is a keyword of the language here. *)
Definition fix_ (self : t) : outcome t unit := fix_loop (fixes self) self.

Definition newline : string := String (ascii_of_nat 10) "".

(** ["\n".join(messages)]. *)
Fixpoint join_lines (l : list string) : string :=
  match l with
  | [] => ""
  | [s] => s
  | s :: l' => s +:+ newline +:+ join_lines l'
  end.

(** [__del__]: what the teardown prints and saves, in order. *)
Definition __del__ (self : t) : list Event :=
  (if report self then [Printed (join_lines (messages self))] else [])
  ++ (if saveit self then
        (if verbose self
         then [Printed ("Saving " +:+ font_filename self +:+ " to "
                        +:+ path self +:+ ".fix")]
         else [])
        ++ [Saved (font self) (path self +:+ ".fix")]
      else if verbose self
      then [Printed ("There were no changes needed on " +:+ font_filename self +:+ "!")]
      else []).

End FontFixer.

(** ** Hinting flag *)

Definition set_head_flags (v : Z) (h : Head) : Head :=
  mkHead v (macStyle h) (yMin h) (yMax h).

(** [fix_hinted_font]: a pair [(False, messages)] for a font without an fpgm
    table, and a bool for a font with one. *)
Definition fix_hinted_font (ttFont : TTFont) : outcome TTFont rule_value :=
  if negb (has_table "fpgm" ttFont)
  then Returns ttFont (RPair false ["Skipping. Font is not hinted."])
  else
    let old := head_flags (head ttFont) in
    let ttFont :=
      with_head (set_head_flags (Z.lor (head_flags (head ttFont)) (Z.shiftl 1 3))
                                (head ttFont)) ttFont in
    Returns ttFont (RBool (negb (head_flags (head ttFont) =? old))).

(** ** cmap subtables in format 4 *)

(** The body of the loop of [convert_cmap_subtables_to_v4] for one subtable:
    the lists [outtables] and [converted] grow at their ends. *)
Definition convert_step (st : list CmapSubtable * list (Z * Z * Z)) (table : CmapSubtable)
  : list CmapSubtable * list (Z * Z * Z) :=
  let '(outtables, converted) := st in
  let converted :=
    if decide (cs_format table ≠ 4)
    then converted ++ [(cs_format table, cs_platformID table, cs_platEncID table)]
    else converted in
  let newtable :=
    mkCmapSubtable 4 (cs_platformID table) (cs_platEncID table) (cs_language table)
                   (cs_cmap table) in
  (outtables ++ [newtable], converted).

(** [convert_cmap_subtables_to_v4]: returns the list [converted]. *)
Definition convert_cmap_subtables_to_v4 (font : TTFont)
  : outcome TTFont (list (Z * Z * Z)) :=
  let '(outtables, converted) := foldl convert_step ([], []) (cmap_tables font) in
  Returns (with_cmap_tables outtables font) converted.

(** ** gasp and prep *)

(** The gasp and prep tables of a font, which the font record leaves out:
    the dict [gaspRange] and the assembly of the prep program.  They have a
    meaning when the tags "gasp" and "prep" are among the keys of the font. *)
Record HintTables : Type := mkHintTables {
  gaspRange : gmap Z Z;
  prep_program : list string
}.


(** ** GaspFixer *)

Module GaspFixer.

(** A [FontFixer] with the gasp and prep tables of its font; [printed]
    collects what the methods print. *)
Record t : Type := mk {
  base : FontFixer.t;
  tables : HintTables;
  printed : list string
}.

(** [fix(value=15)].  [self.font.get('gasp')] is [None] for a font without
    the table, so the assignment to [table.gaspRange] fails and the bare
    [except] takes over; it prints and then names [ttLib], which the module
    binds nowhere (it imports [TTFont], [newTable] and [getTableModule] from
    it), so a NameError leaves the handler. *)
Definition fix_ (self : t) (value : Z) : outcome t unit :=
  if has_table "gasp" (FontFixer.font (base self)) then
    Returns (mk (FontFixer.set_saveit true (base self))
                (mkHintTables (<[65535 := value]> (gaspRange (tables self)))
                              (prep_program (tables self)))
                (printed self)) tt
  else
    Raises (mk (base self) (tables self)
               (printed self
                ++ ["ER: " +:+ FontFixer.path (base self)
                    +:+ ": no table gasp... Creating new table. "]))
           NameError.

(** [show].  [self.font.get('gasp')] raises nothing, so the first handler is
    never entered; without the table the attribute of [None] is an
    AttributeError and without the key the lookup in the dict is a KeyError,
    and the second handler catches neither: it waits for an IndexError. *)
Definition show (self : t) : outcome t unit :=
  if has_table "gasp" (FontFixer.font (base self)) then
    match gaspRange (tables self) !! 65535 with
    | Some value =>
        Returns (mk (base self) (tables self) (printed self ++ [pretty value])) tt
    | None => Raises self KeyError
    end
  else Raises self AttributeError.

End GaspFixer.

(** ** Vertical metrics inherited from the hosted family *)

Section Inherit.

(** [font_familyname] of gftools.utils and the download of the family that
    Google Fonts hosts, neither of them under src/.  The fonts that [TTFont]
    opens from the downloaded files are objects of their own:
    [download_family_from_Google_Fonts] stands for the download and the
    opening, and gives the addresses of these fonts in the store. *)
Variable font_familyname : TTFont → string.
Variable download_family_from_Google_Fonts : string → list loc.

(** [{font_stylename(f): f for f in fonts}]: a later font takes the place of
    an earlier one with the same style name, at the place of the earlier
    one. *)
Definition by_stylename (fonts : list loc) (σ : store) : dict loc :=
  foldl (λ d f, dict_set (font_stylename (σ f)) f d) [] fonts.

(** The body of the loop over [fonts.items()]. *)
Definition inherit_step (gf_fonts : dict loc) (gf_fallback : loc) (σ : store)
    (item : string * loc) : store :=
  let '(style, font) := item in
  let src_font :=
    match dict_get style gf_fonts with
    | Some f => f
    | None => gf_fallback
    end in
  let σ := copy_vertical_metrics src_font font σ in
  if typo_metrics_enabled (σ src_font) then modify font enable_typo_metrics σ else σ.

(** [inherit_vertical_metrics(ttFonts, family_name=None)]; an empty family
    name counts as none. *)
Definition inherit_vertical_metrics (ttFonts : list loc) (family_name : option string)
    (σ : store) : outcome store unit :=
  let first_name :=
    match ttFonts with
    | [] => Error IndexError
    | first :: _ => Ok (font_familyname (σ first))
    end in
  let family_name :=
    match family_name with
    | Some name => if decide (name = "") then first_name else Ok name
    | None => first_name
    end in
  match family_name with
  | Error e => Raises σ e
  | Ok family_name =>
      let gf_fonts := by_stylename (download_family_from_Google_Fonts family_name) σ in
      match gf_fonts with
      | [] => Raises σ IndexError
      | (_, gf_fallback) :: _ =>
          let fonts := by_stylename ttFonts σ in
          Returns (foldl (inherit_step gf_fonts gf_fallback) σ fonts) tt
      end
  end.

End Inherit.

(** * Properties *)

(** ** Records *)

Lemma with_keys_same (f : TTFont) : with_keys (keys f) f = f.
Proof. by destruct f. Qed.

Lemma with_keys_twice (k1 k2 : gset string) (f : TTFont) :
  with_keys k1 (with_keys k2 f) = with_keys k1 f.
Proof. done. Qed.

(** ** Table pruning *)

Lemma del_tables_foldr (l : list string) (f : TTFont) :
  foldr del_table f l = with_keys (keys f ∖ list_to_set l) f.
Proof.
  induction l as [|tag l IH]; simpl.
  - rewrite difference_empty_L. symmetry. apply with_keys_same.
  - rewrite IH. unfold del_table. simpl. rewrite with_keys_twice.
    f_equal. set_solver.
Qed.

Lemma remove_tables_font (ttFont : TTFont) (tables : option (list string)) :
  (remove_tables ttFont tables).1
  = with_keys (keys ttFont
               ∖ (UNWANTED_TABLES ∩ keys ttFont ∩ requested_tables tables)) ttFont.
Proof.
  unfold remove_tables.
  set (R := requested_tables tables).
  destruct (decide (UNWANTED_TABLES ∩ keys ttFont ∩ R = ∅)) as [He|Hne]; simpl.
  - rewrite He, difference_empty_L. symmetry. apply with_keys_same.
  - rewrite del_tables_foldr. f_equal.
    apply set_eq. intros x. rewrite !elem_of_difference, elem_of_list_to_set, elem_of_elements.
    done.
Qed.


(** ** Selection flags *)

Lemma testbit_shiftl_1 (n i : Z) :
  0 ≤ n → Z.testbit (Z.shiftl 1 n) i = (n =? i).
Proof. intros Hn. rewrite Z.shiftl_1_l. by apply Z.pow2_bits_eqb. Qed.


(** Removes the constants [true] and [false] from boolean expressions. *)
Ltac simpl_bool :=
  repeat first [ rewrite andb_false_r | rewrite andb_true_r | rewrite andb_false_l
               | rewrite andb_true_l | rewrite orb_false_r | rewrite orb_false_l ].

(** The value that [fix_fs_selection] stores, bit by bit. *)
Lemma fix_fs_selection_testbit (ttFont : TTFont) (i : Z) :
  let tokens : gset string := list_to_set (split (font_stylename ttFont)) in
  Z.testbit (fsSelection (os2 (state_after (fix_fs_selection ttFont)))) i
  = (Z.testbit (fsSelection (os2 ttFont)) i && (7 =? i))
    || (bool_decide ("Italic" ∈ tokens) && (0 =? i))
    || (bool_decide ("Bold" ∈ tokens) && (5 =? i))
    || (bool_decide (("Bold" ∉ tokens) ∧ ("Italic" ∉ tokens)) && (6 =? i)).
Proof.
  intros tokens. unfold fix_fs_selection. cbv zeta. fold tokens.
  cbn [state_after with_os2 os2 set_fsSelection fsSelection].
  assert (Hreg : tokens ∩ list_to_set ["Bold"; "Italic"] = ∅
                 ↔ ("Bold" ∉ tokens) ∧ ("Italic" ∉ tokens)) by set_solver.
  repeat case_bool_decide; repeat case_decide; try tauto;
    rewrite ?Z.lor_spec, ?Z.land_spec, ?testbit_shiftl_1 by lia;
    rewrite ?andb_true_l, ?andb_false_l, ?orb_false_r; done.
Qed.


(** ** Weight class *)

(** The axis whose default value [default_axis_values] keeps for a tag: the
    last axis of the table with this tag. *)
Definition axis_of_tag (tag : string) (axes : list Axis) : option Axis :=
  last (filter (λ a, axisTag a = tag) axes).

Lemma default_axis_values_lookup (axes : list Axis) (tag : string) :
  default_axis_values axes !! tag = defaultValue <$> axis_of_tag tag axes.
Proof.
  unfold default_axis_values, axis_of_tag.
  induction axes as [|a axes IH] using rev_ind; [done|].
  rewrite foldl_app, filter_app. simpl. rewrite lookup_insert.
  destruct (decide (axisTag a = tag)) as [Heq|Hne].
  - rewrite filter_cons_True, filter_nil by done. by rewrite last_snoc.
  - rewrite filter_cons_False, filter_nil, app_nil_r by done. apply IH.
Qed.

Lemma axis_of_tag_Some (tag : string) (axes : list Axis) :
  (∃ a, a ∈ axes ∧ axisTag a = tag) ↔ is_Some (axis_of_tag tag axes).
Proof.
  unfold axis_of_tag. rewrite last_is_Some. split.
  - intros (a & Ha & Ht) Hnil.
    assert (a ∈ filter (λ a, axisTag a = tag) axes) as Hin
      by (apply list_elem_of_filter; done).
    rewrite Hnil in Hin. by apply not_elem_of_nil in Hin.
  - intros Hne. destruct (filter (λ a, axisTag a = tag) axes) as [|a l] eqn:Hf; [done|].
    assert (a ∈ filter (λ a, axisTag a = tag) axes) as Hin by (rewrite Hf; left).
    apply list_elem_of_filter in Hin. exists a. tauto.
Qed.








Lemma find_none_iff {A} (p : A → bool) (l : list A) :
  List.find p l = None ↔ ∀ x, x ∈ l → p x = false.
Proof.
  induction l as [|a l IH]; simpl.
  - split; [|done]. intros _ x Hx. by apply not_elem_of_nil in Hx.
  - destruct (p a) eqn:Hpa.
    + split; [done|]. intros H. specialize (H a (list_elem_of_here _ _)). congruence.
    + rewrite IH. split.
      * intros H x Hx. apply elem_of_cons in Hx as [->|Hx]; auto.
      * intros H x Hx. apply H. by right.
Qed.

(** The font has an fvar table with a 'wght' axis. *)
Definition has_wght_axis (ttFont : TTFont) : Prop :=
  "fvar" ∈ keys ttFont ∧ ∃ a, a ∈ fvar_axes ttFont ∧ axisTag a = "wght".

Section WeightClass.

Variable KNOWN_WEIGHTS : dict Z.

Lemma fix_weight_class_fvar (ttFont : TTFont) (a : Axis) :
  "fvar" ∈ keys ttFont → axis_of_tag "wght" (fvar_axes ttFont) = Some a →
  fix_weight_class KNOWN_WEIGHTS ttFont
  = assign_weight_class ttFont (py_int (defaultValue a)).
Proof.
  intros Hk Ha. unfold fix_weight_class, has_table.
  rewrite bool_decide_eq_true_2 by done.
  by rewrite default_axis_values_lookup, Ha.
Qed.




End WeightClass.



(** Fixtures: a weight table with the names of the spec's StyleToken on the
    scale 100 to 900 and the empty name that the module deletes, and a static
    font with the tables every font has. *)
Definition example_weights : dict Z :=
  [("", 400); ("Thin", 100); ("ExtraLight", 200); ("Light", 300);
   ("Regular", 400); ("Medium", 500); ("SemiBold", 600); ("Bold", 700);
   ("ExtraBold", 800); ("Black", 900)].

Definition example_font : TTFont :=
  mkTTFont (list_to_set ["OS/2"; "head"; "hhea"; "post"; "name"; "hmtx"; "cmap";
                         "maxp"; "glyf"])
           (mkOS2 4 8 400 0 900 300 0 0 0 500 (mkPanose 0 0))
           (mkHead 0 0 (-250) 950)
           (mkHhea 0 0 0 0)
           (mkPost 0 0)
           [] ∅ [] [] 0 0 ∅ [] (mkHVAR None None None) "Regular".






(** A variable font whose weight axis has the default 550, and a style name
    that holds no weight name. *)
Definition example_variable_font : TTFont :=
  mkTTFont (keys example_font ∪ {["fvar"]}) (os2 example_font) (head example_font)
           (hhea example_font) (post example_font) [] ∅ []
           [mkAxis "wdth" 100; mkAxis "wght" 550] 0 0 ∅ [] (mkHVAR None None None)
           "Display".

(** C9: on a font with an fvar table that has a 'wght' axis,
    [fix_weight_class] stores one weight whatever the style name is and
    returns: it raises no exception, so the error of a style name without a
    weight name cannot occur. *)
Theorem fix_weight_class_fvar_never_raises (KNOWN_WEIGHTS : dict Z) (ttFont : TTFont) :
  has_wght_axis ttFont →
  ∃ w, ∀ stylename,
    let font := with_stylename stylename ttFont in
    fix_weight_class KNOWN_WEIGHTS font = assign_weight_class font w
    ∧ ∀ font' e, fix_weight_class KNOWN_WEIGHTS font ≠ Raises font' e.
Proof.
  intros [Hk Hax]. apply axis_of_tag_Some in Hax as [a Ha].
  exists (py_int (defaultValue a)). intros stylename font.
  assert (Hres : fix_weight_class KNOWN_WEIGHTS font
                 = assign_weight_class font (py_int (defaultValue a)))
    by (by apply fix_weight_class_fvar).
  split; [exact Hres|]. intros font' e. by rewrite Hres.
Qed.

Lemma fix_weight_class_fvar_never_raises_witness :
  has_wght_axis example_variable_font
  ∧ ∃ w, ∀ stylename,
      let font := with_stylename stylename example_variable_font in
      fix_weight_class example_weights font = assign_weight_class font w
      ∧ ∀ font' e, fix_weight_class example_weights font ≠ Raises font' e.
Proof.
  assert (H : has_wght_axis example_variable_font).
  { split; [set_solver|]. exists (mkAxis "wght" 550). split; [|done].
    right. left. }
  split; [exact H|].
  exact (fix_weight_class_fvar_never_raises example_weights example_variable_font H).
Defined.

Example fix_weight_class_variable_550 :
  fix_weight_class example_weights example_variable_font
  = Returns (with_os2 (set_usWeightClass 550 (os2 example_variable_font))
                      example_variable_font) true.
Proof. reflexivity. Qed.

Example fix_weight_class_unclassifiable :
  fix_weight_class example_weights (with_stylename "Display" example_font)
  = Raises (with_stylename "Display" example_font) ValueError.
Proof. reflexivity. Qed.

(** ** Name-record pruning *)

(** [l] without its first element that passes the test [p]. *)
Fixpoint remove_where {A} (p : A → bool) (l : list A) : list A :=
  match l with
  | [] => []
  | y :: l' => if p y then l' else y :: remove_where p l'
  end.

Lemma find_Some_true {A} (p : A → bool) (l : list A) (x : A) :
  List.find p l = Some x → p x = true.
Proof.
  induction l as [|y l IH]; simpl; [done|].
  destruct (p y) eqn:Hy; [by intros [= <-]|done].
Qed.

Lemma remove_found `{EqDecision A} (p : A → bool) (l : list A) (x : A) :
  List.find p l = Some x → list_remove_first x l = remove_where p l.
Proof.
  induction l as [|y l IH]; simpl; [done|].
  destruct (p y) eqn:Hy.
  - intros [= <-]. by rewrite decide_True.
  - intros Hf. rewrite decide_False; [by rewrite IH|].
    intros ->. apply find_Some_true in Hf. congruence.
Qed.

Lemma remove_where_none {A} (p : A → bool) (l : list A) :
  List.find p l = None → remove_where p l = l.
Proof.
  induction l as [|y l IH]; simpl; [done|].
  destruct (p y); [done|]. intros Hf. by rewrite IH.
Qed.

Lemma remove_where_length {A} (p : A → bool) (l : list A) (x : A) :
  List.find p l = Some x → length l = S (length (remove_where p l)).
Proof.
  induction l as [|y l IH]; simpl; [done|].
  destruct (p y); [done|]. intros Hf. simpl. by rewrite <- IH.
Qed.

Lemma remove_where_sublist {A} (p : A → bool) (l : list A) :
  sublist (remove_where p l) l.
Proof.
  induction l as [|y l IH]; simpl; [done|].
  destruct (p y); [by apply sublist_cons|by apply sublist_skip].
Qed.

(** Removing an element that passes [p] leaves the elements untouched that
    pass a test [Q] which excludes [p]. *)
Lemma remove_where_filter_other {A} (p : A → bool) (Q : A → Prop)
    `{∀ x, Decision (Q x)} (l : list A) :
  (∀ x, Q x → p x = false) → filter Q (remove_where p l) = filter Q l.
Proof.
  intros Hdisj. induction l as [|y l IH]; simpl; [done|].
  destruct (p y) eqn:Hy.
  - rewrite filter_cons_False; [done|]. intros HQ. apply Hdisj in HQ. congruence.
  - rewrite !filter_cons. by rewrite IH.
Qed.

Lemma remove_where_filter_length {A} (p : A → bool) (Q : A → Prop)
    `{∀ x, Decision (Q x)} (l : list A) :
  (length (filter Q l) ≤ S (length (filter Q (remove_where p l))))%nat.
Proof.
  induction l as [|y l IH]; simpl; [lia|].
  destruct (p y).
  - rewrite filter_cons. case_decide; simpl; lia.
  - rewrite !filter_cons. case_decide; simpl; lia.
Qed.

(** The Macintosh record that [getName(n, 1, 0, 0)] looks for. *)
Definition is_mac_name (n : Z) (r : NameRecord) : bool :=
  name_matches n 1 0 (Some 0) r.

Lemma is_mac_name_spec (n : Z) (r : NameRecord) :
  is_mac_name n r = true
  ↔ nr_nameID r = n ∧ nr_platformID r = 1 ∧ nr_platEncID r = 0 ∧ nr_langID r = 0.
Proof.
  unfold is_mac_name, name_matches. rewrite !andb_true_iff, !Z.eqb_eq. tauto.
Qed.

Lemma drop_name_eq (n : Z) (l : list NameRecord) (c : bool) :
  drop_name n (l, c)
  = (remove_where (is_mac_name n) l,
     c || bool_decide (is_Some (List.find (is_mac_name n) l))).
Proof.
  unfold drop_name, getName. simpl.
  change (name_matches n 1 0 (Some 0)) with (is_mac_name n).
  destruct (List.find (is_mac_name n) l) as [x|] eqn:Hf; simpl.
  - rewrite (remove_found _ _ _ Hf). by rewrite orb_true_r.
  - rewrite remove_where_none by done. by rewrite orb_false_r.
Qed.

Lemma is_mac_name_other (m n : Z) (r : NameRecord) :
  m ≠ n → is_mac_name m r = true → is_mac_name n r = false.
Proof.
  intros Hne Hm. apply is_mac_name_spec in Hm as (Hid & _).
  apply not_true_is_false. intros Hn. apply is_mac_name_spec in Hn as (Hid' & _).
  congruence.
Qed.

(** The loop body over a list of name ids. *)
Definition drop_names (ns : list Z) (st : list NameRecord * bool)
  : list NameRecord * bool :=
  foldl (λ st n, drop_name n st) st ns.

(** What a pass over distinct name ids does to the list of records and to
    the flag. *)
Lemma drop_names_spec (ns : list Z) :
  NoDup ns → ∀ (l : list NameRecord) (c : bool),
  let st' := drop_names ns (l, c) in
  sublist st'.1 l
  ∧ (∀ (Q : NameRecord → Prop) (HQ : ∀ x, Decision (Q x)),
       (∀ r n, n ∈ ns → Q r → is_mac_name n r = false) →
       filter Q st'.1 = filter Q l)
  ∧ (∀ n, (length (filter (λ r, is_mac_name n r = true) l)
           ≤ S (length (filter (λ r, is_mac_name n r = true) st'.1)))%nat)
  ∧ (st'.2 = true ↔ c = true ∨ (length st'.1 < length l)%nat)
  ∧ (length st'.1 ≤ length l)%nat.
Proof.
  induction 1 as [|n ns Hnotin Hnd IH]; intros l c.
  - simpl. split; [done|]. split; [done|]. split; [intros; lia|].
    split; [|lia]. split; [tauto|]. intros [H|H]; [done|lia].
  - cbv zeta.
    set (l1 := remove_where (is_mac_name n) l).
    set (c1 := c || bool_decide (is_Some (List.find (is_mac_name n) l))).
    assert (Heq : drop_names (n :: ns) (l, c) = drop_names ns (l1, c1))
      by (unfold drop_names; simpl; by rewrite drop_name_eq).
    rewrite Heq. clear Heq.
    destruct (IH l1 c1) as (Hsub & Hfil & Hcnt & Hch & Hlen).
    assert (Hlen1 : (length l1 ≤ length l)%nat)
      by (apply sublist_length, remove_where_sublist).
    split. { etrans; [exact Hsub|]. apply remove_where_sublist. }
    split.
    { intros Q HQ Hdisj. rewrite Hfil.
      - apply remove_where_filter_other. intros r Hr. apply (Hdisj r n); [left|done].
      - intros r n' Hn' Hr. apply (Hdisj r n'); [by right|done]. }
    split.
    { intros m. destruct (decide (m = n)) as [->|Hne].
      - rewrite Hfil.
        + apply remove_where_filter_length.
        + intros r n' Hn' Hr. apply (is_mac_name_other n n'); [|done].
          intros <-. done.
      - etrans; [|apply Hcnt]. unfold l1.
        rewrite remove_where_filter_other; [done|].
        intros r Hr. by apply (is_mac_name_other m n). }
    split; [|lia].
    assert (Hc1 : c1 = true ↔ c = true ∨ (length l1 < length l)%nat).
    { unfold c1, l1. destruct (List.find (is_mac_name n) l) as [x|] eqn:Hfind.
      - apply remove_where_length in Hfind.
        rewrite bool_decide_eq_true_2 by (by eexists). rewrite orb_true_r.
        split; intros _; [right; lia|done].
      - rewrite remove_where_none by done.
        rewrite bool_decide_eq_false_2 by (by intros [? ?]). rewrite orb_false_r.
        split; [tauto|]. intros [?|?]; [done|lia]. }
    rewrite Hch, Hc1. clear -Hlen Hlen1. intuition lia.
Qed.

(** Both rules run the loop body over distinct ids below 255. *)
Lemma drop_mac_names_eq (ttfont : TTFont) :
  drop_mac_names ttfont
  = let st := drop_names (seqZ 0 255) (names ttfont, false) in
    Returns (with_names st.1 ttfont) st.2.
Proof. unfold drop_mac_names, drop_names. reflexivity. Qed.

Lemma drop_superfluous_mac_names_eq (ttfont : TTFont) :
  drop_superfluous_mac_names ttfont
  = let st := drop_names (filter (λ n, n ∉ keep_ids) (seqZ 0 255)) (names ttfont, false) in
    Returns (with_names st.1 ttfont) st.2.
Proof.
  unfold drop_superfluous_mac_names, drop_names. cbv zeta.
  generalize (names ttfont, false). generalize (seqZ 0 255).
  intros ns. induction ns as [|n ns IH]; intros st; simpl; [done|].
  rewrite filter_cons. destruct (decide (n ∈ keep_ids)) as [Hin|Hnin].
  - rewrite decide_False by tauto. apply IH.
  - rewrite decide_True by done. simpl. apply IH.
Qed.

Lemma sublist_same_length {A} (l1 l2 : list A) :
  sublist l1 l2 → length l1 = length l2 → l1 = l2.
Proof.
  induction 1 as [|x l1 l2 Hs IH|x l1 l2 Hs IH]; simpl; intros Hlen.
  - done.
  - f_equal. apply IH. lia.
  - apply sublist_length in Hs. lia.
Qed.

Lemma filter_never {A} (P : A → Prop) `{∀ x, Decision (P x)} (l : list A) :
  (∀ x, ¬ P x) → filter P l = [].
Proof.
  intros Hno. induction l as [|x l IH]; [done|].
  by rewrite filter_cons_False.
Qed.

(** A record that the loops can find: a Macintosh record with encoding 0,
    language 0 and a name id from 0 to 254. *)
Definition examined (r : NameRecord) : Prop :=
  nr_platformID r = 1 ∧ nr_platEncID r = 0 ∧ nr_langID r = 0
  ∧ 0 ≤ nr_nameID r < 255.

#[global] Instance examined_dec (r : NameRecord) : Decision (examined r).
Proof. unfold examined. apply _. Defined.

(** What a pass over the ids [ns] keeps and removes; [Q] is a test that no
    record found for an id of [ns] passes. *)
Lemma drop_names_frame (ns : list Z) (Q : NameRecord → Prop)
    `{∀ x, Decision (Q x)} (l : list NameRecord) :
  NoDup ns → (∀ n, n ∈ ns → 0 ≤ n < 255) →
  (∀ r n, n ∈ ns → Q r → is_mac_name n r = false) →
  let st := drop_names ns (l, false) in
  sublist st.1 l
  ∧ filter Q st.1 = filter Q l
  ∧ (∀ n, (length (filter (λ r, examined r ∧ nr_nameID r = n) l)
           ≤ S (length (filter (λ r, examined r ∧ nr_nameID r = n) st.1)))%nat)
  ∧ (st.2 = true ↔ st.1 ≠ l).
Proof.
  intros Hnd Hrange HQ st.
  destruct (drop_names_spec ns Hnd l false) as (Hsub & Hfil & Hcnt & Hch & Hlen).
  fold st in Hsub, Hfil, Hcnt, Hch, Hlen.
  split; [done|]. split; [by apply Hfil|]. split.
  - intros n. destruct (decide (0 ≤ n < 255)) as [Hn|Hn].
    + rewrite !(list_filter_iff (λ r, examined r ∧ nr_nameID r = n)
                                (λ r, is_mac_name n r = true)); [apply Hcnt|..];
        intros r; rewrite is_mac_name_spec; unfold examined; split; intros; try lia;
        intuition lia.
    + rewrite filter_never; [simpl; lia|].
      intros r [(_ & _ & _ & Hr) <-]. lia.
  - rewrite Hch. split.
    + intros [?|Hlt]; [done|]. intros Heq. rewrite Heq in Hlt. lia.
    + intros Hne. right. apply sublist_length in Hsub as Hle.
      destruct (decide (length st.1 = length l)) as [Heq|]; [|lia].
      exfalso. apply Hne. by apply sublist_same_length.
Qed.

(** C10: [drop_mac_names] and [drop_superfluous_mac_names] return the flag
    and leave the font with a list of name records from which records were
    taken out, the other records in their order.  Only Macintosh records with
    encoding 0, language 0 and a name id from 0 to 254 can go (and of these,
    for [drop_superfluous_mac_names], only those whose id is not one to keep):
    every other record stays, whatever its platform.  Of the records of one
    name id at most one goes per call, and the flag is true iff the list
    changed, that is iff a record was removed. *)
Theorem drop_mac_names_frame (ttfont : TTFont) :
  (∃ names' changed,
     drop_mac_names ttfont = Returns (with_names names' ttfont) changed
     ∧ sublist names' (names ttfont)
     ∧ filter (λ r, ¬ examined r) names' = filter (λ r, ¬ examined r) (names ttfont)
     ∧ (∀ n, (length (filter (λ r, examined r ∧ nr_nameID r = n) (names ttfont))
              ≤ S (length (filter (λ r, examined r ∧ nr_nameID r = n) names')))%nat)
     ∧ (changed = true ↔ names' ≠ names ttfont))
  ∧ (∃ names' changed,
     drop_superfluous_mac_names ttfont = Returns (with_names names' ttfont) changed
     ∧ sublist names' (names ttfont)
     ∧ filter (λ r, ¬ examined r ∨ nr_nameID r ∈ keep_ids) names'
       = filter (λ r, ¬ examined r ∨ nr_nameID r ∈ keep_ids) (names ttfont)
     ∧ (∀ n, (length (filter (λ r, examined r ∧ nr_nameID r = n) (names ttfont))
              ≤ S (length (filter (λ r, examined r ∧ nr_nameID r = n) names')))%nat)
     ∧ (changed = true ↔ names' ≠ names ttfont)).
Proof.
  split.
  - rewrite drop_mac_names_eq. cbv zeta.
    eexists _, _. split; [reflexivity|].
    apply (drop_names_frame (seqZ 0 255) (λ r, ¬ examined r)).
    + apply NoDup_seqZ.
    + intros n Hn. apply elem_of_seqZ in Hn. lia.
    + intros r n Hn Hr. apply elem_of_seqZ in Hn. apply not_true_is_false.
      intros Hm. apply is_mac_name_spec in Hm. apply Hr. unfold examined. lia.
  - rewrite drop_superfluous_mac_names_eq. cbv zeta.
    eexists _, _. split; [reflexivity|].
    apply (drop_names_frame (filter (λ n, n ∉ keep_ids) (seqZ 0 255))
             (λ r, ¬ examined r ∨ nr_nameID r ∈ keep_ids)).
    + apply NoDup_filter, NoDup_seqZ.
    + intros n Hn. apply list_elem_of_filter in Hn as [_ Hn].
      apply elem_of_seqZ in Hn. lia.
    + intros r n Hn Hr. apply list_elem_of_filter in Hn as [Hkeep Hn].
      apply elem_of_seqZ in Hn. apply not_true_is_false.
      intros Hm. apply is_mac_name_spec in Hm as (Hid & Hp & He & Hl).
      destruct Hr as [Hr|Hr].
      * apply Hr. unfold examined. lia.
      * apply Hkeep. by rewrite <- Hid.
Qed.

(** ** COLR repair *)

(** A COLR font of the given version with the glyphs [.notdef], [A] (an
    outline of two contours) and [space] (no contour). *)
Definition example_colr_font (version : Z) : TTFont :=
  mkTTFont (keys example_font ∪ {["COLR"]}) (os2 example_font) (head example_font)
           (hhea example_font) (post example_font) [] ∅ [] [] version 3
           (list_to_map [(".notdef", 1); ("A", 2); ("space", 0)])
           [".notdef"; "A"; "space"] (mkHVAR None None None) "Regular".

(** C7: [fix_colr_font] on a font with a COLR table dispatches on the
    version of the table.  Version 0: the font comes back as it is when it
    has fewer than 2 glyphs, and when the glyph at index 1 has no contour.
    Version 1: the font comes back as it is when it has an "SVG " table;
    otherwise the rasterizer runs, and a font from it without an "SVG " table
    is an AssertionError, one with the table is the result.  Any other
    version is a NotImplementedError. *)
Theorem fix_colr_font_dispatch (load_fully : TTFont → TTFont)
    (reorder_glyphs : TTFont → list string → TTFont)
    (maximum_color : TTFont → result TTFont) (ttfont : TTFont) :
  "COLR" ∈ keys ttfont →
  let repaired := fix_colr_font load_fully reorder_glyphs maximum_color ttfont in
  (COLR_version ttfont = 0 → numGlyphs ttfont < 2 → repaired = Ok ttfont)
  ∧ (COLR_version ttfont = 0 → 2 ≤ numGlyphs ttfont →
     ∀ second_glyph, glyphOrder ttfont !! 1%nat = Some second_glyph →
       glyphs ttfont !! second_glyph = Some 0 → repaired = Ok ttfont)
  ∧ (COLR_version ttfont = 1 → "SVG " ∈ keys ttfont → repaired = Ok ttfont)
  ∧ (COLR_version ttfont = 1 → "SVG " ∉ keys ttfont →
     ∀ fixed_ttfont, maximum_color ttfont = Ok fixed_ttfont →
       ("SVG " ∉ keys fixed_ttfont → repaired = Error AssertionError)
       ∧ ("SVG " ∈ keys fixed_ttfont → repaired = Ok fixed_ttfont))
  ∧ (COLR_version ttfont ≠ 0 → COLR_version ttfont ≠ 1 →
     repaired = Error NotImplementedError).
Proof.
  intros Hcolr repaired. subst repaired.
  unfold fix_colr_font, has_table. rewrite bool_decide_eq_true_2 by done. simpl.
  split; [|split; [|split; [|split]]].
  - intros Hv Hn. rewrite Hv. simpl. unfold fix_colr_v0_gid1, has_table.
    rewrite bool_decide_eq_true_2 by done. rewrite Hv. simpl.
    by rewrite (proj2 (Z.ltb_lt _ _) Hn).
  - intros Hv Hn g Hg Hempty. rewrite Hv. simpl. unfold fix_colr_v0_gid1, has_table.
    rewrite bool_decide_eq_true_2 by done. rewrite Hv. simpl.
    rewrite (proj2 (Z.ltb_ge _ _) Hn). by rewrite Hg, Hempty.
  - intros Hv Hsvg. rewrite Hv. simpl. unfold fix_colr_v1_add_svg, has_table.
    by rewrite bool_decide_eq_true_2.
  - intros Hv Hsvg fixed Hmax. rewrite Hv. simpl.
    unfold fix_colr_v1_add_svg, has_table.
    rewrite bool_decide_eq_false_2 by done. rewrite Hmax. split; intros Hout.
    + by rewrite bool_decide_eq_false_2.
    + by rewrite bool_decide_eq_true_2.
  - intros H0 H1. apply Z.eqb_neq in H0, H1. by rewrite H0, H1.
Qed.

Lemma fix_colr_font_dispatch_witness :
  "COLR" ∈ keys (example_colr_font 1)
  ∧ fix_colr_font id (λ f order, with_glyphOrder order f) (λ f, Ok f)
      (example_colr_font 1) = Error AssertionError
  ∧ fix_colr_font id (λ f order, with_glyphOrder order f) (λ f, Ok f)
      (example_colr_font 2) = Error NotImplementedError.
Proof.
  assert (H : ∀ v, "COLR" ∈ keys (example_colr_font v)) by (intros v; set_solver).
  assert (Hsvg : "SVG " ∉ keys (example_colr_font 1)) by (simpl; set_solver).
  split; [apply H|]. split.
  - pose proof (fix_colr_font_dispatch id (λ f order, with_glyphOrder order f)
                  (λ f, Ok f) (example_colr_font 1) (H 1)) as Hd.
    cbv zeta in Hd. destruct Hd as (_ & _ & _ & Hv1 & _).
    by apply (Hv1 eq_refl Hsvg (example_colr_font 1) eq_refl).
  - pose proof (fix_colr_font_dispatch id (λ f order, with_glyphOrder order f)
                  (λ f, Ok f) (example_colr_font 2) (H 2)) as Hd.
    cbv zeta in Hd. destruct Hd as (_ & _ & _ & _ & Hv2).
    by apply Hv2.
Defined.

(** ** FontFixer *)

(** What [fix] reads as the change flag of a rule's value. *)
Definition reported_change (rv : rule_value) : bool :=
  match rv with
  | RPair changed _ => changed
  | _ => truthy rv
  end.


(** The fonts that a run of [__del__] saves, with their paths. *)
Definition saves (events : list Event) : list (TTFont * string) :=
  omap (λ ev, match ev with
              | Saved font path => Some (font, path)
              | Printed _ => None
              end) events.


Lemma saves_del (self : FontFixer.t) :
  saves (FontFixer.__del__ self)
  = if FontFixer.saveit self
    then [(FontFixer.font self, FontFixer.path self +:+ ".fix")]
    else [].
Proof.
  unfold FontFixer.__del__, saves.
  by destruct (FontFixer.report self), (FontFixer.saveit self),
     (FontFixer.verbose self).
Qed.


(** A rule that returns a bool, as [fix] sees it. *)
Definition bool_rule (r : TTFont → outcome TTFont bool) : rule :=
  λ font,
    match r font with
    | Returns font' b => Returns font' (RBool b)
    | Raises font' e => Raises font' e
    end.

Example fontfixer_saves_changed_font :
  let self := FontFixer.__init__ example_font "fonts/Example-Regular.ttf" true false
                (Some [bool_rule fix_mac_style; bool_rule fix_fs_type]) in
  FontFixer.__del__ (state_after (FontFixer.fix_ self))
  = [Printed "";
     Saved (with_os2 (set_fsType 0 (os2 example_font)) example_font)
           "fonts/Example-Regular.ttf.fix"].
Proof. reflexivity. Qed.

Example fontfixer_skips_unchanged_font :
  let self := FontFixer.__init__ example_font "fonts/Example-Regular.ttf" true true
                (Some [bool_rule fix_mac_style]) in
  FontFixer.__del__ (state_after (FontFixer.fix_ self))
  = [Printed ""; Printed "There were no changes needed on Example-Regular.ttf!"].
Proof. reflexivity. Qed.

(** ** Vertical metrics *)

#[global] Instance VKey_eq_dec : EqDecision VKey.
Proof. solve_decision. Defined.

Lemma getattr_setattr (k : VKey) (v : Z) (f : TTFont) :
  getattr k (setattr k v f) = v.
Proof. by destruct k. Qed.

Lemma getattr_setattr_ne (k k' : VKey) (v : Z) (f : TTFont) :
  k ≠ k' → getattr k (setattr k' v f) = getattr k f.
Proof. by destruct k, k'. Qed.

Lemma setattr_getattr (k : VKey) (f : TTFont) : setattr k (getattr k f) f = f.
Proof. destruct f as [? [] ? [] ? ? ? ? ? ? ? ? ? ? ?]. by destruct k. Qed.

Lemma head_setattr (k : VKey) (v : Z) (f : TTFont) : head (setattr k v f) = head f.
Proof. by destruct k. Qed.

Lemma fsSelection_setattr (k : VKey) (v : Z) (f : TTFont) :
  fsSelection (os2 (setattr k v f)) = fsSelection (os2 f).
Proof. by destruct k. Qed.

Lemma stylename_setattr (k : VKey) (v : Z) (f : TTFont) :
  stylename (setattr k v f) = stylename f.
Proof. by destruct k. Qed.

Lemma getattr_enable_typo_metrics (k : VKey) (f : TTFont) :
  getattr k (enable_typo_metrics f) = getattr k f.
Proof. by destruct k. Qed.

Lemma enable_typo_metrics_bit (f : TTFont) :
  Z.testbit (fsSelection (os2 (enable_typo_metrics f))) 7 = true.
Proof.
  unfold enable_typo_metrics. cbn [os2 with_os2 fsSelection set_fsSelection].
  rewrite Z.lor_spec, testbit_shiftl_1 by lia. apply orb_true_r.
Qed.

Lemma modify_same (l : loc) (g : TTFont → TTFont) (σ : store) :
  modify l g σ l = g (σ l).
Proof. unfold modify, store_set. by rewrite decide_True. Qed.

Lemma modify_other (l l' : loc) (g : TTFont → TTFont) (σ : store) :
  l' ≠ l → modify l g σ l' = σ l'.
Proof. intros Hne. unfold modify, store_set. by rewrite decide_False. Qed.

(** A change to one font that keeps the head table keeps it in the store. *)
Lemma modify_head (l : loc) (g : TTFont → TTFont) (σ : store) :
  (∀ f, head (g f) = head f) → ∀ l', head (modify l g σ l') = head (σ l').
Proof.
  intros Hg l'. destruct (decide (l' = l)) as [->|Hne].
  - by rewrite modify_same.
  - by rewrite modify_other.
Qed.

(** The loop of [copy_vertical_metrics] over a list of keys. *)
Definition copy_keys (src_font dst_font : loc) (ks : list VKey) (σ : store) : store :=
  foldl (λ σ key, modify dst_font (setattr key (getattr key (σ src_font))) σ) σ ks.

Lemma copy_keys_other (src dst : loc) (ks : list VKey) (σ : store) (l : loc) :
  l ≠ dst → copy_keys src dst ks σ l = σ l.
Proof.
  intros Hne. revert σ. induction ks as [|k ks IH]; intros σ; simpl; [done|].
  unfold copy_keys in *. simpl. rewrite IH. by apply modify_other.
Qed.

(** Copying a font onto itself changes nothing. *)
Lemma copy_keys_self (src : loc) (ks : list VKey) (σ : store) (l : loc) :
  copy_keys src src ks σ l = σ l.
Proof.
  revert σ. induction ks as [|k ks IH]; intros σ; [done|].
  unfold copy_keys in *. simpl. rewrite IH.
  destruct (decide (l = src)) as [->|Hne].
  - by rewrite modify_same, setattr_getattr.
  - by apply modify_other.
Qed.

(** Copying onto another font: the keys copied take the values of the
    source, and the head table, fsSelection and the other keys stay. *)
Lemma copy_keys_dst (src dst : loc) (ks : list VKey) (σ : store) :
  dst ≠ src →
  let f' := copy_keys src dst ks σ dst in
  (∀ k, getattr k f' = if decide (k ∈ ks) then getattr k (σ src) else getattr k (σ dst))
  ∧ head f' = head (σ dst)
  ∧ fsSelection (os2 f') = fsSelection (os2 (σ dst)).
Proof.
  intros Hne. revert σ. induction ks as [|k ks IH]; intros σ.
  - cbv zeta. split; [|done]. intros k. rewrite decide_False; [done|]. apply not_elem_of_nil.
  - cbv zeta. unfold copy_keys. simpl.
    set (σ1 := modify dst (setattr k (getattr k (σ src))) σ).
    fold (copy_keys src dst ks σ1).
    destruct (IH σ1) as (Hget & Hhead & Hsel).
    assert (Hsrc : σ1 src = σ src) by (apply modify_other; congruence).
    assert (Hdst : σ1 dst = setattr k (getattr k (σ src)) (σ dst))
      by apply modify_same.
    split; [|split].
    + intros k'. rewrite Hget, Hsrc, Hdst.
      destruct (decide (k' ∈ ks)) as [Hin|Hnin].
      * rewrite decide_True; [done|by right].
      * destruct (decide (k' = k)) as [->|Hk].
        -- rewrite decide_True by left. apply getattr_setattr.
        -- rewrite decide_False by (intros [?|?]%elem_of_cons; done).
           by apply getattr_setattr_ne.
    + by rewrite Hhead, Hdst, head_setattr.
    + by rewrite Hsel, Hdst, fsSelection_setattr.
Qed.

Lemma vertical_metric_keys_all (k : VKey) : k ∈ vertical_metric_keys.
Proof. unfold vertical_metric_keys. destruct k; set_solver. Qed.

(** The body of the last loop of [fix_vertical_metrics]. *)
Definition harmonize_step (src_font : loc) (σ : store) (ttFont : loc) : store :=
  copy_vertical_metrics src_font ttFont (modify ttFont enable_typo_metrics σ).

Lemma harmonize_step_spec (src f : loc) (σ : store) :
  let σ' := harmonize_step src σ f in
  (∀ k, getattr k (σ' src) = getattr k (σ src))
  ∧ (∀ k, getattr k (σ' f) = getattr k (σ src))
  ∧ Z.testbit (fsSelection (os2 (σ' f))) 7 = true
  ∧ (∀ g, g ≠ f → σ' g = σ g)
  ∧ (∀ g, head (σ' g) = head (σ g)).
Proof.
  cbv zeta. unfold harmonize_step.
  change (copy_vertical_metrics src f) with (copy_keys src f vertical_metric_keys).
  set (σ1 := modify f enable_typo_metrics σ).
  assert (Hhead1 : ∀ g, head (σ1 g) = head (σ g)) by (by apply modify_head).
  destruct (decide (f = src)) as [->|Hne].
  - assert (Hself : ∀ g, copy_keys src src vertical_metric_keys σ1 g = σ1 g)
      by apply copy_keys_self.
    assert (Hsrc : σ1 src = enable_typo_metrics (σ src)) by apply modify_same.
    repeat split.
    + intros k. by rewrite Hself, Hsrc, getattr_enable_typo_metrics.
    + intros k. by rewrite Hself, Hsrc, getattr_enable_typo_metrics.
    + rewrite Hself, Hsrc. apply enable_typo_metrics_bit.
    + intros g Hg. rewrite Hself. by apply modify_other.
    + intros g. by rewrite Hself.
  - destruct (copy_keys_dst src f vertical_metric_keys σ1 Hne) as (Hget & Hhead & Hsel).
    assert (Hsrc : σ1 src = σ src) by (apply modify_other; congruence).
    assert (Hdst : σ1 f = enable_typo_metrics (σ f)) by apply modify_same.
    repeat split.
    + intros k. rewrite copy_keys_other by congruence. by rewrite Hsrc.
    + intros k. rewrite Hget, decide_True by apply vertical_metric_keys_all.
      by rewrite Hsrc.
    + rewrite Hsel, Hdst. apply enable_typo_metrics_bit.
    + intros g Hg. rewrite copy_keys_other by done. by apply modify_other.
    + intros g. destruct (decide (g = f)) as [->|Hg].
      * by rewrite Hhead.
      * by rewrite copy_keys_other.
Qed.

(** A font has the metrics [M] and the typographic-metrics bit. *)
Definition harmonized (M : VKey → Z) (f : TTFont) : Prop :=
  (∀ k, getattr k f = M k) ∧ Z.testbit (fsSelection (os2 f)) 7 = true.

Lemma harmonize_loop_spec (src : loc) (M : VKey → Z) (l : list loc) :
  ∀ σ, (∀ k, getattr k (σ src) = M k) →
  let σ' := foldl (harmonize_step src) σ l in
  (∀ k, getattr k (σ' src) = M k)
  ∧ (∀ g, harmonized M (σ g) → harmonized M (σ' g))
  ∧ (∀ g, g ∈ l → harmonized M (σ' g))
  ∧ (∀ g, head (σ' g) = head (σ g)).
Proof.
  induction l as [|f l IH]; intros σ Hsrc.
  - cbv zeta. simpl. split; [done|]. split; [done|]. split; [|done].
    intros g Hg. by apply not_elem_of_nil in Hg.
  - cbv zeta. simpl.
    destruct (harmonize_step_spec src f σ) as (Hs & Hf & Hbit & Hframe & Hhead).
    set (σ1 := harmonize_step src σ f) in *.
    assert (Hsrc1 : ∀ k, getattr k (σ1 src) = M k)
      by (intros k; by rewrite Hs).
    assert (Hf1 : harmonized M (σ1 f))
      by (split; [intros k; by rewrite Hf|done]).
    destruct (IH σ1 Hsrc1) as (Hs' & Hkeep & Hall & Hhead').
    split; [exact Hs'|]. split; [|split].
    + intros g Hg. apply Hkeep. destruct (decide (g = f)) as [->|Hne]; [apply Hf1|].
      by rewrite Hframe.
    + intros g Hg. apply elem_of_cons in Hg as [->|Hin].
      * apply Hkeep, Hf1.
      * by apply Hall.
    + intros g. by rewrite Hhead'.
Qed.

Lemma family_bounding_box_bounds (f : TTFont) (fs : list TTFont) :
  ∃ lo hi,
    family_bounding_box (f :: fs) = Some (lo, hi)
    ∧ ∀ x, x ∈ f :: fs → lo ≤ yMin (head x) ∧ yMax (head x) ≤ hi.
Proof.
  unfold family_bounding_box. eexists _, _. split; [reflexivity|].
  induction fs as [|g fs IH]; simpl.
  - intros x Hx. apply list_elem_of_singleton in Hx as ->. lia.
  - intros x Hx.
    assert (x = g ∨ x ∈ f :: fs) as [->|Hin].
    { apply elem_of_cons in Hx as [->|Hx]; [right; left|].
      apply elem_of_cons in Hx as [->|Hx]; [by left|right; by right]. }
    + lia.
    + specialize (IH x Hin). lia.
Qed.

(** The bounding box of a family reads the head tables only. *)
Lemma family_bounding_box_heads (σ σ' : store) (l : list loc) :
  (∀ g, head (σ' g) = head (σ g)) →
  family_bounding_box (σ' <$> l) = family_bounding_box (σ <$> l).
Proof.
  intros Hh. destruct l as [|f l]; [done|]. simpl. rewrite Hh. f_equal.
  induction l as [|g l IH]; simpl; [done|].
  injection IH as IH1 IH2. by rewrite Hh, IH1, IH2.
Qed.

(** The font that [fix_vertical_metrics] takes the metrics from is the first
    font of the family styled "Regular", or else the first font. *)
Lemma source_font_spec (first : loc) (rest : list loc) (σ : store) :
  let ttFonts := first :: rest in
  let src := source_font ttFonts first σ in
  src ∈ ttFonts
  ∧ (font_stylename (σ src) = "Regular"
     ∨ (∀ f, f ∈ ttFonts → font_stylename (σ f) ≠ "Regular") ∧ src = first).
Proof.
  cbv zeta. unfold source_font.
  destruct (List.find _ (first :: rest)) as [s|] eqn:Hf; simpl.
  - split.
    + apply list_elem_of_In. by apply find_some in Hf as [Hin _].
    + left. apply find_Some_true in Hf. by apply bool_decide_eq_true in Hf.
  - split; [left|]. right. split; [|done]. intros f Hin.
    rewrite find_none_iff in Hf. specialize (Hf f Hin).
    by apply bool_decide_eq_false in Hf.
Qed.

(** The first element that passes a test: none before it passes. *)
Lemma find_first_split {A} (p : A → bool) (l : list A) (x : A) :
  List.find p l = Some x →
  ∃ before after, l = before ++ x :: after ∧ p x = true
                  ∧ ∀ y, y ∈ before → p y = false.
Proof.
  induction l as [|a l IH]; simpl; [done|].
  destruct (p a) eqn:Hpa.
  - intros [= <-]. exists [], l. split; [done|]. split; [done|].
    intros y Hy. by apply not_elem_of_nil in Hy.
  - intros Hf. destruct (IH Hf) as (before & after & -> & Hx & Hbefore).
    exists (a :: before), after. split; [done|]. split; [done|].
    intros y [->|Hy]%elem_of_cons; [done|by apply Hbefore].
Qed.

(** The source font is the first font of the family styled "Regular", and
    the first font when no font is styled so. *)
Lemma source_font_first (first : loc) (rest : list loc) (σ : store) :
  let ttFonts := first :: rest in
  let src := source_font ttFonts first σ in
  (∃ before after, ttFonts = before ++ src :: after
     ∧ font_stylename (σ src) = "Regular"
     ∧ ∀ f, f ∈ before → font_stylename (σ f) ≠ "Regular")
  ∨ ((∀ f, f ∈ ttFonts → font_stylename (σ f) ≠ "Regular") ∧ src = first).
Proof.
  cbv zeta. unfold source_font.
  destruct (List.find _ (first :: rest)) as [s|] eqn:Hf; cbn [default].
  - left. apply find_first_split in Hf as (before & after & Heq & Hs & Hbefore).
    exists before, after. split; [exact Heq|]. split.
    + by apply bool_decide_eq_true in Hs.
    + intros f Hin. specialize (Hbefore f Hin). by apply bool_decide_eq_false in Hbefore.
  - right. split; [|done]. intros f Hin.
    rewrite find_none_iff in Hf. specialize (Hf f Hin).
    by apply bool_decide_eq_false in Hf.
Qed.

(** C2: on a family that is not empty [fix_vertical_metrics] returns.  The
    source font is the first font of the family styled "Regular", or the
    first font when none is styled so.  Afterwards every font of the family
    has the eight vertical metrics that the source font has, and bit 7 of
    fsSelection set.  These metrics come from the source font as it was
    given: the typo metrics are its own when bit 7 of its fsSelection was
    set, and otherwise its usWinAscent, minus its usWinDescent and a line gap
    of 0; the hhea metrics are the typo metrics; usWinAscent is the top of
    the family's bounding box and usWinDescent the absolute value of its
    bottom, so the two bound the glyph extents of every font of the family.
    The head tables, which hold the extents, are as before. *)
Theorem fix_vertical_metrics_harmonizes (ttFonts : list loc) (σ : store) :
  ttFonts ≠ [] →
  ∃ σ' src lowest highest,
    fix_vertical_metrics ttFonts σ = Returns σ' tt
    ∧ src ∈ ttFonts
    ∧ ((∃ before after, ttFonts = before ++ src :: after
          ∧ font_stylename (σ src) = "Regular"
          ∧ ∀ f, f ∈ before → font_stylename (σ f) ≠ "Regular")
       ∨ ((∀ f, f ∈ ttFonts → font_stylename (σ f) ≠ "Regular")
          ∧ ttFonts !! 0%nat = Some src))
    ∧ (∀ f, f ∈ ttFonts → ∀ k, getattr k (σ' f) = getattr k (σ' src))
    ∧ (∀ f, f ∈ ttFonts →
         sTypoAscender (os2 (σ' f))
         = (if typo_metrics_enabled (σ src) then sTypoAscender (os2 (σ src))
            else usWinAscent (os2 (σ src)))
         ∧ sTypoDescender (os2 (σ' f))
           = (if typo_metrics_enabled (σ src) then sTypoDescender (os2 (σ src))
              else - usWinDescent (os2 (σ src)))
         ∧ sTypoLineGap (os2 (σ' f))
           = (if typo_metrics_enabled (σ src) then sTypoLineGap (os2 (σ src))
              else 0)
         ∧ ascent (hhea (σ' f)) = sTypoAscender (os2 (σ' f))
         ∧ descent (hhea (σ' f)) = sTypoDescender (os2 (σ' f))
         ∧ lineGap (hhea (σ' f)) = sTypoLineGap (os2 (σ' f)))
    ∧ (∀ f, f ∈ ttFonts → Z.testbit (fsSelection (os2 (σ' f))) 7 = true)
    ∧ family_bounding_box (σ <$> ttFonts) = Some (lowest, highest)
    ∧ (∀ f, f ∈ ttFonts →
         usWinAscent (os2 (σ' f)) = highest
         ∧ usWinDescent (os2 (σ' f)) = Z.abs lowest)
    ∧ (∀ f g, f ∈ ttFonts → g ∈ ttFonts →
         yMax (head (σ' g)) ≤ usWinAscent (os2 (σ' f))
         ∧ - usWinDescent (os2 (σ' f)) ≤ yMin (head (σ' g)))
    ∧ (∀ l, head (σ' l) = head (σ l)).
Proof.
  intros Hne. destruct ttFonts as [|first rest]; [done|].
  unfold fix_vertical_metrics.
  destruct (source_font_spec first rest σ) as [Hsrc_in _].
  pose proof (source_font_first first rest σ) as Hsrc_style. cbv zeta in Hsrc_style.
  set (src := source_font (first :: rest) first σ) in *.
  set (σ1 := if negb (typo_metrics_enabled (σ src)) then _ else σ).
  assert (Hhead1 : ∀ l, head (σ1 l) = head (σ l)).
  { intros l. unfold σ1. destruct (negb (typo_metrics_enabled (σ src))); [|done].
    rewrite !modify_head; try done; intros f; by rewrite ?head_setattr. }
  set (σ2 := modify src (λ f, setattr hhea_lineGap (sTypoLineGap (os2 f)) f) _).
  assert (Hhead2 : ∀ l, head (σ2 l) = head (σ l)).
  { intros l. unfold σ2. rewrite !modify_head; try done;
      intros f; by rewrite ?head_setattr. }
  destruct (family_bounding_box_bounds (σ first) (σ <$> rest))
    as (lowest & highest & Hbox & Hbounds).
  change (σ first :: (σ <$> rest)) with (σ <$> first :: rest) in Hbox, Hbounds.
  rewrite (family_bounding_box_heads σ σ2 (first :: rest) Hhead2), Hbox.
  set (σ3 := modify src (setattr OS2_usWinDescent (Z.abs lowest)) _).
  assert (Hhead3 : ∀ l, head (σ3 l) = head (σ l)).
  { intros l. unfold σ3. rewrite !modify_head; try done;
      intros f; by rewrite ?head_setattr. }
  assert (Hsrc3 : ∀ k, getattr k (σ3 src)
            = match k with
              | hhea_ascent | OS2_sTypoAscender =>
                  if typo_metrics_enabled (σ src) then sTypoAscender (os2 (σ src))
                  else usWinAscent (os2 (σ src))
              | hhea_descent | OS2_sTypoDescender =>
                  if typo_metrics_enabled (σ src) then sTypoDescender (os2 (σ src))
                  else - usWinDescent (os2 (σ src))
              | hhea_lineGap | OS2_sTypoLineGap =>
                  if typo_metrics_enabled (σ src) then sTypoLineGap (os2 (σ src))
                  else 0
              | OS2_usWinAscent => highest
              | OS2_usWinDescent => Z.abs lowest
              end).
  { intros k. unfold σ3, σ2, σ1.
    destruct (typo_metrics_enabled (σ src)); cbn [negb];
      rewrite !modify_same; by destruct k. }
  change (foldl _ σ3 (first :: rest))
    with (foldl (harmonize_step src) σ3 (first :: rest)).
  destruct (harmonize_loop_spec src (λ k, getattr k (σ3 src)) (first :: rest) σ3)
    as (Hs & _ & Hall & Hhead'); [done|].
  set (σ' := foldl (harmonize_step src) σ3 (first :: rest)) in *.
  assert (Hvalue : ∀ f k, f ∈ first :: rest → getattr k (σ' f) = getattr k (σ3 src)).
  { intros f k Hf. by destruct (Hall f Hf) as [Hk _]. }
  assert (Hmetrics : ∀ f, f ∈ first :: rest →
            usWinAscent (os2 (σ' f)) = highest
            ∧ usWinDescent (os2 (σ' f)) = Z.abs lowest).
  { intros f Hf.
    pose proof (Hvalue f OS2_usWinAscent Hf) as Ha.
    pose proof (Hvalue f OS2_usWinDescent Hf) as Hd.
    rewrite Hsrc3 in Ha, Hd. by split. }
  exists σ', src, lowest, highest.
  split; [done|]. split; [done|]. split.
  { destruct Hsrc_style as [?|[? ->]]; [by left|by right]. }
  split. { intros f Hf k. by rewrite (Hvalue f k Hf), Hs. }
  split.
  { intros f Hf.
    pose proof (Hvalue f hhea_ascent Hf) as Ha.
    pose proof (Hvalue f hhea_descent Hf) as Hd.
    pose proof (Hvalue f hhea_lineGap Hf) as Hg.
    pose proof (Hvalue f OS2_sTypoAscender Hf) as Hta.
    pose proof (Hvalue f OS2_sTypoDescender Hf) as Htd.
    pose proof (Hvalue f OS2_sTypoLineGap Hf) as Htg.
    rewrite Hsrc3 in Ha, Hd, Hg, Hta, Htd, Htg.
    cbn [getattr] in Ha, Hd, Hg, Hta, Htd, Htg.
    by rewrite Ha, Hd, Hg, Hta, Htd, Htg. }
  split. { intros f Hf. by destruct (Hall f Hf). }
  split; [done|]. split; [exact Hmetrics|]. split.
  - intros f g Hf Hg. destruct (Hmetrics f Hf) as [-> ->].
    rewrite Hhead', Hhead3.
    assert (σ g ∈ σ <$> first :: rest) as Hin by (by apply list_elem_of_fmap_2).
    specialize (Hbounds _ Hin). lia.
  - intros l. by rewrite Hhead', Hhead3.
Qed.

(** A family of three static fonts that differ in usWinAscent and in their
    glyph extents; the Regular is the second one. *)
Definition family_font (style : string) (winAscent lowest highest : Z) : TTFont :=
  mkTTFont (keys example_font)
           (mkOS2 4 0 400 0 winAscent 250 0 0 0 500 (mkPanose 0 0))
           (mkHead 0 0 lowest highest)
           (mkHhea 0 0 0 0) (mkPost 0 0) [] ∅ [] [] 0 0 ∅ []
           (mkHVAR None None None) style.

Definition example_store : store :=
  λ l, match l with
       | 0%nat => family_font "Bold" 900 (-200) 1000
       | 1%nat => family_font "Regular" 950 (-250) 950
       | _ => family_font "Italic" 800 (-300) 900
       end.

Definition example_family : list loc := [0%nat; 1%nat; 2%nat].

(** The family of the examples: a Bold, a Regular and an Italic with
    different win metrics and extents.  None has bit 7 of fsSelection set, so
    the typo metrics come from the win metrics of the Regular, which is not
    the first font. *)
Lemma fix_vertical_metrics_harmonizes_witness :
  example_family ≠ []
  ∧ ∃ σ', fix_vertical_metrics example_family example_store = Returns σ' tt
          ∧ ∀ f, f ∈ example_family →
              sTypoAscender (os2 (σ' f)) = 950
              ∧ sTypoDescender (os2 (σ' f)) = -250
              ∧ sTypoLineGap (os2 (σ' f)) = 0
              ∧ ascent (hhea (σ' f)) = 950
              ∧ descent (hhea (σ' f)) = -250
              ∧ lineGap (hhea (σ' f)) = 0
              ∧ usWinAscent (os2 (σ' f)) = 1000
              ∧ usWinDescent (os2 (σ' f)) = 300.
Proof.
  assert (H : example_family ≠ []) by done.
  split; [exact H|].
  destruct (fix_vertical_metrics_harmonizes example_family example_store H)
    as (σ' & src & lowest & highest & Hret & Hin & Hsrc & _ & Hval & _ & Hbox & Hwin & _).
  assert (Hone : src = 1%nat).
  { destruct Hsrc as [(before & after & _ & Hreg & _)|[Hnone _]].
    - unfold example_family in Hin.
      apply elem_of_cons in Hin as [->|Hin]; [discriminate Hreg|].
      apply elem_of_cons in Hin as [->|Hin]; [reflexivity|].
      apply list_elem_of_singleton in Hin as ->. discriminate Hreg.
    - exfalso. apply (Hnone 1%nat); [right; left|reflexivity]. }
  subst src. vm_compute in Hbox. injection Hbox as <- <-.
  exists σ'. split; [exact Hret|]. intros f Hf.
  destruct (Hval f Hf) as (Hta & Htd & Htg & Ha & Hd & Hg).
  destruct (Hwin f Hf) as [Hwa Hwd].
  rewrite Ha, Hd, Hg, Hta, Htd, Htg, Hwa, Hwd. repeat split; reflexivity.
Defined.

Example fix_vertical_metrics_three_fonts :
  let σ' := state_after (fix_vertical_metrics example_family example_store) in
  (λ f, (λ k, getattr k (σ' f)) <$> vertical_metric_keys) <$> example_family
  = [[1000; 300; 950; -250; 0; 950; -250; 0];
     [1000; 300; 950; -250; 0; 950; -250; 0];
     [1000; 300; 950; -250; 0; 950; -250; 0]].
Proof. reflexivity. Qed.

(** ** Fixed pitch *)

(** Reduces reads of fields after assignments. *)
Ltac font_simpl :=
  cbn [keys os2 head hhea post names metrics cmap_tables fvar_axes COLR_version
       numGlyphs glyphs glyphOrder hvar stylename font_stylename
       with_keys with_os2 with_head with_hhea with_post with_names with_metrics
       with_cmap_tables with_glyphs with_glyphOrder with_hvar with_stylename
       set_OS2_panose
       os2_version fsType usWeightClass fsSelection usWinAscent usWinDescent
       sTypoAscender sTypoDescender sTypoLineGap xAvgCharWidth panose
       bFamilyType bProportion set_bFamilyType set_bProportion
       set_fsType set_usWeightClass set_fsSelection set_usWinAscent
       set_usWinDescent set_sTypoAscender set_sTypoDescender set_sTypoLineGap
       set_xAvgCharWidth set_panose
       head_flags macStyle yMin yMax set_macStyle
       ascent descent lineGap advanceWidthMax
       set_ascent set_descent set_lineGap set_advanceWidthMax
       italicAngle isFixedPitch set_italicAngle set_isFixedPitch] in *.

(** A font whose glyphs are the 26 capitals, all of advance width [width]. *)
Definition monospace_metrics (width : Z) : gmap string (Z * Z) :=
  list_to_map ((λ character, (character, (width, 0))) <$> uppercase).

Definition example_monospace_font (width widthMax avgWidth : Z) : TTFont :=
  mkTTFont (keys example_font)
           (mkOS2 4 0 400 64 900 300 0 0 0 avgWidth (mkPanose 2 9))
           (head example_font)
           (mkHhea 0 0 0 widthMax) (mkPost 0 1) [] (monospace_metrics width) [] []
           0 0 ∅ [] (mkHVAR None None None) "Regular".

(** The sampled widths are equal and [hhea.advanceWidthMax] is not the
    maximum width: the rule raises a NameError and the field keeps its
    value. *)
Lemma fix_isFixedPitch_stale_max (ttfont : TTFont) (sampled : list Z) (width_max : Z) :
  mapM (λ character, fst <$> metrics ttfont !! character) uppercase = Some sampled →
  size (list_to_set sampled : gset Z) = 1%nat →
  max_list_Z (positive_widths (metrics ttfont)) = Some width_max →
  advanceWidthMax (hhea ttfont) ≠ width_max →
  ∃ font', fix_isFixedPitch ttfont = Raises font' NameError
           ∧ advanceWidthMax (hhea font') = advanceWidthMax (hhea ttfont).
Proof.
  intros Hs Hsize Hmax Hne. unfold fix_isFixedPitch. rewrite Hs.
  rewrite decide_True by done.
  destruct (isFixedPitch (post ttfont) =? 1);
    destruct (bFamilyType (panose (os2 _)) =? 2); font_simpl;
    try destruct (_ || _); try destruct (bFamilyType (panose (os2 _)) =? 0);
    font_simpl; try destruct (bProportion (panose (os2 _)) =? _); font_simpl;
    rewrite Hmax; rewrite (proj2 (Z.eqb_neq _ _) Hne); by eexists.
Qed.

(** C5 (a defect of the code): with 26 capitals of advance width 600 and
    [hhea.advanceWidthMax] at 500 the rule does not store the maximum width
    and return: it raises a NameError, and the field keeps the value 500. *)
Example fix_isFixedPitch_name_error :
  fix_isFixedPitch (example_monospace_font 600 500 600)
  = Raises (example_monospace_font 600 500 600) NameError.
Proof. vm_compute. reflexivity. Qed.

Example fix_isFixedPitch_monospace_600 :
  ∃ messages,
    fix_isFixedPitch (example_monospace_font 600 600 0)
    = Returns (example_monospace_font 600 600 600) (true, messages).
Proof. eexists. vm_compute. reflexivity. Qed.

(** ** Applying a rule twice *)

(** After a first application of [rule] to [font] that returns, a second
    application leaves the font as it is and returns a value that is false. *)
Definition second_application_changes_nothing {A}
    (rule : TTFont → outcome TTFont A) (falsy : A → Prop) (font : TTFont) : Prop :=
  ∀ font1 v, rule font = Returns font1 v →
    ∃ v', rule font1 = Returns font1 v' ∧ falsy v'.

Lemma remove_tables_twice (ttFont : TTFont) (tables : option (list string)) :
  (remove_tables (remove_tables ttFont tables).1 tables).1
  = (remove_tables ttFont tables).1.
Proof.
  rewrite !remove_tables_font. simpl. rewrite with_keys_twice. f_equal. set_solver.
Qed.

Lemma fix_fs_type_twice (ttFont : TTFont) :
  second_application_changes_nothing fix_fs_type (λ v, v = false) ttFont.
Proof.
  intros font1 v H. unfold fix_fs_type in H. injection H as <- _.
  by eexists.
Qed.

Lemma fix_mac_style_twice (ttFont : TTFont) :
  second_application_changes_nothing fix_mac_style (λ v, v = false) ttFont.
Proof.
  intros font1 v H. unfold fix_mac_style in H. injection H as <- _.
  unfold fix_mac_style. font_simpl. eexists. split; [|reflexivity].
  f_equal. by rewrite Z.eqb_refl.
Qed.

Lemma fix_italic_angle_twice (ttFont : TTFont) :
  second_application_changes_nothing fix_italic_angle (λ v, v = false) ttFont.
Proof.
  intros font1 v H. unfold fix_italic_angle, font_stylename in *.
  destruct (negb (str_contains "Italic" (stylename ttFont))) eqn:Hs;
    [destruct (negb (Qeq_bool (italicAngle (post ttFont)) 0)) eqn:Ha|];
    simpl in H; injection H as <- _; font_simpl; rewrite ?Hs, ?Ha; simpl;
    by eexists.
Qed.

Lemma fix_fs_selection_twice (ttFont : TTFont) :
  second_application_changes_nothing fix_fs_selection (λ v, v = false) ttFont.
Proof.
  intros font1 v H.
  assert (H1 : font1 = state_after (fix_fs_selection ttFont)) by (by rewrite H).
  assert (Hst : font_stylename font1 = font_stylename ttFont) by (by rewrite H1).
  pose proof (fix_fs_selection_testbit ttFont) as Hb. cbv zeta in Hb.
  rewrite <- H1 in Hb.
  set (new1 := fsSelection (os2 font1)) in *.
  assert (Hnew : fsSelection (os2 (state_after (fix_fs_selection font1))) = new1).
  { apply Z.bits_inj'. intros i _.
    rewrite (fix_fs_selection_testbit font1 i). cbv zeta. fold new1.
    rewrite Hst, !Hb.
    destruct (Z.eqb_spec 7 i) as [<-|]; simpl_bool; [|done].
    cbn [Z.eqb Pos.eqb]. by simpl_bool. }
  unfold fix_fs_selection in Hnew |- *. cbv zeta in Hnew |- *.
  cbn [state_after with_os2 os2 set_fsSelection fsSelection] in Hnew.
  rewrite Hnew. fold new1. rewrite Z.eqb_refl. eexists. split; [|reflexivity].
  f_equal. unfold new1. by destruct font1 as [? [] ? ? ? ? ? ? ? ? ? ? ? ? ?].
Qed.

(** The weight that [fix_weight_class] decides on, or its error: it reads the
    table tags, the fvar axes and the style name, and not the OS/2 table. *)
Definition weight_choice (KNOWN_WEIGHTS : dict Z) (ttFont : TTFont) : exn + Z :=
  let by_name :=
    let tokens := split (font_stylename ttFont) in
    match List.find (λ style, bool_decide (style ∈ tokens))
                    (sorted_longest_first (dict_keys (WEIGHT_NAMES KNOWN_WEIGHTS))) with
    | Some style =>
        match dict_get style (WEIGHT_NAMES KNOWN_WEIGHTS) with
        | Some w => inr w
        | None => inl KeyError
        end
    | None => if bool_decide ("Italic" ∈ tokens) then inr 400 else inl ValueError
    end in
  if has_table "fvar" ttFont then
    match default_axis_values (fvar_axes ttFont) !! "wght" with
    | Some v => inr (py_int v)
    | None => by_name
    end
  else by_name.

Lemma fix_weight_class_choice (KNOWN_WEIGHTS : dict Z) (ttFont : TTFont) :
  fix_weight_class KNOWN_WEIGHTS ttFont
  = match weight_choice KNOWN_WEIGHTS ttFont with
    | inr w => assign_weight_class ttFont w
    | inl e => Raises ttFont e
    end.
Proof.
  unfold fix_weight_class, weight_class_from_stylename, weight_choice.
  by repeat case_match.
Qed.

Lemma fix_weight_class_twice (KNOWN_WEIGHTS : dict Z) (ttFont : TTFont) :
  second_application_changes_nothing (fix_weight_class KNOWN_WEIGHTS)
    (λ v, v = false) ttFont.
Proof.
  intros font1 v H. rewrite fix_weight_class_choice in H.
  destruct (weight_choice KNOWN_WEIGHTS ttFont) as [e|w] eqn:Hw; [done|].
  unfold assign_weight_class in H. injection H as <- _.
  rewrite fix_weight_class_choice.
  change (weight_choice KNOWN_WEIGHTS
            (with_os2 (set_usWeightClass w (os2 ttFont)) ttFont))
    with (weight_choice KNOWN_WEIGHTS ttFont).
  rewrite Hw. unfold assign_weight_class. font_simpl. rewrite Z.eqb_refl.
  by eexists.
Qed.

Lemma fix_isFixedPitch_twice (ttfont : TTFont) :
  second_application_changes_nothing fix_isFixedPitch (λ v, v.1 = false) ttfont.
Proof.
  intros font1 [c msgs] H. unfold fix_isFixedPitch in H.
  destruct (mapM _ uppercase) as [sampled|] eqn:Hs; [|discriminate].
  destruct (decide (size (list_to_set sampled : gset Z) = 1%nat)) as [Hone|Hmany].
  - destruct (isFixedPitch (post ttfont) =? 1) eqn:Hfp;
      destruct (bFamilyType (panose (os2 ttfont)) =? 2) eqn:H2; font_simpl;
      rewrite ?H2 in H;
      try destruct ((bFamilyType (panose (os2 ttfont)) =? 3)
                    || (bFamilyType (panose (os2 ttfont)) =? 5)) eqn:H35;
      try destruct (bFamilyType (panose (os2 ttfont)) =? 0) eqn:H0;
      font_simpl;
      try destruct (bProportion (panose (os2 ttfont)) =? _) eqn:Hbp; font_simpl;
      destruct (max_list_Z _) as [width_max|] eqn:Hmax; try discriminate H;
      destruct (advanceWidthMax (hhea ttfont) =? width_max) eqn:Hadv;
      try discriminate H;
      destruct (otRound _ =? xAvgCharWidth (os2 ttfont)) eqn:Havg;
      injection H as <- _ _;
      unfold fix_isFixedPitch; font_simpl; rewrite Hs, decide_True by done;
      repeat (progress (font_simpl;
                        rewrite ?Hfp, ?H2, ?H35, ?H0, ?Hbp, ?Hmax, ?Hadv, ?Havg,
                          ?Z.eqb_refl));
      by eexists.
  - injection H as <- _ _. unfold fix_isFixedPitch. font_simpl.
    rewrite Hs, decide_False by done. font_simpl. exists (false, []).
    split; [|done]. by f_equal.
Qed.

Lemma remove_where_filter_same {A} (p : A → bool) (l : list A) :
  filter (λ x, p x = true) (remove_where p l) = tail (filter (λ x, p x = true) l).
Proof.
  induction l as [|y l IH]; simpl; [done|].
  destruct (p y) eqn:Hy.
  - by rewrite filter_cons_True.
  - rewrite !filter_cons_False by congruence. apply IH.
Qed.

Lemma find_none_of_filter_nil {A} (p : A → bool) (l : list A) :
  filter (λ x, p x = true) l = [] → List.find p l = None.
Proof.
  induction l as [|y l IH]; simpl; [done|].
  rewrite filter_cons. destruct (p y) eqn:Hy.
  - by rewrite decide_True.
  - rewrite decide_False by congruence. apply IH.
Qed.

(** A pass removes the first of the records that an id of the pass finds. *)
Lemma drop_names_filter_tail (ns : list Z) :
  NoDup ns → ∀ (l : list NameRecord) (c : bool) (n : Z), n ∈ ns →
  filter (λ r, is_mac_name n r = true) (drop_names ns (l, c)).1
  = tail (filter (λ r, is_mac_name n r = true) l).
Proof.
  induction 1 as [|m ns Hnotin Hnd IH]; intros l c n Hn.
  - by apply not_elem_of_nil in Hn.
  - assert (Heq : drop_names (m :: ns) (l, c)
                  = drop_names ns (remove_where (is_mac_name m) l,
                                   c || bool_decide (is_Some (List.find (is_mac_name m) l))))
      by (unfold drop_names; simpl; by rewrite drop_name_eq).
    rewrite Heq. clear Heq.
    destruct (decide (n = m)) as [->|Hne].
    + destruct (drop_names_spec ns Hnd (remove_where (is_mac_name m) l)
                  (c || bool_decide (is_Some (List.find (is_mac_name m) l))))
        as (_ & Hfil & _).
      rewrite Hfil; [apply remove_where_filter_same|].
      intros r n' Hn' Hr. apply (is_mac_name_other m n'); [|done].
      intros <-. done.
    + apply elem_of_cons in Hn as [?|Hn]; [done|].
      rewrite IH by done. f_equal.
      apply remove_where_filter_other. intros r Hr.
      by apply (is_mac_name_other n m).
Qed.

(** A pass over ids that find no record changes nothing. *)
Lemma drop_names_nothing (ns : list Z) (l : list NameRecord) (c : bool) :
  (∀ n, n ∈ ns → List.find (is_mac_name n) l = None) →
  drop_names ns (l, c) = (l, c).
Proof.
  induction ns as [|m ns IH]; intros Hnone; [done|].
  unfold drop_names in *. simpl. rewrite drop_name_eq.
  rewrite (Hnone m) by left. rewrite remove_where_none by (apply Hnone; left).
  rewrite bool_decide_eq_false_2 by (by intros [? ?]). rewrite orb_false_r.
  apply IH. intros n Hn. apply Hnone. by right.
Qed.

(** No two records that the loops can find share a name id. *)
Definition no_duplicate_mac_names (l : list NameRecord) : Prop :=
  ∀ n, (length (filter (λ r, examined r ∧ nr_nameID r = n) l) ≤ 1)%nat.

Lemma drop_names_twice (ns : list Z) (l : list NameRecord) :
  NoDup ns → (∀ n, n ∈ ns → 0 ≤ n < 255) → no_duplicate_mac_names l →
  let st := drop_names ns (l, false) in
  drop_names ns (st.1, false) = (st.1, false).
Proof.
  intros Hnd Hrange Hdup st. apply drop_names_nothing. intros n Hn.
  apply find_none_of_filter_nil. unfold st. rewrite drop_names_filter_tail by done.
  specialize (Hdup n). specialize (Hrange n Hn).
  rewrite (list_filter_iff (λ r, examined r ∧ nr_nameID r = n)
                           (λ r, is_mac_name n r = true)) in Hdup.
  - destruct (filter (λ r, is_mac_name n r = true) l) as [|r [|r' l']];
      simpl in *; [done|done|lia].
  - intros r. rewrite is_mac_name_spec. unfold examined. split; intros; intuition lia.
Qed.

Lemma drop_names_pass_twice (ns : list Z) (ttfont : TTFont) :
  NoDup ns → (∀ n, n ∈ ns → 0 ≤ n < 255) → no_duplicate_mac_names (names ttfont) →
  ∀ font1 v,
    (let st := drop_names ns (names ttfont, false) in
     Returns (with_names st.1 ttfont) st.2) = Returns font1 v →
    ∃ v', (let st := drop_names ns (names font1, false) in
           Returns (with_names st.1 font1) st.2) = Returns font1 v'
          ∧ v' = false.
Proof.
  intros Hnd Hrange Hdup font1 v H.
  pose proof (drop_names_twice ns (names ttfont) Hnd Hrange Hdup) as Htwice.
  cbv zeta in *.
  destruct (drop_names ns (names ttfont, false)) as [l1 c1].
  cbn [fst snd] in *.
  assert (Hfont : font1 = with_names l1 ttfont) by congruence.
  rewrite Hfont. cbn [names with_names]. rewrite Htwice. cbn [fst snd].
  by exists false.
Qed.

Lemma drop_mac_names_twice (ttfont : TTFont) :
  no_duplicate_mac_names (names ttfont) →
  second_application_changes_nothing drop_mac_names (λ v, v = false) ttfont
  ∧ second_application_changes_nothing drop_superfluous_mac_names
      (λ v, v = false) ttfont.
Proof.
  intros Hdup. split; intros font1 v H.
  - rewrite drop_mac_names_eq in H. rewrite drop_mac_names_eq.
    refine (drop_names_pass_twice _ ttfont _ _ Hdup font1 v H).
    + apply NoDup_seqZ.
    + intros n Hn. apply elem_of_seqZ in Hn. lia.
  - rewrite drop_superfluous_mac_names_eq in H.
    rewrite drop_superfluous_mac_names_eq.
    refine (drop_names_pass_twice _ ttfont _ _ Hdup font1 v H).
    + apply NoDup_filter, NoDup_seqZ.
    + intros n Hn. apply list_elem_of_filter in Hn as [_ Hn].
      apply elem_of_seqZ in Hn. lia.
Qed.

(** A font with two Macintosh records of the family name, nameID 1. *)
Definition example_duplicate_names_font : TTFont :=
  with_names [mkNameRecord 1 1 0 0 "Example"; mkNameRecord 1 1 0 0 "Example";
              mkNameRecord 1 3 1 1033 "Example"] example_font.

(** ** Private-use remapping twice *)

Lemma map_to_pua_lookup_old (U order : list string) :
  ∀ (s : Z) (m : gmap Z string) (k : Z),
  (∀ (i : nat) g, order !! i = Some g → g ∈ U → k ≠ 983040 + s + Z.of_nat i) →
  map_to_pua U s order m !! k = m !! k.
Proof.
  induction order as [|g0 order IH]; intros s m k Hk; simpl; [done|].
  rewrite IH.
  - destruct (decide (g0 ∈ U)) as [Hin|]; [|done].
    rewrite lookup_insert_ne; [done|].
    specialize (Hk 0%nat g0 eq_refl Hin). lia.
  - intros i g Hi Hg. specialize (Hk (S i) g Hi Hg). lia.
Qed.

Lemma map_to_pua_lookup_new (U order : list string) :
  ∀ (s : Z) (m : gmap Z string) (i : nat) (g : string),
  order !! i = Some g → g ∈ U →
  map_to_pua U s order m !! (983040 + s + Z.of_nat i) = Some g.
Proof.
  induction order as [|g0 order IH]; intros s m i g Hi Hg; [done|].
  destruct i as [|i]; simpl in *.
  - injection Hi as ->. rewrite map_to_pua_lookup_old.
    + rewrite decide_True by done. rewrite Z.add_0_r. apply lookup_insert_eq.
    + intros j g' _ _. lia.
  - replace (983040 + s + Z.of_nat (S i))
      with (983040 + (s + 1) + Z.of_nat i) by lia.
    by apply IH.
Qed.

Lemma is_cmap_set_cs_cmap (p e : Z) (m : gmap Z string) (t : CmapSubtable) :
  is_cmap p e (set_cs_cmap m t) = is_cmap p e t.
Proof. done. Qed.

Lemma getcmap_update (p e : Z) (upd : gmap Z string → gmap Z string)
    (tables : list CmapSubtable) (t : CmapSubtable) :
  getcmap tables p e = Some t →
  getcmap (update_cmap p e upd tables) p e = Some (set_cs_cmap (upd (cs_cmap t)) t).
Proof.
  unfold getcmap. induction tables as [|t0 tables IH]; simpl; [done|].
  destruct (is_cmap p e t0) eqn:Ht0; simpl.
  - intros [= <-]. by rewrite is_cmap_set_cs_cmap, Ht0.
  - rewrite Ht0. apply IH.
Qed.

Lemma getcmap_update_appended (p e : Z) (upd : gmap Z string → gmap Z string)
    (tables : list CmapSubtable) (t : CmapSubtable) :
  getcmap tables p e = None → is_cmap p e t = true →
  getcmap (update_cmap p e upd (tables ++ [t])) p e
  = Some (set_cs_cmap (upd (cs_cmap t)) t).
Proof.
  unfold getcmap. intros Hnone Ht.
  induction tables as [|t0 tables IH]; simpl in *.
  - rewrite Ht. simpl. by rewrite is_cmap_set_cs_cmap, Ht.
  - destruct (is_cmap p e t0) eqn:Ht0; [done|]. simpl. rewrite Ht0. by apply IH.
Qed.

Lemma get_unencoded_glyphs_elem (font : TTFont) (t : CmapSubtable) (g : string) :
  unicode_cmap (cmap_tables font) = Some t →
  g ∈ get_unencoded_glyphs font
  ↔ g ∈ glyphOrder font ∧ g ∉ cmap_values t ∧ g ≠ ".notdef".
Proof.
  intros Ht. unfold get_unencoded_glyphs. rewrite Ht.
  rewrite list_elem_of_filter. tauto.
Qed.

Lemma get_unencoded_glyphs_nil (font : TTFont) (t : CmapSubtable) :
  unicode_cmap (cmap_tables font) = Some t →
  (∀ g, g ∈ glyphOrder font → g ≠ ".notdef" → g ∈ cmap_values t) →
  get_unencoded_glyphs font = [].
Proof.
  intros Ht Hall. unfold get_unencoded_glyphs. rewrite Ht.
  induction (glyphOrder font) as [|g order IH]; [done|].
  rewrite filter_cons_False.
  - apply IH. intros g' Hg'. apply Hall. by right.
  - intros [Hnot Hne]. apply Hnot, Hall; [left|done].
Qed.

(** The codepoints that the remap writes hold no mapping yet. *)
Definition pua_slots_free (font : TTFont) : Prop :=
  ∀ t (i : nat) g,
    unicode_cmap (cmap_tables font) = Some t →
    glyphOrder font !! i = Some g → g ∈ get_unencoded_glyphs font →
    cs_cmap t !! (983040 + Z.of_nat i) = None.

(** After the remap every glyph other than [.notdef] has a codepoint. *)
Lemma map_to_pua_covers (font : TTFont) (t : CmapSubtable) (g : string) :
  unicode_cmap (cmap_tables font) = Some t → pua_slots_free font →
  g ∈ glyphOrder font → g ≠ ".notdef" →
  g ∈ (map_img (map_to_pua (get_unencoded_glyphs font) 0 (glyphOrder font)
                           (cs_cmap t)) : gset string).
Proof.
  intros Ht Hfree Hg Hne. apply elem_of_map_img.
  destruct (decide (g ∈ cmap_values t)) as [Hin|Hnin].
  - apply elem_of_map_img in Hin as [k Hk]. exists k.
    rewrite map_to_pua_lookup_old; [done|].
    intros i g' Hi Hg' ->. rewrite Z.add_0_r in Hk.
    rewrite (Hfree t i g' Ht Hi Hg') in Hk. done.
  - apply list_elem_of_lookup in Hg as [i Hi].
    exists (983040 + 0 + Z.of_nat i). apply map_to_pua_lookup_new; [done|].
    by apply (get_unencoded_glyphs_elem font t); [|split; [eapply list_elem_of_lookup_2|]].
Qed.

Lemma fix_pua_twice (font : TTFont) :
  pua_slots_free font →
  second_application_changes_nothing fix_pua (λ v, v = None) font.
Proof.
  intros Hfree font1 v H. unfold fix_pua in H.
  destruct (get_unencoded_glyphs font) as [|g0 U] eqn:HU.
  { injection H as <- <-. unfold fix_pua. rewrite HU. by eexists. }
  rewrite <- HU in H.
  assert (Hdone : get_unencoded_glyphs font1 = [] →
                  ∃ v', fix_pua font1 = Returns font1 v' ∧ v' = None).
  { intros Hnil. unfold fix_pua. rewrite Hnil. by eexists. }
  apply Hdone. clear Hdone.
  destruct (getcmap (cmap_tables font) 3 10) as [t4|] eqn:H4.
  - injection H as <- _.
    assert (Ht : unicode_cmap (cmap_tables font) = Some t4)
      by (unfold unicode_cmap; by rewrite H4).
    eapply get_unencoded_glyphs_nil.
    + unfold unicode_cmap. font_simpl. by rewrite (getcmap_update _ _ _ _ _ H4).
    + intros g Hg Hne. font_simpl. by apply (map_to_pua_covers font t4).
  - destruct (find_ucs2cmap (cmap_tables font)) as [u|] eqn:Hu; [|done].
    injection H as <- _.
    assert (Ht : unicode_cmap (cmap_tables font) = Some u)
      by (unfold unicode_cmap; by rewrite H4).
    eapply get_unencoded_glyphs_nil.
    + unfold unicode_cmap. font_simpl.
      by rewrite (getcmap_update_appended _ _ _ _ _ H4).
    + intros g Hg Hne. font_simpl. by apply (map_to_pua_covers font u).
Qed.

(** ** Every rule, applied twice *)

(** C1 (a defect of the code): [drop_mac_names], whose docstring is "Drop
    all mac names", looks up one Macintosh record per name id and removes
    that one only.  On a name table with two equal Macintosh records of name
    id 1 the first call returns true and leaves one of them, and the second
    call removes it and returns true again, where the claim has the second
    application report no change. *)
Lemma drop_mac_names_second_call_changes :
  drop_mac_names example_duplicate_names_font
  = Returns (with_names [mkNameRecord 1 1 0 0 "Example";
                         mkNameRecord 1 3 1 1033 "Example"] example_font) true
  ∧ drop_mac_names (with_names [mkNameRecord 1 1 0 0 "Example";
                                mkNameRecord 1 3 1 1033 "Example"] example_font)
    = Returns (with_names [mkNameRecord 1 3 1 1033 "Example"] example_font) true.
Proof. split; vm_compute; reflexivity. Qed.

(** Where a second application does change nothing: a second application
    of a single-font rule, after a first one that returned, leaves the font
    as it is and reports no change:
    [remove_tables] (which returns [None] on every path), [fix_fs_type],
    [fix_fs_selection], [fix_mac_style], [fix_weight_class],
    [fix_italic_angle] and [fix_isFixedPitch] (the flag of the pair is false)
    on every font; [drop_mac_names] and [drop_superfluous_mac_names] on a font
    in which no two Macintosh records with encoding 0 and language 0 share a
    name id below 255; [fix_pua] (it returns [None]) on a font whose Unicode
    subtable maps nothing yet at the codepoints 0xF0000 + index of its
    unencoded glyphs. *)
Theorem rules_second_application (KNOWN_WEIGHTS : dict Z) (ttFont : TTFont) :
  (∀ tables,
     (remove_tables (remove_tables ttFont tables).1 tables).1
     = (remove_tables ttFont tables).1)
  ∧ second_application_changes_nothing fix_fs_type (λ v, v = false) ttFont
  ∧ second_application_changes_nothing fix_fs_selection (λ v, v = false) ttFont
  ∧ second_application_changes_nothing fix_mac_style (λ v, v = false) ttFont
  ∧ second_application_changes_nothing (fix_weight_class KNOWN_WEIGHTS)
      (λ v, v = false) ttFont
  ∧ second_application_changes_nothing fix_italic_angle (λ v, v = false) ttFont
  ∧ second_application_changes_nothing fix_isFixedPitch (λ v, v.1 = false) ttFont
  ∧ (no_duplicate_mac_names (names ttFont) →
     second_application_changes_nothing drop_mac_names (λ v, v = false) ttFont
     ∧ second_application_changes_nothing drop_superfluous_mac_names
         (λ v, v = false) ttFont)
  ∧ (pua_slots_free ttFont →
     second_application_changes_nothing fix_pua (λ v, v = None) ttFont).
Proof.
  split; [intros tables; apply remove_tables_twice|].
  split; [apply fix_fs_type_twice|].
  split; [apply fix_fs_selection_twice|].
  split; [apply fix_mac_style_twice|].
  split; [apply fix_weight_class_twice|].
  split; [apply fix_italic_angle_twice|].
  split; [apply fix_isFixedPitch_twice|].
  split; [apply drop_mac_names_twice|apply fix_pua_twice].
Qed.

(** The fonts of the spec's examples: Macintosh names for the ids 1, 2, 15 and
    19 beside a Windows name, and a glyph at index 5 without a codepoint in a
    font with a UCS-2 subtable only. *)
Definition example_named_font : TTFont :=
  with_names [mkNameRecord 1 1 0 0 "Example"; mkNameRecord 2 1 0 0 "Regular";
              mkNameRecord 15 1 0 0 "fifteen"; mkNameRecord 19 1 0 0 "Sample";
              mkNameRecord 1 3 1 1033 "Example"] example_font.

Definition example_pua_font : TTFont :=
  with_glyphOrder [".notdef"; "A"; "B"; "C"; "D"; "E.alt"]
    (with_cmap_tables
       [mkCmapSubtable 4 3 1 0
          (<[65 := "A"]> (<[66 := "B"]> (<[67 := "C"]> (<[68 := "D"]> ∅))))]
       example_font).

Lemma example_named_font_no_duplicates :
  no_duplicate_mac_names (names example_named_font).
Proof.
  intros n. simpl. rewrite !filter_cons, filter_nil.
  repeat case_decide; simpl; try lia.
  all: unfold examined in *; simpl in *; lia.
Qed.

Lemma example_pua_font_slots_free : pua_slots_free example_pua_font.
Proof.
  intros t i g Ht _ _.
  assert (Heq : unicode_cmap (cmap_tables example_pua_font)
                = Some (mkCmapSubtable 4 3 1 0
                          (<[65 := "A"]> (<[66 := "B"]> (<[67 := "C"]>
                             (<[68 := "D"]> ∅)))))) by reflexivity.
  rewrite Heq in Ht. injection Ht as <-. cbn [cs_cmap].
  rewrite !lookup_insert_ne by lia. apply lookup_empty.
Qed.

Lemma rules_second_application_witness :
  (second_application_changes_nothing drop_mac_names (λ v, v = false)
     example_named_font
   ∧ second_application_changes_nothing drop_superfluous_mac_names
       (λ v, v = false) example_named_font)
  ∧ second_application_changes_nothing fix_pua (λ v, v = None) example_pua_font.
Proof.
  split.
  - apply (rules_second_application example_weights example_named_font).
    apply example_named_font_no_duplicates.
  - apply (rules_second_application example_weights example_pua_font).
    apply example_pua_font_slots_free.
Defined.

(** The private-use remap writes to 0xF0000 + glyph index without a look at
    what the codepoint maps: in a font whose (3, 10) subtable maps 0xF0002,
    the codepoint of the unencoded glyph "B" at index 2, to "A", the first
    call takes the only codepoint of "A", and the second call has "A" to
    encode and returns true again. *)
Definition example_pua_clash_font : TTFont :=
  with_glyphOrder [".notdef"; "A"; "B"]
    (with_cmap_tables [mkCmapSubtable 12 3 10 0 {[983042 := "A"]}] example_font).

Example fix_pua_overwrites_mapping :
  ∃ font1 font2 ucs4cmap1 ucs4cmap2,
    fix_pua example_pua_clash_font = Returns font1 (Some true)
    ∧ getcmap (cmap_tables font1) 3 10 = Some ucs4cmap1
    ∧ cs_cmap ucs4cmap1 !! 983042 = Some "B"
    ∧ get_unencoded_glyphs font1 = ["A"]
    ∧ fix_pua font1 = Returns font2 (Some true)
    ∧ getcmap (cmap_tables font2) 3 10 = Some ucs4cmap2
    ∧ cs_cmap ucs4cmap2 !! 983041 = Some "A"
    ∧ cs_cmap ucs4cmap2 !! 983042 = Some "B".
Proof.
  eexists _, _, _, _. split; [reflexivity|]. split; [reflexivity|].
  split; [vm_compute; reflexivity|]. split; [vm_compute; reflexivity|].
  split; [vm_compute; reflexivity|]. split; [reflexivity|].
  split; vm_compute; reflexivity.
Qed.

Example drop_superfluous_mac_names_15_19 :
  drop_superfluous_mac_names example_named_font
  = Returns (with_names [mkNameRecord 1 1 0 0 "Example"; mkNameRecord 2 1 0 0 "Regular";
                         mkNameRecord 1 3 1 1033 "Example"] example_font) true.
Proof. vm_compute. reflexivity. Qed.

Example fix_pua_glyph_5 :
  ∃ font1,
    fix_pua example_pua_font = Returns font1 (Some true)
    ∧ (∃ ucs4, getcmap (cmap_tables font1) 3 10 = Some ucs4
               ∧ cs_cmap ucs4 !! (983040 + 5) = Some "E.alt")
    ∧ fix_pua font1 = Returns font1 None.
Proof.
  eexists. split; [reflexivity|]. split.
  - eexists. split; [reflexivity|]. vm_compute. reflexivity.
  - vm_compute. reflexivity.
Qed.

(** * Further properties of the rules *)

(** ** The hinting flag *)

Lemma lor_bit_eqb (x n : Z) :
  0 ≤ n → (Z.lor x (Z.shiftl 1 n) =? x) = Z.testbit x n.
Proof.
  intros Hn. destruct (Z.testbit x n) eqn:Hb.
  - apply Z.eqb_eq. apply Z.bits_inj'. intros i _.
    rewrite Z.lor_spec, testbit_shiftl_1 by done.
    destruct (Z.eqb_spec n i) as [->|]; [by rewrite Hb|by rewrite orb_false_r].
  - apply Z.eqb_neq. intros Heq. apply (f_equal (λ y, Z.testbit y n)) in Heq.
    rewrite Z.lor_spec, testbit_shiftl_1, Z.eqb_refl, orb_true_r in Heq by done.
    congruence.
Qed.

(** [fix_hinted_font] on a font without an fpgm table changes nothing and
    hands back a pair whose flag is false; on a font with one it sets bit 3 of
    the head flags, keeps every other bit and every other field, and returns
    true iff the bit was clear before. *)
Theorem fix_hinted_font_spec (ttFont : TTFont) :
  ("fpgm" ∉ keys ttFont →
     ∃ messages, fix_hinted_font ttFont = Returns ttFont (RPair false messages))
  ∧ ("fpgm" ∈ keys ttFont →
     ∃ flags,
       fix_hinted_font ttFont
       = Returns (with_head (set_head_flags flags (head ttFont)) ttFont)
                 (RBool (negb (Z.testbit (head_flags (head ttFont)) 3)))
       ∧ Z.testbit flags 3 = true
       ∧ ∀ i, i ≠ 3 → Z.testbit flags i = Z.testbit (head_flags (head ttFont)) i).
Proof.
  unfold fix_hinted_font, has_table. split; intros Hk.
  - rewrite bool_decide_eq_false_2 by done. by eexists.
  - rewrite bool_decide_eq_true_2 by done. cbv zeta. font_simpl.
    exists (Z.lor (head_flags (head ttFont)) (Z.shiftl 1 3)).
    cbn [negb head_flags set_head_flags].
    rewrite lor_bit_eqb by lia. split; [done|]. split.
    + rewrite Z.lor_spec, testbit_shiftl_1, Z.eqb_refl by lia. apply orb_true_r.
    + intros i Hi. rewrite Z.lor_spec, testbit_shiftl_1 by lia.
      destruct (Z.eqb_spec 3 i); [lia|]. apply orb_false_r.
Qed.

(** ** macStyle and fsSelection agree *)

Lemma fix_mac_style_testbit (ttFont : TTFont) (i : Z) :
  let tokens : gset string := list_to_set (split (font_stylename ttFont)) in
  Z.testbit (macStyle (head (state_after (fix_mac_style ttFont)))) i
  = (bool_decide ("Italic" ∈ tokens) && (1 =? i))
    || (bool_decide ("Bold" ∈ tokens) && (0 =? i)).
Proof.
  intros tokens. unfold fix_mac_style. cbv zeta. fold tokens.
  cbn [state_after with_head head set_macStyle macStyle].
  repeat case_bool_decide; repeat case_decide; try tauto;
    rewrite ?Z.lor_spec, ?testbit_shiftl_1, ?Z.bits_0 by lia;
    by simpl_bool.
Qed.

(** After [fix_fs_selection] and [fix_mac_style], in either order, the two
    flag fields tell the same style: the bold bits (macStyle 0, fsSelection 5)
    are equal, the italic bits (macStyle 1, fsSelection 0) are equal, and
    the regular bit 6 of fsSelection is set iff macStyle is 0. *)
Theorem mac_style_agrees_with_fs_selection (ttFont : TTFont) :
  let font1 := state_after (fix_mac_style (state_after (fix_fs_selection ttFont))) in
  let font2 := state_after (fix_fs_selection (state_after (fix_mac_style ttFont))) in
  font1 = font2
  ∧ Z.testbit (macStyle (head font1)) 0 = Z.testbit (fsSelection (os2 font1)) 5
  ∧ Z.testbit (macStyle (head font1)) 1 = Z.testbit (fsSelection (os2 font1)) 0
  ∧ (Z.testbit (fsSelection (os2 font1)) 6 = true ↔ macStyle (head font1) = 0).
Proof.
  intros font1 font2.
  assert (Hm : ∀ i, Z.testbit (macStyle (head font1)) i
                    = Z.testbit (macStyle (head (state_after (fix_mac_style ttFont)))) i)
    by done.
  assert (Hs : ∀ i, Z.testbit (fsSelection (os2 font1)) i
                    = Z.testbit (fsSelection (os2 (state_after (fix_fs_selection ttFont)))) i)
    by done.
  split; [done|]. split; [|split].
  - rewrite Hm, Hs, fix_mac_style_testbit, fix_fs_selection_testbit.
    cbn [Z.eqb Pos.eqb]. by simpl_bool.
  - rewrite Hm, Hs, fix_mac_style_testbit, fix_fs_selection_testbit.
    cbn [Z.eqb Pos.eqb]. by simpl_bool.
  - rewrite Hs, fix_fs_selection_testbit. cbn [Z.eqb Pos.eqb]. simpl_bool.
    rewrite bool_decide_eq_true. split.
    + intros [Hb Hi]. apply Z.bits_inj'. intros i _. rewrite Hm, fix_mac_style_testbit.
      rewrite !bool_decide_eq_false_2 by done. by rewrite Z.bits_0.
    + intros H0.
      assert (Hbits : ∀ i, Z.testbit (macStyle (head font1)) i = false)
        by (intros i; by rewrite H0, Z.bits_0).
      pose proof (Hbits 0) as Hb0. pose proof (Hbits 1) as Hb1.
      rewrite Hm, fix_mac_style_testbit in Hb0, Hb1.
      cbn [Z.eqb Pos.eqb] in Hb0, Hb1. revert Hb0 Hb1. simpl_bool.
      rewrite !bool_decide_eq_false. tauto.
Qed.

(** ** The returned flag tells whether the font changed *)

(** A rule whose flag is exact: it returns true iff the font it leaves differs
    from the font it was given, and a raise leaves the font as it was. *)
Definition flag_tells_change (r : TTFont → outcome TTFont bool) (ttFont : TTFont) : Prop :=
  (∀ font1 changed, r ttFont = Returns font1 changed → (changed = true ↔ font1 ≠ ttFont))
  ∧ (∀ font1 e, r ttFont = Raises font1 e → font1 = ttFont).

Lemma negb_eqb_true (x y : Z) : negb (x =? y) = true ↔ x ≠ y.
Proof. rewrite negb_true_iff. apply Z.eqb_neq. Qed.



Lemma set_usWeightClass_changes (v : Z) (f : TTFont) :
  with_os2 (set_usWeightClass v (os2 f)) f ≠ f ↔ v ≠ usWeightClass (os2 f).
Proof.
  split; intros Hne Heq; apply Hne.
  - subst v. by destruct f as [? [] ? ? ? ? ? ? ? ? ? ? ? ? ?].
  - by apply (f_equal (λ g, usWeightClass (os2 g))) in Heq.
Qed.




(** [fix_weight_class] returns true exactly when it leaves the font with
    another weight class than it had, a font that differs from the one
    given in nothing else; and when it raises the font is as it was. *)
Theorem fix_weight_class_flag_exact (KNOWN_WEIGHTS : dict Z) (ttFont : TTFont) :
  flag_tells_change (fix_weight_class KNOWN_WEIGHTS) ttFont
  ∧ ∀ font1 changed,
      fix_weight_class KNOWN_WEIGHTS ttFont = Returns font1 changed →
      font1 = with_os2 (set_usWeightClass (usWeightClass (os2 font1)) (os2 ttFont)) ttFont.
Proof.
  unfold flag_tells_change. repeat apply conj.
  - intros font1 c. rewrite fix_weight_class_choice.
    destruct (weight_choice KNOWN_WEIGHTS ttFont) as [e|w]; [done|].
    unfold assign_weight_class. intros [= <- <-].
    rewrite negb_eqb_true, set_usWeightClass_changes. naive_solver.
  - intros font1 e. rewrite fix_weight_class_choice.
    destruct (weight_choice KNOWN_WEIGHTS ttFont) as [e'|w]; [|done].
    by intros [= <- _].
  - intros font1 c. rewrite fix_weight_class_choice.
    destruct (weight_choice KNOWN_WEIGHTS ttFont) as [e|w]; [done|].
    unfold assign_weight_class. by intros [= <- _].
Qed.

(** ** cmap subtables in format 4 *)

(** The format 4 subtable that takes the place of a subtable. *)
Definition as_format_4 (table : CmapSubtable) : CmapSubtable :=
  mkCmapSubtable 4 (cs_platformID table) (cs_platEncID table) (cs_language table)
                 (cs_cmap table).

Lemma convert_loop (l : list CmapSubtable) (outtables : list CmapSubtable)
    (converted : list (Z * Z * Z)) :
  foldl convert_step (outtables, converted) l
  = (outtables ++ (as_format_4 <$> l),
     converted ++ ((λ t, (cs_format t, cs_platformID t, cs_platEncID t))
                     <$> filter (λ t, cs_format t ≠ 4) l)).
Proof.
  revert outtables converted. induction l as [|t l IH]; intros outtables converted.
  - simpl. by rewrite !app_nil_r.
  - cbn [foldl]. unfold convert_step at 2. rewrite filter_cons.
    case_decide; rewrite IH; fold (as_format_4 t); cbn [fmap list_fmap];
      by rewrite <- !app_assoc.
Qed.

(** [convert_cmap_subtables_to_v4] keeps the number and the order of the
    subtables, makes each one format 4 with the ids, the language and the
    mapping it had, returns the (format, platformID, platEncID) of those that
    were not format 4, in their order, and on the font it leaves returns the
    empty list and changes nothing. *)
Theorem convert_cmap_subtables_to_v4_spec (font : TTFont) :
  ∃ font1 converted,
    convert_cmap_subtables_to_v4 font = Returns font1 converted
    ∧ font1 = with_cmap_tables (cmap_tables font1) font
    ∧ length (cmap_tables font1) = length (cmap_tables font)
    ∧ (∀ i table, cmap_tables font !! i = Some table →
         ∃ newtable, cmap_tables font1 !! i = Some newtable
           ∧ cs_format newtable = 4
           ∧ cs_platformID newtable = cs_platformID table
           ∧ cs_platEncID newtable = cs_platEncID table
           ∧ cs_language newtable = cs_language table
           ∧ cs_cmap newtable = cs_cmap table)
    ∧ converted
      = (λ t, (cs_format t, cs_platformID t, cs_platEncID t))
          <$> filter (λ t, cs_format t ≠ 4) (cmap_tables font)
    ∧ convert_cmap_subtables_to_v4 font1 = Returns font1 [].
Proof.
  unfold convert_cmap_subtables_to_v4. rewrite convert_loop. cbn [app].
  eexists _, _. split; [reflexivity|]. cbn [cmap_tables with_cmap_tables].
  split; [done|]. split; [by rewrite length_fmap|]. split; [|split; [done|]].
  - intros i table Hi. exists (as_format_4 table).
    by rewrite list_lookup_fmap, Hi.
  - rewrite convert_loop. cbn [app]. f_equal.
    + transitivity (with_cmap_tables (as_format_4 <$> (as_format_4 <$> cmap_tables font))
                                     font); [done|].
      f_equal. induction (cmap_tables font) as [|t l IH]; [done|].
      cbn [fmap list_fmap]. by f_equal.
    + induction (cmap_tables font) as [|t l IH]; [done|].
      cbn [fmap list_fmap]. rewrite filter_cons_False; [exact IH|].
      intros Ht. by apply Ht.
Qed.

(** ** gasp *)

(** [GaspFixer.fix] on a font with a gasp table sets the range 65535 to the
    value, keeps the other ranges, the prep program and the font, sets the
    save flag and prints nothing, and [show] then prints the value.  On a
    font without the table it prints its message and raises a NameError: no
    table is created, the save flag stays as it was, and [show] raises an
    AttributeError. *)
Theorem gasp_fixer_fix_spec (self : GaspFixer.t) (value : Z) :
  let font := FontFixer.font (GaspFixer.base self) in
  ("gasp" ∈ keys font →
     ∃ after,
       GaspFixer.fix_ self value = Returns after tt
       ∧ gaspRange (GaspFixer.tables after) !! 65535 = Some value
       ∧ (∀ k, k ≠ 65535 →
            gaspRange (GaspFixer.tables after) !! k
            = gaspRange (GaspFixer.tables self) !! k)
       ∧ prep_program (GaspFixer.tables after) = prep_program (GaspFixer.tables self)
       ∧ GaspFixer.base after = FontFixer.set_saveit true (GaspFixer.base self)
       ∧ GaspFixer.printed after = GaspFixer.printed self
       ∧ ∃ shown, GaspFixer.show after = Returns shown tt
           ∧ GaspFixer.printed shown = GaspFixer.printed self ++ [pretty value])
  ∧ ("gasp" ∉ keys font →
     ∃ after message,
       GaspFixer.fix_ self value = Raises after NameError
       ∧ GaspFixer.base after = GaspFixer.base self
       ∧ GaspFixer.tables after = GaspFixer.tables self
       ∧ GaspFixer.printed after = GaspFixer.printed self ++ [message]
       ∧ GaspFixer.show after = Raises after AttributeError).
Proof.
  intros font. unfold GaspFixer.fix_, GaspFixer.show, has_table. fold font.
  split; intros Hk.
  - rewrite bool_decide_eq_true_2 by done. eexists. split; [reflexivity|].
    cbn [GaspFixer.tables GaspFixer.base GaspFixer.printed gaspRange prep_program
         FontFixer.font FontFixer.set_saveit].
    fold font. rewrite bool_decide_eq_true_2 by done.
    rewrite lookup_insert_eq.
    split; [done|]. split; [intros k Hne; by rewrite lookup_insert_ne|].
    split; [done|]. split; [done|]. split; [done|]. by eexists.
  - rewrite bool_decide_eq_false_2 by done. eexists _, _. split; [reflexivity|].
    cbn [GaspFixer.tables GaspFixer.base GaspFixer.printed]. fold font.
    by rewrite bool_decide_eq_false_2 by done.
Qed.


(** ** What a run of [FontFixer.fix] keeps *)

(** The messages of a rule's value: those of a pair, and none otherwise. *)
Definition result_messages (rv : rule_value) : list string :=
  match rv with
  | RPair _ messages => messages
  | _ => []
  end.

(** The rules of a list all return when each is applied to the font that the
    one before left: the font after the last one, and the values in order. *)
Inductive rules_return : list rule → TTFont → TTFont → list rule_value → Prop :=
| rules_return_nil (font : TTFont) : rules_return [] font font []
| rules_return_cons (f : rule) (todo : list rule) (font font1 font2 : TTFont)
    (rv : rule_value) (rvs : list rule_value) :
    f font = Returns font1 rv →
    rules_return todo font1 font2 rvs →
    rules_return (f :: todo) font font2 (rv :: rvs).

(** The fixer after rules that left the font [font'] and returned the values
    [rvs]: it holds that font, its messages and those of the pairs among the
    values, in order, and its save flag or a change that a value reports;
    its path, file name, options and rules are as before. *)
Definition fixer_after (self after : FontFixer.t) (font' : TTFont)
    (rvs : list rule_value) : Prop :=
  FontFixer.font after = font'
  ∧ FontFixer.messages after
    = FontFixer.messages self ++ concat (result_messages <$> rvs)
  ∧ FontFixer.saveit after
    = FontFixer.saveit self || existsb reported_change rvs
  ∧ FontFixer.path after = FontFixer.path self
  ∧ FontFixer.font_filename after = FontFixer.font_filename self
  ∧ FontFixer.report after = FontFixer.report self
  ∧ FontFixer.verbose after = FontFixer.verbose self
  ∧ FontFixer.fixes after = FontFixer.fixes self.

Lemma fixer_after_refl (self : FontFixer.t) :
  fixer_after self self (FontFixer.font self) [].
Proof.
  unfold fixer_after. cbn [fmap list_fmap concat existsb].
  by rewrite app_nil_r, orb_false_r.
Qed.

Lemma fixer_after_step (self s after : FontFixer.t) (font1 font' : TTFont)
    (rv : rule_value) (rvs : list rule_value) :
  fixer_after self s font1 [rv] → fixer_after s after font' rvs →
  fixer_after self after font' (rv :: rvs).
Proof.
  unfold fixer_after. cbn [fmap list_fmap concat existsb].
  rewrite app_nil_r, orb_false_r.
  intros (_ & Hm & Hs & Hp & Hn & Hr & Hv & Hf) (Hfont & Hm' & Hs' & Hp' & Hn' & Hr' & Hv' & Hf').
  rewrite Hm', Hm, Hs', Hs, Hp', Hn', Hr', Hv', Hf'.
  by rewrite <- app_assoc, orb_assoc.
Qed.

(** One turn of the loop of [fix] for a rule that returns. *)
Lemma fix_loop_step (f : rule) (todo : list rule) (self : FontFixer.t)
    (font1 : TTFont) (rv : rule_value) :
  f (FontFixer.font self) = Returns font1 rv →
  ∃ s, FontFixer.fix_loop (f :: todo) self = FontFixer.fix_loop todo s
       ∧ fixer_after self s font1 [rv].
Proof.
  intros Hf. cbn [FontFixer.fix_loop]. rewrite Hf. unfold fixer_after.
  destruct rv as [|[]|[] msgs|[]]; eexists; (split; [reflexivity|]);
    cbn; by rewrite ?app_nil_r, ?orb_true_r, ?orb_false_r.
Qed.

Lemma fix_loop_returns (todo : list rule) (font font' : TTFont)
    (rvs : list rule_value) :
  rules_return todo font font' rvs →
  ∀ self, FontFixer.font self = font →
  ∃ after, FontFixer.fix_loop todo self = Returns after tt
           ∧ fixer_after self after font' rvs.
Proof.
  induction 1 as [font|f todo font font1 font2 rv rvs Hf Hrest IH]; intros self Hfont.
  - exists self. split; [done|]. rewrite <- Hfont. apply fixer_after_refl.
  - rewrite <- Hfont in Hf. destruct (fix_loop_step f todo self font1 rv Hf) as (s & -> & Hs).
    destruct (IH s) as (after & Hrun & Hafter); [by destruct Hs|].
    exists after. split; [exact Hrun|]. by eapply fixer_after_step.
Qed.

Lemma fix_loop_raises (before : list rule) (f : rule) (later : list rule)
    (font mid font' : TTFont) (rvs : list rule_value) (e : exn) :
  rules_return before font mid rvs → f mid = Raises font' e →
  ∀ self, FontFixer.font self = font →
  ∃ after, FontFixer.fix_loop (before ++ f :: later) self = Raises after e
           ∧ fixer_after self after font' rvs.
Proof.
  induction 1 as [font|g todo font font1 font2 rv rvs Hg Hrest IH];
    intros Hraise self Hfont.
  - cbn [app FontFixer.fix_loop]. rewrite Hfont, Hraise. eexists. split; [reflexivity|].
    unfold fixer_after. cbn. by rewrite app_nil_r, orb_false_r.
  - rewrite <- Hfont in Hg. cbn [app].
    destruct (fix_loop_step g (todo ++ f :: later) self font1 rv Hg) as (s & -> & Hs).
    destruct (IH Hraise s) as (after & Hrun & Hafter); [by destruct Hs|].
    exists after. split; [exact Hrun|]. by eapply fixer_after_step.
Qed.

(** Either every rule of a list returns in turn, or there is a first one
    that raises. *)
Lemma rules_return_or_raise (todo : list rule) (font : TTFont) :
  (∃ font' rvs, rules_return todo font font' rvs)
  ∨ (∃ before f later mid rvs font' e,
       todo = before ++ f :: later
       ∧ rules_return before font mid rvs ∧ f mid = Raises font' e).
Proof.
  revert font. induction todo as [|f todo IH]; intros font.
  - left. exists font, []. constructor.
  - destruct (f font) as [font1 rv|font1 e] eqn:Hf.
    + destruct (IH font1) as [(font' & rvs & Hr)
                             |(before & g & later & mid & rvs & font' & e & -> & Hr & Hg)].
      * left. exists font', (rv :: rvs). by econstructor.
      * right. exists (f :: before), g, later, mid, (rv :: rvs), font', e.
        split; [done|]. split; [by econstructor|done].
    + right. exists [], f, todo, font, [], font1, e.
      split; [done|]. split; [constructor|done].
Qed.

(** [FontFixer.fix] returns when every rule returns, each applied to the
    font the one before left.  When a rule raises after the rules before it
    returned, [fix] raises that exception, the fixer holds the font that the
    raising rule left, and the later rules are not applied.  One of the two
    is always the case.  Either way the fixer has, after its own messages,
    the messages of the pairs that the rules returned before, in order, and
    its save flag or a change that one of them reported; its path, file name,
    options and rules are as before; and the teardown saves the font it
    holds to the path with the suffix ".fix" when the flag is set, so also
    after a raise. *)
Theorem fontfixer_fix_run (self : FontFixer.t) :
  let fixes := FontFixer.fixes self in
  let font := FontFixer.font self in
  let saved (after : FontFixer.t) :=
    saves (FontFixer.__del__ after)
    = if FontFixer.saveit after
      then [(FontFixer.font after, FontFixer.path self +:+ ".fix")]
      else [] in
  (∀ font' rvs,
     rules_return fixes font font' rvs →
     ∃ after, FontFixer.fix_ self = Returns after tt
              ∧ fixer_after self after font' rvs ∧ saved after)
  ∧ (∀ before f later mid rvs font' e,
       fixes = before ++ f :: later →
       rules_return before font mid rvs → f mid = Raises font' e →
       ∃ after, FontFixer.fix_ self = Raises after e
                ∧ fixer_after self after font' rvs ∧ saved after)
  ∧ ((∃ font' rvs, rules_return fixes font font' rvs)
     ∨ (∃ before f later mid rvs font' e,
          fixes = before ++ f :: later
          ∧ rules_return before font mid rvs ∧ f mid = Raises font' e)).
Proof.
  cbv zeta. unfold FontFixer.fix_.
  assert (Hsaved : ∀ after font' rvs, fixer_after self after font' rvs →
            saves (FontFixer.__del__ after)
            = if FontFixer.saveit after
              then [(FontFixer.font after, FontFixer.path self +:+ ".fix")]
              else []).
  { intros after font' rvs (_ & _ & _ & Hp & _). by rewrite saves_del, Hp. }
  split; [|split].
  - intros font' rvs Hr.
    destruct (fix_loop_returns _ _ _ _ Hr self eq_refl) as (after & Hrun & Hafter).
    exists after. split; [exact Hrun|]. split; [exact Hafter|]. by eapply Hsaved.
  - intros before f later mid rvs font' e Heq Hr Hraise. rewrite Heq.
    destruct (fix_loop_raises before f later _ _ _ _ _ Hr Hraise self eq_refl)
      as (after & Hrun & Hafter).
    exists after. split; [exact Hrun|]. split; [exact Hafter|]. by eapply Hsaved.
  - apply rules_return_or_raise.
Qed.

(** A fixer with three rules on a font styled "Display": [fix_fs_type]
    reports a change, [fix_weight_class] finds no weight name and raises, and
    [fix_mac_style] is never applied. *)
Definition example_raising_fixer : FontFixer.t :=
  FontFixer.__init__ (with_stylename "Display" example_font)
    "fonts/Example-Display.ttf" true false
    (Some [bool_rule fix_fs_type; bool_rule (fix_weight_class example_weights);
           bool_rule fix_mac_style]).

Lemma fontfixer_fix_run_witness :
  ∃ after,
    FontFixer.fix_ example_raising_fixer = Raises after ValueError
    ∧ FontFixer.font after
      = with_os2 (set_fsType 0 (os2 example_font)) (with_stylename "Display" example_font)
    ∧ FontFixer.saveit after = true
    ∧ saves (FontFixer.__del__ after)
      = [(with_os2 (set_fsType 0 (os2 example_font))
                   (with_stylename "Display" example_font),
          "fonts/Example-Display.ttf.fix")].
Proof.
  destruct (fontfixer_fix_run example_raising_fixer) as (_ & Hraise & _).
  destruct (Hraise [bool_rule fix_fs_type]
                   (bool_rule (fix_weight_class example_weights))
                   [bool_rule fix_mac_style]
                   (with_os2 (set_fsType 0 (os2 example_font))
                             (with_stylename "Display" example_font))
                   [RBool true]
                   (with_os2 (set_fsType 0 (os2 example_font))
                             (with_stylename "Display" example_font))
                   ValueError)
    as (after & Hrun & (Hfont & _ & Hsave & _) & Hsaved).
  - reflexivity.
  - econstructor; [reflexivity|constructor].
  - reflexivity.
  - exists after. split; [exact Hrun|]. split; [exact Hfont|].
    split; [exact Hsave|]. rewrite Hsaved, Hsave, Hfont. reflexivity.
Defined.



(** ** Copying vertical metrics *)

(** A font with its eight vertical metrics blanked: what is left is the part
    of the font that [copy_vertical_metrics] has no business with. *)
Definition without_vertical_metrics (f : TTFont) : TTFont :=
  foldr (λ k f, setattr k 0 f) f vertical_metric_keys.

Lemma without_vertical_metrics_setattr (k : VKey) (v : Z) (f : TTFont) :
  without_vertical_metrics (setattr k v f) = without_vertical_metrics f.
Proof. by destruct k. Qed.

(** A font is its eight vertical metrics and the rest. *)
Lemma vertical_metrics_restore (f : TTFont) :
  foldr (λ k acc, setattr k (getattr k f) acc) (without_vertical_metrics f)
        vertical_metric_keys
  = f.
Proof. destruct f as [? [] ? [] ? ? ? ? ? ? ? ? ? ? ?]. reflexivity. Qed.

Lemma font_eq_by_metrics (f g : TTFont) :
  (∀ k, getattr k f = getattr k g) →
  without_vertical_metrics f = without_vertical_metrics g → f = g.
Proof.
  intros Hk Hw.
  transitivity (foldr (λ k acc, setattr k (getattr k f) acc)
                      (without_vertical_metrics f) vertical_metric_keys);
    [symmetry; apply vertical_metrics_restore|].
  transitivity (foldr (λ k acc, setattr k (getattr k g) acc)
                      (without_vertical_metrics g) vertical_metric_keys);
    [|apply vertical_metrics_restore].
  rewrite Hw. generalize (without_vertical_metrics g). intros h.
  unfold vertical_metric_keys. cbn [foldr]. by rewrite !Hk.
Qed.

Lemma copy_keys_frame (src dst : loc) (ks : list VKey) (σ : store) :
  without_vertical_metrics (copy_keys src dst ks σ dst)
  = without_vertical_metrics (σ dst).
Proof.
  revert σ. induction ks as [|k ks IH]; intros σ; [done|].
  unfold copy_keys in *. cbn [foldl]. rewrite IH.
  by rewrite modify_same, without_vertical_metrics_setattr.
Qed.

(** [copy_vertical_metrics] gives the destination the eight vertical metrics
    of the source, leaves the rest of the destination and every other font
    as they were, and changes nothing when it is run a second time or when
    the source is the destination. *)
Theorem copy_vertical_metrics_spec (src_font dst_font : loc) (σ : store) :
  let σ' := copy_vertical_metrics src_font dst_font σ in
  (∀ k, getattr k (σ' dst_font) = getattr k (σ src_font))
  ∧ without_vertical_metrics (σ' dst_font) = without_vertical_metrics (σ dst_font)
  ∧ (∀ l, l ≠ dst_font → σ' l = σ l)
  ∧ (∀ l, copy_vertical_metrics src_font dst_font σ' l = σ' l)
  ∧ (src_font = dst_font → ∀ l, σ' l = σ l).
Proof.
  cbv zeta.
  change (copy_vertical_metrics src_font dst_font)
    with (copy_keys src_font dst_font vertical_metric_keys).
  assert (Hdst : ∀ σ0 k,
            getattr k (copy_keys src_font dst_font vertical_metric_keys σ0 dst_font)
            = getattr k (σ0 src_font)).
  { intros σ0 k. destruct (decide (dst_font = src_font)) as [->|Hne].
    - by rewrite copy_keys_self.
    - destruct (copy_keys_dst src_font dst_font vertical_metric_keys σ0 Hne)
        as (Hget & _ & _).
      rewrite Hget. by rewrite decide_True by apply vertical_metric_keys_all. }
  split; [apply Hdst|]. split; [apply copy_keys_frame|].
  split; [intros l Hl; by apply copy_keys_other|]. split.
  - intros l. destruct (decide (l = dst_font)) as [->|Hl];
      [|by rewrite copy_keys_other].
    apply font_eq_by_metrics; [|apply copy_keys_frame].
    intros k. rewrite !Hdst. destruct (decide (src_font = dst_font)) as [->|Hne].
    + by rewrite Hdst.
    + by rewrite copy_keys_other.
  - intros <- l. apply copy_keys_self.
Qed.

(** ** What [fix_vertical_metrics] writes, and where *)

(** A font without the things that [fix_vertical_metrics] may write: the
    eight vertical metrics are blanked and bit 7 of fsSelection is set. *)
Definition outside_vertical_metrics (f : TTFont) : TTFont :=
  without_vertical_metrics (enable_typo_metrics f).

Lemma outside_setattr (k : VKey) (v : Z) (f : TTFont) :
  outside_vertical_metrics (setattr k v f) = outside_vertical_metrics f.
Proof. by destruct k. Qed.

Lemma lor_twice (x y : Z) : Z.lor (Z.lor x y) y = Z.lor x y.
Proof. by rewrite <- Z.lor_assoc, Z.lor_diag. Qed.

Lemma outside_enable_typo_metrics (f : TTFont) :
  outside_vertical_metrics (enable_typo_metrics f) = outside_vertical_metrics f.
Proof.
  unfold outside_vertical_metrics. f_equal. unfold enable_typo_metrics.
  cbn [os2 with_os2 fsSelection set_fsSelection]. by rewrite lor_twice.
Qed.

Lemma modify_outside (l : loc) (g : TTFont → TTFont) (σ : store) :
  (∀ f, outside_vertical_metrics (g f) = outside_vertical_metrics f) →
  ∀ l', outside_vertical_metrics (modify l g σ l') = outside_vertical_metrics (σ l').
Proof.
  intros Hg l'. destruct (decide (l' = l)) as [->|Hne].
  - by rewrite modify_same.
  - by rewrite modify_other.
Qed.

Lemma copy_keys_outside (src dst : loc) (ks : list VKey) (σ : store) (l : loc) :
  outside_vertical_metrics (copy_keys src dst ks σ l) = outside_vertical_metrics (σ l).
Proof.
  revert σ. induction ks as [|k ks IH]; intros σ; [done|].
  unfold copy_keys in *. cbn [foldl]. rewrite IH.
  apply modify_outside. intros f. apply outside_setattr.
Qed.

Lemma harmonize_loop_frame (src : loc) (l : list loc) (σ : store) :
  let σ' := foldl (harmonize_step src) σ l in
  (∀ g, outside_vertical_metrics (σ' g) = outside_vertical_metrics (σ g))
  ∧ (∀ g, g ∉ l → σ' g = σ g).
Proof.
  revert σ. induction l as [|f l IH]; intros σ; [done|].
  cbv zeta. cbn [foldl]. destruct (IH (harmonize_step src σ f)) as [Hout Hframe].
  split.
  - intros g. rewrite Hout. unfold harmonize_step.
    change (copy_vertical_metrics src f) with (copy_keys src f vertical_metric_keys).
    rewrite copy_keys_outside. apply modify_outside, outside_enable_typo_metrics.
  - intros g Hg. apply not_elem_of_cons in Hg as [Hne Hg].
    rewrite Hframe by done.
    by destruct (harmonize_step_spec src f σ) as (_ & _ & _ & Hother & _); apply Hother.
Qed.

(** On a family [first :: rest], [fix_vertical_metrics] returns, and in every
    font of the family the hhea metrics are then the typo metrics.  The typo
    metrics are those of the source font when bit 7 of its fsSelection was
    set, and otherwise its former win metrics: usWinAscent, minus
    usWinDescent and a line gap of 0.  No font changes in anything but the
    eight vertical metrics and bit 7 of fsSelection, and a font that is not in
    the family does not change at all. *)
Theorem fix_vertical_metrics_values (first : loc) (rest : list loc) (σ : store) :
  let ttFonts := first :: rest in
  let src := source_font ttFonts first σ in
  ∃ σ',
    fix_vertical_metrics ttFonts σ = Returns σ' tt
    ∧ (∀ f, f ∈ ttFonts →
         ascent (hhea (σ' f)) = sTypoAscender (os2 (σ' f))
         ∧ descent (hhea (σ' f)) = sTypoDescender (os2 (σ' f))
         ∧ lineGap (hhea (σ' f)) = sTypoLineGap (os2 (σ' f))
         ∧ if typo_metrics_enabled (σ src)
           then sTypoAscender (os2 (σ' f)) = sTypoAscender (os2 (σ src))
                ∧ sTypoDescender (os2 (σ' f)) = sTypoDescender (os2 (σ src))
                ∧ sTypoLineGap (os2 (σ' f)) = sTypoLineGap (os2 (σ src))
           else sTypoAscender (os2 (σ' f)) = usWinAscent (os2 (σ src))
                ∧ sTypoDescender (os2 (σ' f)) = - usWinDescent (os2 (σ src))
                ∧ sTypoLineGap (os2 (σ' f)) = 0)
    ∧ (∀ l, outside_vertical_metrics (σ' l) = outside_vertical_metrics (σ l))
    ∧ (∀ l, l ∉ ttFonts → σ' l = σ l).
Proof.
  intros ttFonts src. subst ttFonts src. unfold fix_vertical_metrics.
  destruct (source_font_spec first rest σ) as [Hsrc_in _].
  set (src := source_font (first :: rest) first σ) in *.
  set (σ1 := if negb (typo_metrics_enabled (σ src)) then _ else σ).
  set (σ2 := modify src (λ f, setattr hhea_lineGap (sTypoLineGap (os2 f)) f) _).
  assert (Hhead2 : ∀ l, head (σ2 l) = head (σ l)).
  { intros l. unfold σ2, σ1. destruct (negb (typo_metrics_enabled (σ src)));
      rewrite !modify_head; try done; intros f; by rewrite ?head_setattr. }
  destruct (family_bounding_box_bounds (σ first) (σ <$> rest))
    as (lowest & highest & Hbox & _).
  change (σ first :: (σ <$> rest)) with (σ <$> first :: rest) in Hbox.
  rewrite (family_bounding_box_heads σ σ2 (first :: rest) Hhead2), Hbox.
  set (σ3 := modify src (setattr OS2_usWinDescent (Z.abs lowest)) _).
  change (foldl _ σ3 (first :: rest))
    with (foldl (harmonize_step src) σ3 (first :: rest)).
  destruct (harmonize_loop_spec src (λ k, getattr k (σ3 src)) (first :: rest) σ3)
    as (_ & _ & Hall & _); [done|].
  destruct (harmonize_loop_frame src (first :: rest) σ3) as [Hout Hframe].
  set (σ' := foldl (harmonize_step src) σ3 (first :: rest)) in *.
  assert (Hout3 : ∀ l, outside_vertical_metrics (σ3 l) = outside_vertical_metrics (σ l)).
  { intros l. unfold σ3, σ2, σ1. destruct (negb (typo_metrics_enabled (σ src)));
      rewrite !modify_outside; try done; intros f;
      by rewrite ?outside_setattr, ?outside_enable_typo_metrics. }
  assert (Hframe3 : ∀ l, l ≠ src → σ3 l = σ l).
  { intros l Hl. unfold σ3, σ2, σ1. destruct (negb (typo_metrics_enabled (σ src)));
      by rewrite !modify_other. }
  assert (Hsrc3 : ∀ k, getattr k (σ3 src)
            = match k with
              | hhea_ascent | OS2_sTypoAscender =>
                  if typo_metrics_enabled (σ src) then sTypoAscender (os2 (σ src))
                  else usWinAscent (os2 (σ src))
              | hhea_descent | OS2_sTypoDescender =>
                  if typo_metrics_enabled (σ src) then sTypoDescender (os2 (σ src))
                  else - usWinDescent (os2 (σ src))
              | hhea_lineGap | OS2_sTypoLineGap =>
                  if typo_metrics_enabled (σ src) then sTypoLineGap (os2 (σ src))
                  else 0
              | OS2_usWinAscent => highest
              | OS2_usWinDescent => Z.abs lowest
              end).
  { intros k. unfold σ3, σ2, σ1.
    destruct (typo_metrics_enabled (σ src)); cbn [negb];
      rewrite !modify_same; by destruct k. }
  exists σ'. split; [done|]. split; [|split].
  - intros f Hf. destruct (Hall f Hf) as [Hk _].
    pose proof (Hk hhea_ascent) as Ha. pose proof (Hk hhea_descent) as Hd.
    pose proof (Hk hhea_lineGap) as Hg. pose proof (Hk OS2_sTypoAscender) as Hta.
    pose proof (Hk OS2_sTypoDescender) as Htd. pose proof (Hk OS2_sTypoLineGap) as Htg.
    rewrite Hsrc3 in Ha, Hd, Hg, Hta, Htd, Htg.
    cbn [getattr] in Ha, Hd, Hg, Hta, Htd, Htg.
    rewrite Ha, Hd, Hg, Hta, Htd, Htg.
    by destruct (typo_metrics_enabled (σ src)).
  - intros l. by rewrite Hout, Hout3.
  - intros l Hl. rewrite Hframe by done. apply Hframe3. by intros ->.
Qed.

(** ** What [fix_pua] maps *)

Lemma is_cmap_ids (p e p' e' : Z) (t : CmapSubtable) :
  is_cmap p e t = true → p' ≠ p ∨ e' ≠ e → is_cmap p' e' t = false.
Proof.
  unfold is_cmap. rewrite andb_true_iff, andb_false_iff, !Z.eqb_eq, !Z.eqb_neq.
  intros [-> ->] [?|?]; [left|right]; congruence.
Qed.

Lemma getcmap_update_other (p e p' e' : Z) (upd : gmap Z string → gmap Z string)
    (tables : list CmapSubtable) :
  p' ≠ p ∨ e' ≠ e →
  getcmap (update_cmap p e upd tables) p' e' = getcmap tables p' e'.
Proof.
  intros Hne. unfold getcmap. induction tables as [|t0 tables IH]; [done|].
  cbn [update_cmap]. destruct (is_cmap p e t0) eqn:Ht0; cbn [List.find].
  - by rewrite is_cmap_set_cs_cmap, (is_cmap_ids p e p' e' t0 Ht0 Hne).
  - by rewrite IH.
Qed.

Lemma getcmap_app_other (p e : Z) (tables : list CmapSubtable) (t : CmapSubtable) :
  is_cmap p e t = false → getcmap (tables ++ [t]) p e = getcmap tables p e.
Proof.
  intros Ht. unfold getcmap. induction tables as [|t0 tables IH]; simpl.
  - by rewrite Ht.
  - by rewrite IH.
Qed.

(** [fix_pua] returns [None] and leaves the font as it is when no glyph is
    unencoded.  Otherwise it returns [True] and the font has a subtable
    (3, 10) that maps the codepoint 0xF0000 + i to the glyph at index i of the
    glyph order for every unencoded glyph, and every other codepoint as the
    Unicode subtable of before did.  Nothing of the font but the cmap
    subtables changes, and the first subtable of any other pair of ids is the
    one from before. *)
Theorem fix_pua_maps_unencoded (font : TTFont) :
  ∃ font1 v,
    fix_pua font = Returns font1 v
    ∧ font1 = with_cmap_tables (cmap_tables font1) font
    ∧ (∀ p e, p ≠ 3 ∨ e ≠ 10 →
         getcmap (cmap_tables font1) p e = getcmap (cmap_tables font) p e)
    ∧ match get_unencoded_glyphs font with
      | [] => v = None ∧ font1 = font
      | _ :: _ =>
          v = Some true
          ∧ ∃ t ucs4cmap,
              unicode_cmap (cmap_tables font) = Some t
              ∧ getcmap (cmap_tables font1) 3 10 = Some ucs4cmap
              ∧ (∀ (i : nat) glyph,
                   glyphOrder font !! i = Some glyph →
                   glyph ∈ get_unencoded_glyphs font →
                   cs_cmap ucs4cmap !! (983040 + Z.of_nat i) = Some glyph)
              ∧ (∀ k,
                   (∀ (i : nat) glyph,
                      glyphOrder font !! i = Some glyph →
                      glyph ∈ get_unencoded_glyphs font → k ≠ 983040 + Z.of_nat i) →
                   cs_cmap ucs4cmap !! k = cs_cmap t !! k)
      end.
Proof.
  unfold fix_pua. cbv zeta.
  destruct (get_unencoded_glyphs font) as [|g0 U] eqn:HU.
  { exists font, None. split; [done|]. split; [by destruct font|]. done. }
  rewrite <- HU.
  assert (Hnew : ∀ m (i : nat) glyph,
            glyphOrder font !! i = Some glyph → glyph ∈ get_unencoded_glyphs font →
            map_to_pua (get_unencoded_glyphs font) 0 (glyphOrder font) m
              !! (983040 + Z.of_nat i) = Some glyph).
  { intros m i glyph Hi Hg.
    replace (983040 + Z.of_nat i) with (983040 + 0 + Z.of_nat i) by lia.
    by apply map_to_pua_lookup_new. }
  assert (Hold : ∀ m k,
            (∀ (i : nat) glyph,
               glyphOrder font !! i = Some glyph →
               glyph ∈ get_unencoded_glyphs font → k ≠ 983040 + Z.of_nat i) →
            map_to_pua (get_unencoded_glyphs font) 0 (glyphOrder font) m !! k = m !! k).
  { intros m k Hk. apply map_to_pua_lookup_old.
    intros i glyph Hi Hg. rewrite Z.add_0_r. by apply (Hk i glyph). }
  assert (Hsome : ∃ t, unicode_cmap (cmap_tables font) = Some t).
  { unfold get_unencoded_glyphs in HU.
    destruct (unicode_cmap (cmap_tables font)) as [t|]; [by exists t|done]. }
  destruct Hsome as [t Ht]. unfold unicode_cmap in Ht.
  destruct (getcmap (cmap_tables font) 3 10) as [t4|] eqn:H4.
  - injection Ht as ->. eexists _, _. split; [reflexivity|].
    cbn [cmap_tables with_cmap_tables]. split; [done|]. split.
    + intros p e Hne. by apply getcmap_update_other.
    + split; [done|]. exists t. eexists. split; [unfold unicode_cmap; by rewrite H4|].
      split; [by apply getcmap_update|]. cbn [cs_cmap set_cs_cmap].
      split; [apply Hnew|apply Hold].
  - rewrite Ht. eexists _, _. split; [reflexivity|].
    cbn [cmap_tables with_cmap_tables]. split; [done|]. split.
    + intros p e Hne. rewrite getcmap_update_other by done.
      apply getcmap_app_other. by apply (is_cmap_ids 3 10).
    + split; [done|]. exists t. eexists. split; [unfold unicode_cmap; by rewrite H4|].
      split; [by apply getcmap_update_appended|]. cbn [cs_cmap set_cs_cmap].
      split; [apply Hnew|apply Hold].
Qed.

(** ** Fixed pitch: what a run that returns leaves *)

(** The advance widths of the capitals A to Z, or [None] when the hmtx table
    lacks one of them. *)
Definition capital_widths (ttfont : TTFont) : option (list Z) :=
  mapM (λ character, fst <$> metrics ttfont !! character) uppercase.

(** The panose fields of a monospaced font after the rule: the proportion
    that goes with the family type, the defaults for a family type of 0, and
    no change for another family type. *)
Definition monospace_panose (p : Panose) : Panose :=
  if bFamilyType p =? 2 then set_bProportion 9 p
  else if (bFamilyType p =? 3) || (bFamilyType p =? 5) then set_bProportion 3 p
  else if bFamilyType p =? 0 then mkPanose 2 9
  else p.




(** The font of a proportional design after the rule. *)
Definition proportional_fixed (ttfont : TTFont) : TTFont :=
  set_OS2_panose (set_bProportion 0 (panose (os2 ttfont)))
    (with_post (set_isFixedPitch 0 (post ttfont)) ttfont).

(** When the capitals do not share one advance width, [fix_isFixedPitch]
    returns without a message: it leaves post.isFixedPitch and the panose
    proportion at 0, whatever the panose family type, and everything else as
    it was, and its flag is true exactly when the font it leaves differs from
    the font given. *)
Theorem fix_isFixedPitch_proportional (ttfont : TTFont) (sampled : list Z) :
  capital_widths ttfont = Some sampled →
  size (list_to_set sampled : gset Z) ≠ 1%nat →
  ∃ changed,
    fix_isFixedPitch ttfont = Returns (proportional_fixed ttfont) (changed, [])
    ∧ (changed = true ↔ proportional_fixed ttfont ≠ ttfont).
Proof.
  unfold capital_widths. intros Hs Hmany.
  unfold fix_isFixedPitch, proportional_fixed.
  rewrite Hs, decide_False by done. clear Hs Hmany sampled.
  eexists. split; [reflexivity|].
  destruct ttfont as [k [v ft wc fs wa wd ta td tl xa [pf pp]] hd [ha hde hl awm]
                        [ia fp] nm m ct fa cv ng gl go hv sn].
  font_simpl.
  destruct (Z.eqb_spec fp 0) as [->|Hfp]; destruct (Z.eqb_spec pp 0) as [->|Hpp];
    cbn [negb orb];
    (split; [intros Hc; try discriminate Hc; intros Heq;
             apply (f_equal (λ f, (isFixedPitch (post f), bProportion (panose (os2 f)))))
               in Heq;
             font_simpl; simplify_eq
            |intros Hne; try reflexivity; exfalso; by apply Hne]).
Qed.

Lemma fix_isFixedPitch_proportional_witness :
  ∃ changed,
    fix_isFixedPitch
      (with_metrics (<["I" := (250, 0)]> (monospace_metrics 600))
                    (example_monospace_font 600 600 600))
    = Returns (proportional_fixed
                 (with_metrics (<["I" := (250, 0)]> (monospace_metrics 600))
                               (example_monospace_font 600 600 600)))
              (changed, [])
    ∧ (changed = true
       ↔ proportional_fixed
           (with_metrics (<["I" := (250, 0)]> (monospace_metrics 600))
                         (example_monospace_font 600 600 600))
         ≠ with_metrics (<["I" := (250, 0)]> (monospace_metrics 600))
                        (example_monospace_font 600 600 600)).
Proof.
  apply (fix_isFixedPitch_proportional
           (with_metrics (<["I" := (250, 0)]> (monospace_metrics 600))
                         (example_monospace_font 600 600 600))
           (replicate 8 600 ++ [250] ++ replicate 17 600)).
  - vm_compute. reflexivity.
  - vm_compute. lia.
Defined.

(** The font of a monospaced design once the rule is through with post and
    panose, before it looks at the widths. *)
Definition half_fixed (ttfont : TTFont) : TTFont :=
  with_os2 (set_panose (monospace_panose (panose (os2 ttfont))) (os2 ttfont))
           (with_post (set_isFixedPitch 1 (post ttfont)) ttfont).

(** A raise of [fix_isFixedPitch] is a KeyError for a capital that the hmtx
    table lacks, with the font untouched, or it comes after the rule has
    written post.isFixedPitch and the panose fields of a monospaced font: a
    ValueError when no advance width is positive, or the NameError when
    hhea.advanceWidthMax is not the largest positive advance width.  The
    NameError does occur whenever the capitals share one advance width and
    hhea.advanceWidthMax is not the largest positive one, and the font it
    leaves differs from the font given whenever post.isFixedPitch was not 1:
    the rule is not atomic. *)
Theorem fix_isFixedPitch_raise_leaves (ttfont : TTFont) :
  (∀ font1 e,
     fix_isFixedPitch ttfont = Raises font1 e →
     (e = KeyError ∧ font1 = ttfont ∧ capital_widths ttfont = None)
     ∨ (font1 = half_fixed ttfont
        ∧ (e = ValueError ∧ positive_widths (metrics ttfont) = []
           ∨ e = NameError
             ∧ ∃ width_max,
                 max_list_Z (positive_widths (metrics ttfont)) = Some width_max
                 ∧ advanceWidthMax (hhea ttfont) ≠ width_max)))
  ∧ (∀ sampled width_max,
       capital_widths ttfont = Some sampled →
       size (list_to_set sampled : gset Z) = 1%nat →
       max_list_Z (positive_widths (metrics ttfont)) = Some width_max →
       advanceWidthMax (hhea ttfont) ≠ width_max →
       fix_isFixedPitch ttfont = Raises (half_fixed ttfont) NameError)
  ∧ (isFixedPitch (post ttfont) ≠ 1 →
     isFixedPitch (post (half_fixed ttfont)) = 1 ∧ half_fixed ttfont ≠ ttfont).
Proof.
  split; [|split].
  - unfold fix_isFixedPitch, capital_widths, half_fixed, monospace_panose.
    intros font1 e.
    destruct (mapM _ uppercase) as [sampled|] eqn:Hs;
      [|intros [= <- <-]; by left].
    destruct (decide (size (list_to_set sampled : gset Z) = 1%nat)) as [Hone|Hmany];
      [|done].
    clear Hs Hone.
    destruct ttfont as [k [v ft wc fs wa wd ta td tl xa [pf pp]] hd [ha hde hl awm]
                          [ia fp] nm m ct fa cv ng gl go hv sn].
    destruct (max_list_Z (positive_widths m)) as [width_max|] eqn:Hmax.
    + repeat (font_simpl; cbn [orb]; rewrite ?Hmax;
              match goal with
              | |- context [(?a =? ?b)%Z] => destruct (Z.eqb_spec a b); try lia
              end).
      all: font_simpl; cbn [orb]; rewrite ?Hmax; intros H; try discriminate H.
      all: injection H as <- <-; right; (split; [subst; reflexivity|]).
      all: right; split; [done|]; by exists width_max.
    + assert (Hnil : positive_widths m = [])
        by (by destruct (positive_widths m)).
      repeat (font_simpl; cbn [orb]; rewrite ?Hmax;
              match goal with
              | |- context [(?a =? ?b)%Z] => destruct (Z.eqb_spec a b); try lia
              end).
      all: font_simpl; cbn [orb]; rewrite ?Hmax; intros H; try discriminate H.
      all: injection H as <- <-; right; (split; [subst; reflexivity|]).
      all: by left.
  - unfold capital_widths. intros sampled width_max Hs Hone Hmax Hne.
    unfold fix_isFixedPitch, half_fixed, monospace_panose.
    rewrite Hs, decide_True by done. clear Hs Hone.
    destruct ttfont as [k [v ft wc fs wa wd ta td tl xa [pf pp]] hd [ha hde hl awm]
                          [ia fp] nm m ct fa cv ng gl go hv sn].
    font_simpl. apply Z.eqb_neq in Hne.
    repeat (font_simpl; cbn [orb]; rewrite ?Hmax, ?Hne;
            match goal with
            | |- context [(?a =? ?b)%Z] => destruct (Z.eqb_spec a b); try lia
            end).
    all: font_simpl; cbn [orb]; rewrite ?Hmax, ?Hne; subst; reflexivity.
  - intros Hfp. split; [done|]. intros Heq.
    apply (f_equal (λ f, isFixedPitch (post f))) in Heq. by symmetry in Heq.
Qed.

(** A monospaced font whose post.isFixedPitch is still 0 and whose
    hhea.advanceWidthMax, 500, is not the advance width 600 of its glyphs. *)
Definition example_stale_font : TTFont :=
  with_post (mkPost 0 0) (example_monospace_font 600 500 600).

Lemma fix_isFixedPitch_raise_leaves_witness :
  fix_isFixedPitch example_stale_font = Raises (half_fixed example_stale_font) NameError
  ∧ isFixedPitch (post example_stale_font) = 0
  ∧ isFixedPitch (post (half_fixed example_stale_font)) = 1
  ∧ half_fixed example_stale_font ≠ example_stale_font.
Proof.
  destruct (fix_isFixedPitch_raise_leaves example_stale_font) as (_ & Hraise & Hchanged).
  split.
  - apply (Hraise (replicate 26 600) 600); [vm_compute; reflexivity..|].
    cbn. lia.
  - split; [reflexivity|]. apply Hchanged. cbn. lia.
Defined.

(** ** COLR v0: the empty glyph at index 1 *)

(** [_add_empty_glyph_to_gid1] works on the copy that [load_fully] returns.
    It fails with an AssertionError exactly when the glyph order has both
    ".null" and "emptyglyph".  Otherwise the font it returns has a glyph
    whose name is new, ".null" if that is free and "emptyglyph" if not, with
    no contours and the metrics (0, 0), at index 1 of the glyph order; the
    first glyph stays and every later glyph moves up by one; and nothing but
    the glyph order, the glyf and hmtx entries of the new name and the HVAR
    mappings differs from the loaded font. *)
Theorem add_empty_glyph_to_gid1_spec (load_fully : TTFont → TTFont) (ttfont : TTFont) :
  let loaded := load_fully ttfont in
  let glyph_order := glyphOrder loaded in
  (".null" ∈ glyph_order ∧ "emptyglyph" ∈ glyph_order →
     _add_empty_glyph_to_gid1 load_fully ttfont = Error AssertionError)
  ∧ (".null" ∉ glyph_order ∨ "emptyglyph" ∉ glyph_order →
     ∃ empty_name fixed,
       _add_empty_glyph_to_gid1 load_fully ttfont = Ok fixed
       ∧ empty_name ∉ glyph_order
       ∧ (empty_name = ".null" ∨ (".null" ∈ glyph_order ∧ empty_name = "emptyglyph"))
       ∧ glyphs fixed = <[empty_name := 0]> (glyphs loaded)
       ∧ metrics fixed = <[empty_name := (0, 0)]> (metrics loaded)
       ∧ length (glyphOrder fixed) = S (length glyph_order)
       ∧ (glyph_order ≠ [] →
            glyphOrder fixed !! 1%nat = Some empty_name
            ∧ glyphOrder fixed !! 0%nat = glyph_order !! 0%nat)
       ∧ (∀ i, (1 ≤ i)%nat → glyphOrder fixed !! S i = glyph_order !! i)
       ∧ with_hvar (hvar loaded)
           (with_glyphOrder glyph_order
              (with_metrics (metrics loaded) (with_glyphs (glyphs loaded) fixed)))
         = loaded).
Proof.
  intros loaded glyph_order. split.
  - intros [Hnull Hempty]. unfold _add_empty_glyph_to_gid1.
    fold loaded. fold glyph_order.
    rewrite (decide_False (P := ".null" ∉ glyph_order)) by tauto.
    by rewrite decide_True.
  - intros Hfree.
    assert (Horder : ∀ name,
              length (list_insert_at 1 name glyph_order) = S (length glyph_order)
              ∧ (glyph_order ≠ [] →
                   list_insert_at 1 name glyph_order !! 1%nat = Some name
                   ∧ list_insert_at 1 name glyph_order !! 0%nat = glyph_order !! 0%nat)
              ∧ (∀ i, (1 ≤ i)%nat →
                   list_insert_at 1 name glyph_order !! S i = glyph_order !! i)).
    { intros name. unfold list_insert_at. destruct glyph_order as [|g0 order].
      - split; [done|]. split; [done|]. intros i Hi. by destruct i.
      - cbn [take drop app]. rewrite take_0, drop_0. split; [done|].
        split; [done|]. intros i Hi. destruct i as [|i]; [lia|done]. }
    assert (Hadd : ∀ name,
              name ∉ glyph_order →
              name = ".null" ∨ (".null" ∈ glyph_order ∧ name = "emptyglyph") →
              (if decide (".null" ∉ glyph_order) then ".null" else "emptyglyph") = name →
              ∃ empty_name fixed,
                _add_empty_glyph_to_gid1 load_fully ttfont = Ok fixed
                ∧ empty_name ∉ glyph_order
                ∧ (empty_name = ".null"
                   ∨ (".null" ∈ glyph_order ∧ empty_name = "emptyglyph"))
                ∧ glyphs fixed = <[empty_name := 0]> (glyphs loaded)
                ∧ metrics fixed = <[empty_name := (0, 0)]> (metrics loaded)
                ∧ length (glyphOrder fixed) = S (length glyph_order)
                ∧ (glyph_order ≠ [] →
                     glyphOrder fixed !! 1%nat = Some empty_name
                     ∧ glyphOrder fixed !! 0%nat = glyph_order !! 0%nat)
                ∧ (∀ i, (1 ≤ i)%nat → glyphOrder fixed !! S i = glyph_order !! i)
                ∧ with_hvar (hvar loaded)
                    (with_glyphOrder glyph_order
                       (with_metrics (metrics loaded)
                          (with_glyphs (glyphs loaded) fixed)))
                  = loaded).
    { intros name Hnew Hname Hchoice.
      destruct (Horder name) as (Hlen & Hidx & Hshift).
      unfold _add_empty_glyph_to_gid1. fold loaded. fold glyph_order.
      rewrite Hchoice. rewrite decide_False by done. cbv zeta.
      exists name. eexists. split; [reflexivity|].
      split; [done|]. split; [done|].
      split; [by destruct (has_table "HVAR" _)|].
      split; [by destruct (has_table "HVAR" _)|].
      split; [exact Hlen|]. split; [exact Hidx|]. split; [exact Hshift|].
      unfold glyph_order. destruct (has_table "HVAR" _); by destruct loaded. }
    destruct (decide (".null" ∉ glyph_order)) as [Hnull|Hnull].
    + apply (Hadd ".null"); [done|by left|done].
    + assert (Hin : ".null" ∈ glyph_order) by (by apply dec_stable).
      apply (Hadd "emptyglyph"); [tauto|by right|done].
Qed.

Lemma first_empty_glyph_split (glyf_table : gmap string Z) (pre post : list string)
    (g : string) :
  (∀ h, h ∈ pre → ∃ n, glyf_table !! h = Some n ∧ n ≠ 0) →
  glyf_table !! g = Some 0 →
  first_empty_glyph glyf_table (pre ++ g :: post) = Ok (Some g).
Proof.
  intros Hpre Hg. induction pre as [|h pre IH]; simpl.
  - by rewrite Hg.
  - destruct (Hpre h) as (n & -> & Hn); [left|].
    rewrite (proj2 (Z.eqb_neq _ _) Hn). apply IH.
    intros h' Hh'. apply Hpre. by right.
Qed.

Lemma list_remove_first_split (pre post : list string) (g : string) :
  g ∉ pre → list_remove_first g (pre ++ g :: post) = pre ++ post.
Proof.
  intros Hg. induction pre as [|h pre IH]; simpl.
  - by rewrite decide_True.
  - apply not_elem_of_cons in Hg as [Hne Hg].
    rewrite decide_False by done. by rewrite IH.
Qed.

(** [_swap_empty_glyph_to_gid1] takes the first glyph of the loaded font's
    glyph order that has no contours in the glyf table of the font given,
    and hands [reorder_glyphs] the glyph order with that glyph taken out and
    put back at index 1: the same glyphs, the empty one at index 1 when there
    is another glyph.  The glyph that comes first among the others becomes
    glyph 0, so an empty glyph 0 trades places with glyph 1. *)
Theorem swap_empty_glyph_to_gid1_spec (load_fully : TTFont → TTFont)
    (reorder_glyphs : TTFont → list string → TTFont) (ttfont : TTFont)
    (pre post : list string) (empty_glyph : string) :
  glyphOrder (load_fully ttfont) = pre ++ empty_glyph :: post →
  (∀ h, h ∈ pre → ∃ n, glyphs ttfont !! h = Some n ∧ n ≠ 0) →
  glyphs ttfont !! empty_glyph = Some 0 →
  ∃ new_order,
    _swap_empty_glyph_to_gid1 load_fully reorder_glyphs ttfont
    = Ok (reorder_glyphs (load_fully ttfont) new_order)
    ∧ new_order = take 1 (pre ++ post) ++ empty_glyph :: drop 1 (pre ++ post)
    ∧ new_order ≡ₚ glyphOrder (load_fully ttfont)
    ∧ (pre ++ post ≠ [] → new_order !! 1%nat = Some empty_glyph)
    ∧ (∀ h, (pre ++ post) !! 0%nat = Some h → new_order !! 0%nat = Some h)
    ∧ (pre = [] → ∀ h, post !! 0%nat = Some h →
         glyphOrder (load_fully ttfont) !! 1%nat = Some h
         ∧ new_order !! 0%nat = Some h).
Proof.
  intros Horder Hpre Hg.
  assert (Hnotin : empty_glyph ∉ pre).
  { intros Hin. destruct (Hpre _ Hin) as (n & Hn & Hne). congruence. }
  unfold _swap_empty_glyph_to_gid1. rewrite Horder.
  rewrite (first_empty_glyph_split _ _ _ _ Hpre Hg).
  rewrite list_remove_first_split by done. unfold list_insert_at.
  eexists. split; [reflexivity|]. split; [done|].
  split; [by rewrite <- !Permutation_middle, take_drop|].
  destruct (pre ++ post) as [|h0 others] eqn:Hothers.
  - split; [done|]. split; [done|]. intros -> h Hh. simpl in Hothers.
    by rewrite Hothers in Hh.
  - cbn [take drop app]. rewrite take_0, drop_0. split; [done|]. split; [done|].
    intros -> h Hh. simpl in Hothers. rewrite Hothers in Hh. injection Hh as ->.
    by rewrite Hothers.
Qed.

Lemma swap_empty_glyph_to_gid1_spec_witness :
  ∃ new_order,
    _swap_empty_glyph_to_gid1 id (λ font order, with_glyphOrder order font)
      (example_colr_font 0)
    = Ok (with_glyphOrder new_order (id (example_colr_font 0)))
    ∧ new_order = take 1 ([".notdef"; "A"] ++ []) ++ "space" :: drop 1 ([".notdef"; "A"] ++ [])
    ∧ new_order ≡ₚ glyphOrder (id (example_colr_font 0))
    ∧ ([".notdef"; "A"] ++ [] ≠ [] → new_order !! 1%nat = Some "space")
    ∧ (∀ h, ([".notdef"; "A"] ++ []) !! 0%nat = Some h → new_order !! 0%nat = Some h)
    ∧ ([".notdef"; "A"] = [] → ∀ h, [] !! 0%nat = Some h →
         glyphOrder (id (example_colr_font 0)) !! 1%nat = Some h
         ∧ new_order !! 0%nat = Some h).
Proof.
  apply (swap_empty_glyph_to_gid1_spec id (λ font order, with_glyphOrder order font)
           (example_colr_font 0) [".notdef"; "A"] [] "space").
  - reflexivity.
  - intros h Hh. apply elem_of_cons in Hh as [->|Hh].
    + exists 1. split; [reflexivity|lia].
    + apply list_elem_of_singleton in Hh as ->. exists 2. split; [reflexivity|lia].
  - reflexivity.
Defined.

(** ** Which name records go *)

(** The Macintosh records (platform 1, encoding 0, language 0) of a name id,
    in the order of the name table. *)
Definition mac_records (n : Z) (l : list NameRecord) : list NameRecord :=
  filter (λ r, is_mac_name n r = true) l.

Lemma names_after_pass (ns : list Z) (ttfont : TTFont) :
  names (state_after (let st := drop_names ns (names ttfont, false) in
                      Returns (with_names st.1 ttfont) st.2))
  = (drop_names ns (names ttfont, false)).1.
Proof. cbv zeta. by destruct (drop_names ns (names ttfont, false)). Qed.

Lemma mac_records_examined (n : Z) (l : list NameRecord) :
  0 ≤ n < 255 →
  mac_records n l = filter (λ r, examined r ∧ nr_nameID r = n) l.
Proof.
  intros Hn. unfold mac_records. apply list_filter_iff. intros r.
  rewrite is_mac_name_spec. unfold examined. intuition lia.
Qed.

Lemma drop_names_first_of_each (ns : list Z) (l : list NameRecord) :
  NoDup ns → (∀ n, n ∈ ns → 0 ≤ n < 255) →
  let l1 := (drop_names ns (l, false)).1 in
  (∀ n, n ∈ ns → mac_records n l1 = tail (mac_records n l))
  ∧ (∀ n, n ∉ ns → mac_records n l1 = mac_records n l)
  ∧ (no_duplicate_mac_names l →
     ∀ r, r ∈ l1 → examined r → nr_nameID r ∉ ns).
Proof.
  intros Hnd Hrange l1.
  assert (Htail : ∀ n, n ∈ ns → mac_records n l1 = tail (mac_records n l))
    by (intros n Hn; by apply drop_names_filter_tail).
  split; [exact Htail|]. split.
  - intros n Hn. destruct (drop_names_spec ns Hnd l false) as (_ & Hfil & _).
    apply Hfil. intros r n' Hn' Hr. apply (is_mac_name_other n n'); [|done].
    by intros ->.
  - intros Hdup r Hr Hex Hin. specialize (Htail _ Hin). specialize (Hrange _ Hin).
    specialize (Hdup (nr_nameID r)).
    rewrite <- (mac_records_examined _ _ Hrange) in Hdup.
    assert (Hmem : r ∈ mac_records (nr_nameID r) l1).
    { unfold mac_records. apply list_elem_of_filter. split; [|done].
      apply is_mac_name_spec. unfold examined in Hex. tauto. }
    rewrite Htail in Hmem.
    destruct (mac_records (nr_nameID r) l) as [|r0 [|r1 rest]]; simpl in *;
      [by apply not_elem_of_nil in Hmem|by apply not_elem_of_nil in Hmem|lia].
Qed.

(** Of the Macintosh records of one name id, [drop_mac_names] removes the
    first and keeps the others in their order, for every id from 0 to 254;
    [drop_superfluous_mac_names] does so for the ids that are not kept and
    leaves the records of the ids 1-6, 16-18, 20-22 and 25 as they are.  In a
    name table without duplicates no Macintosh record is left after
    [drop_mac_names], and only those of the kept ids after
    [drop_superfluous_mac_names]. *)
Theorem drop_mac_names_first_of_each (ttfont : TTFont) :
  let names1 := names (state_after (drop_mac_names ttfont)) in
  let names2 := names (state_after (drop_superfluous_mac_names ttfont)) in
  (∀ n, 0 ≤ n < 255 → mac_records n names1 = tail (mac_records n (names ttfont)))
  ∧ (∀ n, 0 ≤ n < 255 → n ∉ keep_ids →
       mac_records n names2 = tail (mac_records n (names ttfont)))
  ∧ (∀ n, n ∈ keep_ids → mac_records n names2 = mac_records n (names ttfont))
  ∧ (no_duplicate_mac_names (names ttfont) →
     (∀ r, r ∈ names1 → ¬ examined r)
     ∧ (∀ r, r ∈ names2 → examined r → nr_nameID r ∈ keep_ids)).
Proof.
  cbv zeta. rewrite drop_mac_names_eq, drop_superfluous_mac_names_eq.
  rewrite !names_after_pass.
  destruct (drop_names_first_of_each (seqZ 0 255) (names ttfont))
    as (Htail1 & _ & Hnone1);
    [apply NoDup_seqZ|intros n Hn; apply elem_of_seqZ in Hn; lia|].
  destruct (drop_names_first_of_each (filter (λ n, n ∉ keep_ids) (seqZ 0 255))
              (names ttfont)) as (Htail2 & Hkeep2 & Hnone2);
    [apply NoDup_filter, NoDup_seqZ
    |intros n Hn; apply list_elem_of_filter in Hn as [_ Hn];
     apply elem_of_seqZ in Hn; lia|].
  cbv zeta in Htail1, Hnone1, Htail2, Hkeep2, Hnone2.
  split; [|split; [|split]].
  - intros n Hn. apply Htail1. apply elem_of_seqZ. lia.
  - intros n Hn Hk. apply Htail2. apply list_elem_of_filter. split; [exact Hk|].
    apply elem_of_seqZ. lia.
  - intros n Hn. apply Hkeep2. intros Hin. apply list_elem_of_filter in Hin as [Hk _].
    exact (Hk Hn).
  - intros Hdup. split.
    + intros r Hr Hex. apply (Hnone1 Hdup r Hr Hex). apply elem_of_seqZ.
      unfold examined in Hex. lia.
    + intros r Hr Hex. destruct (decide (nr_nameID r ∈ keep_ids)) as [Hk|Hk];
        [exact Hk|]. exfalso. apply (Hnone2 Hdup r Hr Hex).
      apply list_elem_of_filter. split; [exact Hk|]. apply elem_of_seqZ.
      unfold examined in Hex. lia.
Qed.

(** ** Vertical metrics inherited from the hosted family *)

Lemma dict_set_keys {V} (k : string) (v : V) (d : dict V) :
  dict_keys (dict_set k v d)
  = if decide (k ∈ dict_keys d) then dict_keys d else dict_keys d ++ [k].
Proof.
  unfold dict_keys. induction d as [|[k' v'] d IH]; [done|].
  cbn [dict_set]. destruct (decide (k' = k)) as [->|Hne].
  - cbn [fmap list_fmap fst]. rewrite decide_True; [done|left].
  - cbn [fmap list_fmap fst]. rewrite IH.
    destruct (decide (k ∈ d.*1)) as [Hin|Hnin].
    + rewrite decide_True; [done|by right].
    + rewrite decide_False; [done|].
      intros [?|?]%elem_of_cons; [congruence|done].
Qed.

Lemma dict_set_NoDup {V} (k : string) (v : V) (d : dict V) :
  NoDup (dict_keys d) → NoDup (dict_keys (dict_set k v d)).
Proof.
  intros Hnd. rewrite dict_set_keys. case_decide; [done|].
  apply NoDup_app. split; [done|]. split; [|apply NoDup_singleton].
  intros x Hx ->%list_elem_of_singleton. done.
Qed.

Lemma dict_set_elem {V} (k : string) (v : V) (d : dict V) (k' : string) (v' : V) :
  (k', v') ∈ dict_set k v d → (k' = k ∧ v' = v) ∨ (k', v') ∈ d.
Proof.
  induction d as [|[k0 v0] d IH]; cbn [dict_set].
  - intros [= -> ->]%list_elem_of_singleton. by left.
  - destruct (decide (k0 = k)) as [->|Hne].
    + intros [[= -> ->]|Hin]%elem_of_cons; [by left|right; by right].
    + intros [[= -> ->]|Hin]%elem_of_cons; [right; left|].
      destruct (IH Hin) as [?|?]; [by left|right; by right].
Qed.

Lemma dict_get_set {V} (k k' : string) (v : V) (d : dict V) :
  dict_get k' (dict_set k v d) = if decide (k = k') then Some v else dict_get k' d.
Proof.
  induction d as [|[k0 v0] d IH]; cbn [dict_set dict_get].
  - done.
  - destruct (decide (k0 = k)) as [->|Hne]; cbn [dict_get].
    + by destruct (decide (k = k')).
    + rewrite IH. destruct (decide (k0 = k')) as [->|?]; [|done].
      by rewrite decide_False.
Qed.

Lemma dict_get_elem {V} (k : string) (v : V) (d : dict V) :
  dict_get k d = Some v → (k, v) ∈ d.
Proof.
  induction d as [|[k0 v0] d IH]; cbn [dict_get]; [done|].
  destruct (decide (k0 = k)) as [->|Hne].
  - intros [= ->]. left.
  - intros H. right. by apply IH.
Qed.

Lemma dict_elem_get {V} (k : string) (v : V) (d : dict V) :
  NoDup (dict_keys d) → (k, v) ∈ d → dict_get k d = Some v.
Proof.
  unfold dict_keys. induction d as [|[k0 v0] d IH]; [by intros _ ?%not_elem_of_nil|].
  cbn [fmap list_fmap fst dict_get]. intros [Hk0 Hnd]%NoDup_cons.
  intros [[= -> ->]|Hin]%elem_of_cons.
  - by rewrite decide_True.
  - rewrite decide_False; [by apply IH|].
    intros ->. apply Hk0. by apply (list_elem_of_fmap_2 fst _ (k, v)).
Qed.

(** The font of a style name that a dict by style name holds: the last one
    of the list with that name. *)
Definition last_of_style (style : string) (fonts : list loc) (σ : store) : option loc :=
  last (filter (λ f, font_stylename (σ f) = style) fonts).

Lemma by_stylename_acc (fonts : list loc) (σ : store) (d : dict loc) :
  let d' := foldl (λ d f, dict_set (font_stylename (σ f)) f d) d fonts in
  (NoDup (dict_keys d) → NoDup (dict_keys d'))
  ∧ (∀ s f, (s, f) ∈ d' → (s, f) ∈ d ∨ (f ∈ fonts ∧ font_stylename (σ f) = s))
  ∧ (∀ s, dict_get s d'
          = match last_of_style s fonts σ with
            | Some f => Some f
            | None => dict_get s d
            end)
  ∧ (d ≠ [] → dict_keys d' !! 0%nat = dict_keys d !! 0%nat).
Proof.
  revert d. induction fonts as [|f0 fonts IH]; intros d; cbv zeta.
  - cbn [foldl]. split; [done|]. split; [intros s f ?; by left|]. done.
  - cbn [foldl].
    destruct (IH (dict_set (font_stylename (σ f0)) f0 d)) as (Hnd & Hel & Hget & Hhd).
    split; [intros H; by apply Hnd, dict_set_NoDup|]. split; [|split].
    + intros s f Hin. destruct (Hel s f Hin) as [Hd|[Hf Hs]].
      * apply dict_set_elem in Hd as [[-> ->]|Hd]; [right; split; [left|done]|by left].
      * right. split; [by right|done].
    + intros s. rewrite Hget. unfold last_of_style. rewrite filter_cons.
      destruct (decide (font_stylename (σ f0) = s)) as [Hs|Hs].
      * rewrite last_cons. rewrite dict_get_set, decide_True by done.
        by destruct (last _).
      * rewrite dict_get_set, decide_False by done. done.
    + intros Hne. rewrite Hhd.
      * rewrite dict_set_keys. case_decide; [done|].
        destruct d as [|[k v] d]; [done|]. done.
      * destruct d as [|[k v] d]; [done|]. cbn [dict_set]. by case_decide.
Qed.

Lemma by_stylename_spec (fonts : list loc) (σ : store) :
  NoDup (dict_keys (by_stylename fonts σ))
  ∧ (∀ s f, (s, f) ∈ by_stylename fonts σ → f ∈ fonts ∧ font_stylename (σ f) = s)
  ∧ (∀ s, dict_get s (by_stylename fonts σ) = last_of_style s fonts σ)
  ∧ NoDup (by_stylename fonts σ).*2.
Proof.
  destruct (by_stylename_acc fonts σ []) as (Hnd & Hel & Hget & _).
  fold (by_stylename fonts σ) in Hnd, Hel, Hget.
  assert (Hkeys : NoDup (dict_keys (by_stylename fonts σ)))
    by (apply Hnd; constructor).
  assert (Helem : ∀ s f, (s, f) ∈ by_stylename fonts σ →
                         f ∈ fonts ∧ font_stylename (σ f) = s).
  { intros s f Hin. destruct (Hel s f Hin) as [?%not_elem_of_nil|?]; done. }
  split; [done|]. split; [done|]. split.
  - intros s. rewrite Hget. by destruct (last_of_style s fonts σ).
  - apply NoDup_fmap_2_strong; [|by apply NoDup_fmap_1 in Hkeys].
    intros [s1 f1] [s2 f2] H1 H2 Heq. cbn in Heq. subst f2.
    destruct (Helem _ _ H1) as [_ <-]. destruct (Helem _ _ H2) as [_ <-]. done.
Qed.

Lemma last_of_style_elem (s : string) (fonts : list loc) (σ : store) (f : loc) :
  last_of_style s fonts σ = Some f → f ∈ fonts ∧ font_stylename (σ f) = s.
Proof.
  unfold last_of_style. intros Hl. apply last_Some_elem_of in Hl.
  by apply list_elem_of_filter in Hl as [? ?].
Qed.

(** What the loop does to the font of one entry: the metrics and the bit of
    its source, the rest as it was. *)
Definition inherited (σ σ' : store) (src font : loc) : Prop :=
  (∀ k, getattr k (σ' font) = getattr k (σ src))
  ∧ fsSelection (os2 (σ' font))
    = (if typo_metrics_enabled (σ src)
       then Z.lor (fsSelection (os2 (σ font))) (Z.shiftl 1 7)
       else fsSelection (os2 (σ font)))
  ∧ outside_vertical_metrics (σ' font) = outside_vertical_metrics (σ font).

Lemma inherit_step_spec (gf_fonts : dict loc) (gf_fallback : loc) (σ : store)
    (style : string) (font : loc) :
  let src := default gf_fallback (dict_get style gf_fonts) in
  let σ' := inherit_step gf_fonts gf_fallback σ (style, font) in
  src ≠ font →
  inherited σ σ' src font ∧ ∀ l, l ≠ font → σ' l = σ l.
Proof.
  intros src σ' Hne. subst σ'. unfold inherit_step.
  change (match dict_get style gf_fonts with
          | Some f => f
          | None => gf_fallback
          end) with src.
  change (copy_vertical_metrics src font) with (copy_keys src font vertical_metric_keys).
  set (σc := copy_keys src font vertical_metric_keys σ).
  assert (Hsrc : σc src = σ src) by (by apply copy_keys_other).
  assert (Hne' : font ≠ src) by congruence.
  destruct (copy_keys_dst src font vertical_metric_keys σ Hne') as (Hget & _ & Hsel).
  fold σc in Hget, Hsel.
  assert (Hout : outside_vertical_metrics (σc font) = outside_vertical_metrics (σ font))
    by apply copy_keys_outside.
  assert (Hother : ∀ l, l ≠ font → σc l = σ l)
    by (intros l Hl; by apply copy_keys_other).
  rewrite Hsrc. unfold inherited.
  destruct (typo_metrics_enabled (σ src)).
  - split; [|intros l Hl; rewrite modify_other by done; by apply Hother].
    rewrite modify_same. split; [|split].
    + intros k. rewrite getattr_enable_typo_metrics, Hget.
      by rewrite decide_True by apply vertical_metric_keys_all.
    + unfold enable_typo_metrics. cbn [os2 with_os2 fsSelection set_fsSelection].
      by rewrite Hsel.
    + by rewrite outside_enable_typo_metrics.
  - split; [|exact Hother]. split; [|split]; [|done..].
    intros k. rewrite Hget. by rewrite decide_True by apply vertical_metric_keys_all.
Qed.

Lemma inherit_loop_spec (gf_fonts : dict loc) (gf_fallback : loc)
    (items : list (string * loc)) :
  NoDup items.*2 →
  (∀ s f, (s, f) ∈ items → default gf_fallback (dict_get s gf_fonts) ∉ items.*2) →
  ∀ σ,
    let σ' := foldl (inherit_step gf_fonts gf_fallback) σ items in
    (∀ s f, (s, f) ∈ items →
       inherited σ σ' (default gf_fallback (dict_get s gf_fonts)) f)
    ∧ (∀ l, l ∉ items.*2 → σ' l = σ l).
Proof.
  induction items as [|[s0 f0] items IH]; intros Hnd Hsrc σ; cbv zeta.
  - split; [by intros s f ?%not_elem_of_nil|done].
  - cbn [foldl]. cbn [fmap list_fmap snd] in Hnd, Hsrc.
    apply NoDup_cons in Hnd as [Hf0 Hnd].
    set (src0 := default gf_fallback (dict_get s0 gf_fonts)).
    assert (Hsrc0 : src0 ∉ f0 :: items.*2) by (apply (Hsrc s0 f0); left).
    apply not_elem_of_cons in Hsrc0 as [Hne0 _].
    destruct (inherit_step_spec gf_fonts gf_fallback σ s0 f0 Hne0) as [Hin0 Hother0].
    set (σ1 := inherit_step gf_fonts gf_fallback σ (s0, f0)) in *.
    destruct (IH Hnd) with (σ := σ1) as [Hitems Hframe].
    { intros s f Hin. assert (Hs : default gf_fallback (dict_get s gf_fonts)
                                  ∉ f0 :: items.*2) by (apply (Hsrc s f); by right).
      by apply not_elem_of_cons in Hs as [_ ?]. }
    cbv zeta in Hitems, Hframe.
    split.
    + intros s f [[= -> ->]|Hin]%elem_of_cons.
      * fold src0. unfold inherited in *. rewrite (Hframe f0 Hf0). exact Hin0.
      * assert (Hs : default gf_fallback (dict_get s gf_fonts) ∉ f0 :: items.*2)
          by (apply (Hsrc s f); by right).
        apply not_elem_of_cons in Hs as [Hsne _].
        assert (Hfne : f ≠ f0).
        { intros ->. apply Hf0. by apply (list_elem_of_fmap_2 snd _ (s, f0)). }
        specialize (Hitems s f Hin). unfold inherited in *.
        by rewrite (Hother0 _ Hsne), (Hother0 _ Hfne) in Hitems.
    + intros l [Hl0 Hl]%not_elem_of_cons. rewrite (Hframe l Hl). by apply Hother0.
Qed.

(** [inherit_vertical_metrics], for a family name that is given or read off
    the first font, and a download that is not empty and whose fonts are
    objects of their own.  A font of the family that is the last one with
    its style name gets the eight vertical metrics of the downloaded font
    with that style name (the last one, if several have it) and otherwise of
    the fallback, which is the last downloaded font with the style name of
    the first; bit 7 of its fsSelection is set when the source has it set and
    is never cleared; the rest of the font is as before.  A font of the
    family that a later font shares its style name with is not touched, nor
    is any font outside the family, the downloaded ones among them. *)
Theorem inherit_vertical_metrics_spec (font_familyname : TTFont → string)
    (download_family_from_Google_Fonts : string → list loc)
    (ttFonts : list loc) (family_name : option string) (σ : store)
    (name : string) (g0 : loc) (gs : list loc) :
  (family_name = Some name ∧ name ≠ "")
  ∨ ((family_name = None ∨ family_name = Some "")
     ∧ ∃ first rest, ttFonts = first :: rest ∧ name = font_familyname (σ first)) →
  download_family_from_Google_Fonts name = g0 :: gs →
  (∀ g, g ∈ g0 :: gs → g ∉ ttFonts) →
  ∃ σ' gf_fallback,
    inherit_vertical_metrics font_familyname download_family_from_Google_Fonts
      ttFonts family_name σ
    = Returns σ' tt
    ∧ last_of_style (font_stylename (σ g0)) (g0 :: gs) σ = Some gf_fallback
    ∧ (∀ f, f ∈ ttFonts →
         if decide (last_of_style (font_stylename (σ f)) ttFonts σ = Some f)
         then inherited σ σ'
                (default gf_fallback
                   (last_of_style (font_stylename (σ f)) (g0 :: gs) σ)) f
         else σ' f = σ f)
    ∧ (∀ l, l ∉ ttFonts → σ' l = σ l).
Proof.
  intros Hname Hdl Hfresh.
  assert (Hrun : inherit_vertical_metrics font_familyname
                   download_family_from_Google_Fonts ttFonts family_name σ
                 = match by_stylename (g0 :: gs) σ with
                   | [] => Raises σ IndexError
                   | (_, gf_fallback) :: _ =>
                       Returns (foldl (inherit_step (by_stylename (g0 :: gs) σ) gf_fallback)
                                      σ (by_stylename ttFonts σ)) tt
                   end).
  { unfold inherit_vertical_metrics.
    destruct Hname as [[-> Hne]|[Hfalsy (first & rest & -> & ->)]].
    - rewrite decide_False by done. by rewrite Hdl.
    - destruct Hfalsy as [->| ->]; [|rewrite decide_True by done]; by rewrite Hdl. }
  rewrite Hrun. clear Hrun Hname Hdl.
  destruct (by_stylename_spec (g0 :: gs) σ) as (Hgk & Hge & Hgg & _).
  destruct (by_stylename_acc gs σ [(font_stylename (σ g0), g0)]) as (_ & _ & _ & Hhd).
  specialize (Hhd ltac:(done)).
  change (foldl _ [(font_stylename (σ g0), g0)] gs)
    with (by_stylename (g0 :: gs) σ) in Hhd.
  destruct (by_stylename (g0 :: gs) σ) as [|[s0 gf_fallback] gf_rest] eqn:Hgf;
    [done|].
  injection Hhd as ->.
  assert (Hfb : last_of_style (font_stylename (σ g0)) (g0 :: gs) σ = Some gf_fallback).
  { rewrite <- Hgg. cbn [dict_get]. by rewrite decide_True. }
  rewrite <- Hgf in *. clear Hgf.
  destruct (by_stylename_spec ttFonts σ) as (Hfk & Hfe & Hfg & Hfv).
  assert (Hsrc : ∀ s, default gf_fallback (dict_get s (by_stylename (g0 :: gs) σ))
                      ∈ g0 :: gs).
  { intros s. rewrite Hgg. destruct (last_of_style s (g0 :: gs) σ) as [g|] eqn:Hs.
    - by apply last_of_style_elem in Hs as [? _].
    - by apply last_of_style_elem in Hfb as [? _]. }
  destruct (inherit_loop_spec (by_stylename (g0 :: gs) σ) gf_fallback
              (by_stylename ttFonts σ) Hfv) with (σ := σ) as [Hitems Hframe].
  { intros s f Hin Hmem. apply (Hfresh _ (Hsrc s)).
    apply list_elem_of_fmap in Hmem as ([s' f'] & Heq & Hin'). cbn in Heq.
    refine (eq_ind_r (λ x, x ∈ ttFonts) _ Heq). by destruct (Hfe _ _ Hin'). }
  cbv zeta in Hitems, Hframe.
  eexists _, gf_fallback. split; [reflexivity|]. split; [exact Hfb|]. split.
  - intros f Hf. case_decide as Hlast.
    + rewrite <- Hfg in Hlast. apply dict_get_elem in Hlast.
      specialize (Hitems _ _ Hlast). by rewrite Hgg in Hitems.
    + apply Hframe. intros Hmem.
      apply list_elem_of_fmap in Hmem as ([s' f'] & Heq & Hin'). cbn in Heq. subst f'.
      apply Hlast. rewrite <- Hfg. destruct (Hfe _ _ Hin') as [_ ->].
      by apply dict_elem_get.
  - intros l Hl. apply Hframe. intros Hmem.
    apply list_elem_of_fmap in Hmem as ([s' f'] & Heq & Hin'). cbn in Heq. subst f'.
    apply Hl. by destruct (Hfe _ _ Hin').
Qed.

Lemma inherit_vertical_metrics_spec_witness :
  ∃ σ' gf_fallback,
    inherit_vertical_metrics (λ _, "Example") (λ _, [3%nat; 4%nat])
      example_family (Some "Example") example_store
    = Returns σ' tt
    ∧ last_of_style (font_stylename (example_store 3%nat)) [3%nat; 4%nat] example_store
      = Some gf_fallback
    ∧ (∀ f, f ∈ example_family →
         if decide (last_of_style (font_stylename (example_store f)) example_family
                      example_store = Some f)
         then inherited example_store σ'
                (default gf_fallback
                   (last_of_style (font_stylename (example_store f)) [3%nat; 4%nat]
                      example_store)) f
         else σ' f = example_store f)
    ∧ (∀ l, l ∉ example_family → σ' l = example_store l).
Proof.
  apply (inherit_vertical_metrics_spec (λ _, "Example") (λ _, [3%nat; 4%nat])
           example_family (Some "Example") example_store "Example" 3%nat [4%nat]).
  - left. split; [reflexivity|discriminate].
  - reflexivity.
  - intros g Hg Hin. unfold example_family in Hin.
    apply elem_of_cons in Hg as [->|Hg];
      [|apply list_elem_of_singleton in Hg as ->];
      repeat (apply elem_of_cons in Hin as [Hin|Hin]; [lia|]);
      by apply not_elem_of_nil in Hin.
Defined.

(** ** What [remove_tables] logs *)


(** ** COLR v0: a repair that settles *)

Lemma any_empty_glyph_none (glyf_table : gmap string Z) (glyph_names : list string) :
  (∀ g, g ∈ glyph_names → ∃ n, glyf_table !! g = Some n ∧ n ≠ 0) →
  any_empty_glyph glyf_table glyph_names = Some false.
Proof.
  induction glyph_names as [|g l IH]; intros Hall; [done|].
  cbn [any_empty_glyph]. destruct (Hall g) as (n & -> & Hn); [left|].
  rewrite (proj2 (Z.eqb_neq _ _) Hn). apply IH. intros g' Hg'. apply Hall. by right.
Qed.

(** A COLR v0 font with two glyphs or more, none of them empty, whose tables
    are all loaded: [fix_colr_v0_gid1] returns a font with a new empty glyph
    at index 1, between the first glyph and the former second one, unless
    the names ".null" and "emptyglyph" are both taken; and on the font it
    returns, a second call finds nothing to repair and returns it as it
    is. *)
Theorem fix_colr_v0_gid1_settles (load_fully : TTFont → TTFont)
    (reorder_glyphs : TTFont → list string → TTFont) (ttfont : TTFont)
    (first second : string) (others : list string) :
  "COLR" ∈ keys ttfont → COLR_version ttfont = 0 → 2 ≤ numGlyphs ttfont →
  glyphOrder ttfont = first :: second :: others →
  (∀ g, g ∈ glyphOrder ttfont → ∃ n, glyphs ttfont !! g = Some n ∧ n ≠ 0) →
  ".null" ∉ glyphOrder ttfont ∨ "emptyglyph" ∉ glyphOrder ttfont →
  load_fully ttfont = ttfont →
  ∃ empty_name fixed,
    fix_colr_v0_gid1 load_fully reorder_glyphs ttfont = Ok fixed
    ∧ empty_name ∉ glyphOrder ttfont
    ∧ glyphOrder fixed = first :: empty_name :: second :: others
    ∧ glyphs fixed !! empty_name = Some 0
    ∧ fix_colr_v0_gid1 load_fully reorder_glyphs fixed = Ok fixed.
Proof.
  intros Hcolr Hv Hn Horder Hall Hfree Hload.
  assert (Hsettled : ∀ fixed empty_name,
            keys fixed = keys ttfont → COLR_version fixed = 0 →
            numGlyphs fixed = numGlyphs ttfont →
            glyphOrder fixed = first :: empty_name :: second :: others →
            glyphs fixed !! empty_name = Some 0 →
            fix_colr_v0_gid1 load_fully reorder_glyphs fixed = Ok fixed).
  { intros fixed empty_name Hk Hv' Hn' Ho Hg. unfold fix_colr_v0_gid1, has_table.
    rewrite Hk, bool_decide_eq_true_2 by done. rewrite Hv', Hn'. cbn [Z.eqb andb negb].
    rewrite (proj2 (Z.ltb_ge _ _) Hn). rewrite Ho. cbn [lookup list_lookup].
    by rewrite Hg. }
  assert (Hrun : fix_colr_v0_gid1 load_fully reorder_glyphs ttfont
                 = _add_empty_glyph_to_gid1 load_fully ttfont).
  { unfold fix_colr_v0_gid1, has_table.
    rewrite bool_decide_eq_true_2 by done. rewrite Hv. cbn [Z.eqb andb negb].
    rewrite (proj2 (Z.ltb_ge _ _) Hn).
    rewrite (any_empty_glyph_none _ _ Hall). rewrite Horder. cbn [lookup list_lookup].
    destruct (Hall second) as (n & -> & Hn2); [rewrite Horder; right; left|].
    by rewrite (proj2 (Z.eqb_neq _ _) Hn2). }
  rewrite Hrun. unfold _add_empty_glyph_to_gid1. rewrite Hload.
  set (empty_name := if decide (".null" ∉ glyphOrder ttfont) then ".null" else "emptyglyph").
  assert (Hnew : empty_name ∉ glyphOrder ttfont).
  { unfold empty_name. case_decide as Hnull; [done|]. tauto. }
  rewrite decide_False by (intros Hin; by apply Hnew). cbv zeta.
  exists empty_name. eexists. split; [reflexivity|]. split; [exact Hnew|].
  assert (Hord : list_insert_at 1 empty_name (glyphOrder ttfont)
                 = first :: empty_name :: second :: others).
  { rewrite Horder. unfold list_insert_at. cbn [take drop app].
    by rewrite ?take_0, ?drop_0. }
  split; [exact Hord|]. split.
  { destruct (has_table "HVAR" _); cbn [glyphs with_glyphOrder with_hvar with_metrics
                                        with_glyphs]; apply lookup_insert_eq. }
  apply (Hsettled _ empty_name).
  - by destruct (has_table "HVAR" _).
  - destruct (has_table "HVAR" _); exact Hv.
  - by destruct (has_table "HVAR" _).
  - exact Hord.
  - destruct (has_table "HVAR" _); cbn [glyphs with_glyphOrder with_hvar with_metrics
                                        with_glyphs]; apply lookup_insert_eq.
Qed.

(** A COLR v0 font of three glyphs that all have contours. *)
Definition example_colr_font_no_empty : TTFont :=
  with_glyphs (list_to_map [(".notdef", 1); ("A", 2); ("B", 3)])
    (with_glyphOrder [".notdef"; "A"; "B"] (example_colr_font 0)).

Lemma fix_colr_v0_gid1_settles_witness :
  ∃ empty_name fixed,
    fix_colr_v0_gid1 id (λ font order, with_glyphOrder order font)
      example_colr_font_no_empty
    = Ok fixed
    ∧ empty_name ∉ glyphOrder example_colr_font_no_empty
    ∧ glyphOrder fixed = ".notdef" :: empty_name :: "A" :: ["B"]
    ∧ glyphs fixed !! empty_name = Some 0
    ∧ fix_colr_v0_gid1 id (λ font order, with_glyphOrder order font) fixed = Ok fixed.
Proof.
  apply (fix_colr_v0_gid1_settles id (λ font order, with_glyphOrder order font)
           example_colr_font_no_empty ".notdef" "A" ["B"]).
  - cbn [keys example_colr_font_no_empty with_glyphs with_glyphOrder example_colr_font].
    set_solver.
  - reflexivity.
  - cbn. lia.
  - reflexivity.
  - intros g Hg. cbn in Hg.
    apply elem_of_cons in Hg as [->|Hg]; [exists 1; split; [reflexivity|lia]|].
    apply elem_of_cons in Hg as [->|Hg]; [exists 2; split; [reflexivity|lia]|].
    apply list_elem_of_singleton in Hg as ->. exists 3. split; [reflexivity|lia].
  - left. cbn. intros Hin.
    repeat (apply elem_of_cons in Hin as [Hin|Hin]; [discriminate|]).
    by apply not_elem_of_nil in Hin.
  - reflexivity.
Defined.
